(** * Octree: a shallow embedding of [octree.h]

    The development follows the layout of the header: fixed-width integer
    helpers, the Morton space indexing ([MortonSpaceIndexing], here module
    [SI]), the geometry adaptor and the internal geometry module, the node
    store with its edit operations, and the queries.

    Conventions.
    - Unsigned machine integers ([uint32_t], [uint64_t], [std::bitset<N>]) are
      values of [Z] together with an explicit wrap-around [wrap w x].
    - [double] is Rocq's primitive binary64 [float].
    - A call that ends the process ([CRASH()], an exception leaving a
      [noexcept] function) is the result [None] of the option monad.
    - [assert] is compiled out (release build, [NDEBUG]). *)

From Stdlib Require Import ZArith Lia Bool List.
From Stdlib Require Import PrimFloat SpecFloat.
From Stdlib Require FloatOps FloatAxioms Uint63.
From stdpp Require Import base option list list_numbers gmap sorting.

Local Open Scope Z_scope.

(** ** Fixed-width integers *)

(** [wrap w x]: the value of [x] stored in an unsigned integer of [w] bits. *)
Definition wrap (w x : Z) : Z := x mod 2 ^ w.

(** [x << n] in an unsigned type of [w] bits: the bits pushed past the width
    are lost. *)
Definition shl (w x n : Z) : Z := wrap w (Z.shiftl x n).

(** [std::bit_width]. *)
Definition bit_width (x : Z) : Z := if x =? 0 then 0 else Z.log2 x + 1.

(** [std::bitset<N>::set(pos, value)]: throws [std::out_of_range] when
    [pos >= N]. *)
Definition bitset_set (N b pos : Z) (value : bool) : option Z :=
  if pos <? N
  then Some (if value then Z.setbit b pos else Z.clearbit b pos)
  else None.

(** Reading [a[i]] of a [std::array] modelled as a list. *)
Definition at_dim (a : list Z) (i : Z) : Z := nth (Z.to_nat i) a 0.

(** [a[i] |= v]. *)
Definition lor_dim (a : list Z) (i v : Z) : list Z :=
  alter (fun x => Z.lor x v) (Z.to_nat i) a.

(** ** Morton space indexing *)

Module SI.

Record RangeLocationMetaData := mkRangeLocationMetaData {
  DepthID : Z;
  LocID : Z;
  TouchedDimensionsFlag : Z;
  LowerSegmentID : Z
}.

Section Morton.

Variable DIMENSION_NO : Z.

Definition IS_32BIT_LOCATION : bool := DIMENSION_NO <? 4.
Definition IS_64BIT_LOCATION : bool := negb IS_32BIT_LOCATION && (DIMENSION_NO <? 15).
Definition IS_LINEAR_TREE : bool := IS_32BIT_LOCATION || IS_64BIT_LOCATION.

Definition CHILD_NO : Z := 2 ^ DIMENSION_NO.
Definition CHILD_MASK : Z := 2 ^ DIMENSION_NO - 1.
Definition MAX_NONLINEAR_DEPTH_ID : Z := 4.

(** Width in bits of [LocationID] (and of [NodeID]): [uint32_t],
    [uint64_t] or [std::bitset<DIMENSION_NO * 4 + 1>]. *)
Definition LOCATION_BITS : Z :=
  if IS_32BIT_LOCATION then 32
  else if IS_64BIT_LOCATION then 64
  else DIMENSION_NO * MAX_NONLINEAR_DEPTH_ID + 1.

(** Width of [GridID], [dim_t] and [depth_t]. *)
Definition GRID_BITS : Z := 32.

Definition MAX_THEORETICAL_DEPTH_ID : Z :=
  if IS_LINEAR_TREE then (LOCATION_BITS - 1) / DIMENSION_NO
  else MAX_NONLINEAR_DEPTH_ID.

Definition wrapL (x : Z) : Z := wrap LOCATION_BITS x.
Definition shlL (x n : Z) : Z := shl LOCATION_BITS x n.

Definition GetHash (depth locationID : Z) : Z :=
  Z.lor (shlL 1 (depth * DIMENSION_NO)) locationID.

Definition GetHashAtDepth (location : RangeLocationMetaData) (maxDepthID : Z) : Z :=
  Z.lor (shlL 1 (DepthID location * DIMENSION_NO))
        (Z.shiftr (LocID location) ((maxDepthID - DepthID location) * DIMENSION_NO)).

Definition GetRootKey : Z := 1.
Definition GetNoneKey : Z := 0.
Definition IsValidKey (key : Z) : bool := 0 <? key.
Definition GetParentKey (key : Z) : Z := Z.shiftr key DIMENSION_NO.

(** The bitset branch of [GetDepthID]: shift the key down until only the
    sentinel bit remains; [CRASH()] on the key 0. *)
Fixpoint GetDepthID_loop (fuel : nat) (d key : Z) : option Z :=
  if IsValidKey key then
    if key =? 1 then Some d
    else match fuel with
         | O => None
         | S fuel' => GetDepthID_loop fuel' (d + 1) (GetParentKey key)
         end
  else None.

Definition GetDepthID (key : Z) : option Z :=
  if IS_LINEAR_TREE then
    let usedBitNo := wrap GRID_BITS (bit_width key - 1) in
    Some (usedBitNo / DIMENSION_NO)
  else GetDepthID_loop (Z.to_nat LOCATION_BITS) 0 key.

Definition RemoveSentinelBit (key : Z) : option Z :=
  if IS_LINEAR_TREE then
    let sentinelBitPosition := bit_width key - 1 in
    Some (wrapL (key - shlL 1 sentinelBitPosition))
  else
    depthID ← GetDepthID key;
    let sentinelBitPosition := depthID * DIMENSION_NO in
    Some (wrapL (key - shlL 1 sentinelBitPosition)).

(** *** Morton aid functions (the 32-bit branches: they are the ones
    instantiated, since 2 and 3 dimensions use a 32-bit [LocationID]) *)

Definition Part1By1 (gridID : Z) : Z :=
  let l0 := wrap 32 gridID in
  let l1 := Z.land (Z.lxor l0 (shl 32 l0 8)) 0x00ff00ff in
  let l2 := Z.land (Z.lxor l1 (shl 32 l1 4)) 0x0f0f0f0f in
  let l3 := Z.land (Z.lxor l2 (shl 32 l2 2)) 0x33333333 in
  Z.land (Z.lxor l3 (shl 32 l3 1)) 0x55555555.

Definition Part1By2 (gridID : Z) : Z :=
  let l0 := wrap 32 gridID in
  let l1 := Z.land (Z.lxor l0 (shl 32 l0 16)) 0xff0000ff in
  let l2 := Z.land (Z.lxor l1 (shl 32 l1 8)) 0x0300f00f in
  let l3 := Z.land (Z.lxor l2 (shl 32 l2 4)) 0x030c30c3 in
  Z.land (Z.lxor l3 (shl 32 l3 2)) 0x09249249.

(** *** Encode *)

(** The inner loop of the general branch: the bit selected by [mask]
    (bit [i]) of every dimension is placed at [dimensionID + i * D]. *)
Definition Encode_dims (gridID : list Z) (i mask locationID : Z) : option Z :=
  foldl (fun acc dimensionID =>
           loc ← acc;
           let shift := dimensionID + i * DIMENSION_NO in
           let bit := Z.land (at_dim gridID dimensionID) mask in
           if IS_LINEAR_TREE
           then Some (Z.lor loc (shlL bit (shift - i)))
           else bitset_set LOCATION_BITS loc shift (negb (bit =? 0)))
        (Some locationID) (seqZ 0 DIMENSION_NO).

(** The outer loop [for (i = 0; msb; mask <<= 1, msb >>= 1, ++i)].  [msb]
    is a [GridID], so the loop body runs at most [GRID_BITS] times. *)
Fixpoint Encode_bits (fuel : nat) (gridID : list Z) (i mask msb locationID : Z)
  : option Z :=
  if msb =? 0 then Some locationID
  else match fuel with
       | O => Some locationID
       | S fuel' =>
           loc ← Encode_dims gridID i mask locationID;
           Encode_bits fuel' gridID (i + 1) (shl GRID_BITS mask 1) (Z.shiftr msb 1) loc
       end.

Definition Encode (gridID : list Z) : option Z :=
  if DIMENSION_NO =? 1 then
    Some (at_dim gridID 0)
  else if DIMENSION_NO =? 2 then
    Some (wrap 32 (shl 32 (Part1By1 (at_dim gridID 1)) 1 + Part1By1 (at_dim gridID 0)))
  else if DIMENSION_NO =? 3 then
    Some (wrap 32 (wrap 32 (shl 32 (Part1By2 (at_dim gridID 2)) 2
                            + shl 32 (Part1By2 (at_dim gridID 1)) 1)
                   + Part1By2 (at_dim gridID 0)))
  else
    let msb := foldl (fun m dimensionID => Z.lor m (at_dim gridID dimensionID))
                     (at_dim gridID 0) (seqZ 1 (DIMENSION_NO - 1)) in
    Encode_bits (Z.to_nat GRID_BITS) gridID 0 1 msb 0.

(** *** Decode *)

(** One examination level of the decoding loop; the state is the grid ids
    and the running [shift]. *)
Definition Decode_dims (nodeKey examinationLevelID : Z) (st : list Z * Z)
  : list Z * Z :=
  foldl (fun st dimensionID =>
           let '(gridID, shift) := st in
           let bit := Z.land (Z.shiftr nodeKey shift) 1 in
           (lor_dim gridID dimensionID
                    (wrap GRID_BITS (shlL bit examinationLevelID)),
            shift + 1))
        st (seqZ 0 DIMENSION_NO).

Definition Decode (nodeKey maxDepthID : Z) : option (list Z) :=
  if DIMENSION_NO =? 1 then
    loc ← RemoveSentinelBit nodeKey;
    Some [wrap GRID_BITS loc]
  else
    depthID ← GetDepthID nodeKey;
    let first := wrap GRID_BITS (maxDepthID - depthID) in
    Some (fst (foldl (fun st examinationLevelID =>
                        Decode_dims nodeKey examinationLevelID st)
                     (replicate (Z.to_nat DIMENSION_NO) 0, 0)
                     (seqZ first (maxDepthID - first)))).

(** *** Child ids and child keys *)

Definition CastMortonIDToChildID (morton : Z) : Z := morton.

Definition GetChildID (key : Z) : Z :=
  CastMortonIDToChildID (Z.land key CHILD_MASK).

Definition GetChildIDAtLevel (childNodeKey examinationLevelID : Z) : Z :=
  GetChildID (Z.shiftr childNodeKey
                (wrap GRID_BITS (DIMENSION_NO * wrap GRID_BITS (examinationLevelID - 1)))).

Definition GetChildIDByDepth (parentDepth childDepth childNodeKey : Z) : Z :=
  let depthDifference := wrap GRID_BITS (childDepth - parentDepth) in
  GetChildIDAtLevel childNodeKey depthDifference.

Definition IsChildInGreaterSegment (childID dimensionID : Z) : bool :=
  negb (Z.land (Z.shiftl 1 dimensionID) childID =? 0).

(** [ChildKeyGenerator]: the constructor stores [parentNodeKey << D]. *)
Definition ChildKeyGenerator (parentNodeKey : Z) : Z := shlL parentNodeKey DIMENSION_NO.
Definition GetChildNodeKey (m_parentFlag childID : Z) : Z := Z.lor m_parentFlag childID.

(** [ChildCheckerFixedDepth]: the pair [(m_mask, m_childFlag)]. *)
Definition ChildCheckerFixedDepth (examinedLevel locationID : Z) : Z * Z :=
  let m_mask := shlL CHILD_MASK (examinedLevel * DIMENSION_NO) in
  (m_mask, Z.land locationID m_mask).
Definition ChildChecker_GetChildID (cc : Z * Z) (examinedLevel : Z) : Z :=
  CastMortonIDToChildID (Z.shiftr (snd cc) (examinedLevel * DIMENSION_NO)).
Definition ChildChecker_Test (cc : Z * Z) (locationID : Z) : bool :=
  Z.land locationID (fst cc) =? snd cc.

Definition IsAllChildTouched (touchedDimensionsFlag : Z) : bool :=
  touchedDimensionsFlag =? CHILD_MASK.

(** *** Range location meta data *)

Definition GetRangeLocationID (gridIDRange : list Z * list Z) : option (Z * Z) :=
  l0 ← Encode (fst gridIDRange);
  l1 ← Encode (snd gridIDRange);
  Some (l0, l1).

(** The bitset branch counts the levels by shifting the difference down. *)
Fixpoint count_levels (fuel : nat) (diffLocationFlag levelID : Z) : Z :=
  if diffLocationFlag =? 0 then levelID
  else match fuel with
       | O => levelID
       | S fuel' =>
           count_levels fuel' (Z.shiftr diffLocationFlag DIMENSION_NO) (levelID + 1)
       end.

(** [levelID] of [GetRangeLocationMetaData]. *)
Definition levels_from_bottom (locationDifference : Z) : Z :=
  if IS_LINEAR_TREE then
    let differentBitNo := bit_width locationDifference in
    wrap GRID_BITS (differentBitNo + DIMENSION_NO - 1) / DIMENSION_NO
  else count_levels (Z.to_nat LOCATION_BITS) locationDifference 0.

Definition GetRangeLocationMetaData_loc (maxDepthID : Z) (locationIDRange : Z * Z)
  : RangeLocationMetaData :=
  let dl := mkRangeLocationMetaData maxDepthID (fst locationIDRange) 0 0 in
  if fst locationIDRange =? snd locationIDRange then dl
  else
    let locationDifference := Z.lxor (fst locationIDRange) (snd locationIDRange) in
    let levelID := levels_from_bottom locationDifference in
    if 0 <? levelID then
      let shiftToChildSegment := (levelID - 1) * DIMENSION_NO in
      let touched := CastMortonIDToChildID
                       (Z.land (Z.shiftr locationDifference shiftToChildSegment) CHILD_MASK) in
      let loc1 := Z.shiftr (LocID dl) shiftToChildSegment in
      let lower := CastMortonIDToChildID (Z.land loc1 CHILD_MASK) in
      let loc2 := Z.shiftr loc1 DIMENSION_NO in
      let loc3 := shlL loc2 (shiftToChildSegment + DIMENSION_NO) in
      mkRangeLocationMetaData (wrap GRID_BITS (DepthID dl - levelID)) loc3 touched lower
    else dl.

Definition GetRangeLocationMetaData (maxDepthID : Z) (gridIDRange : list Z * list Z)
  : option RangeLocationMetaData :=
  locationIDRange ← GetRangeLocationID gridIDRange;
  Some (GetRangeLocationMetaData_loc maxDepthID locationIDRange).

Definition GetNodeID (maxDepthID : Z) (locationIDRange : Z * Z) : Z :=
  GetHashAtDepth (GetRangeLocationMetaData_loc maxDepthID locationIDRange) maxDepthID.

Definition IsLess (leftLocation rightLocation : RangeLocationMetaData) : bool :=
  (LocID leftLocation <? LocID rightLocation)
  || ((LocID leftLocation =? LocID rightLocation)
      && (DepthID leftLocation <? DepthID rightLocation)).

End Morton.
End SI.

(** ** Floating point ([double]) *)

(** [std::numeric_limits<double>::max()]. *)
Definition float_max : float := 0x1.fffffffffffffp1023%float.

(** Conversion of an unsigned integer below [2 ^ 63] to [double]. *)
Definition float_of_Z (z : Z) : float := of_uint63 (Uint63.of_Z z).

(** Truncation toward zero of a finite value.  The conversion of a NaN, of
    an infinity or of a value outside the target type is undefined in C++;
    the model takes 0 for NaN and infinities and wraps the others. *)
Definition trunc_Z (f : float) : Z :=
  match FloatOps.Prim2SF f with
  | S754_finite s m e =>
      let a := if 0 <=? e then Z.pos m * 2 ^ e else Z.pos m / 2 ^ (- e) in
      if s then - a else a
  | _ => 0
  end.

(** [static_cast<GridID>(f)]. *)
Definition cast_GridID (f : float) : Z := wrap 32 (trunc_Z f).

(** [std::floor(f) == f]: the value is a whole number. *)
Definition is_whole (f : float) : bool :=
  match FloatOps.Prim2SF f with
  | S754_zero _ => true
  | S754_infinity _ => true
  | S754_nan => false
  | S754_finite _ m e => (0 <=? e) || (Z.pos m mod 2 ^ (- e) =? 0)
  end.

(** [std::min], [std::max] and [std::clamp] on [double], by their
    definitions with [operator<]. *)
Definition fmin (a b : float) : float := if (b <? a)%float then b else a.
Definition fmax (a b : float) : float := if (a <? b)%float then b else a.
Definition fclamp (v lo hi : float) : float :=
  if (v <? lo)%float then lo else if (hi <? v)%float then hi else v.

(** [a != b] on [double]. *)
Definition fneq (a b : float) : bool := negb (a =? b)%float.

(** Reading a component of a [Vector] ([std::array<double, D>]). *)
Definition at_f (v : list float) (d : Z) : float := nth (Z.to_nat d) v 0%float.

(** [*std::max_element(first, last)] and [*std::min_element(first, last)]
    of a non-empty range: the first largest, the first smallest element. *)
Definition max_element (l : list float) : float :=
  match l with
  | [] => 0%float
  | x :: l' => foldl (fun largest y => if (largest <? y)%float then y else largest) x l'
  end.

Definition min_element (l : list float) : float :=
  match l with
  | [] => 0%float
  | x :: l' => foldl (fun smallest y => if (y <? smallest)%float then y else smallest) x l'
  end.

Record Box := mkBox { Min : list float; Max : list float }.

(** ** The general adaptor ([AdaptorGeneralBase]) *)

Module AD.
Section Adaptor.

Variable DIMENSION_NO : Z.

Definition Distance2 (ptL ptR : list float) : float :=
  foldl (fun d2 dimensionID =>
           let d := (at_f ptL dimensionID - at_f ptR dimensionID)%float in
           (d2 + d * d)%float)
        0%float (seqZ 0 DIMENSION_NO).

Definition Distance (ptL ptR : list float) : float := PrimFloat.sqrt (Distance2 ptL ptR).

Definition DoesBoxContainPoint (box : Box) (point : list float) (tolerance : float) : bool :=
  if fneq tolerance 0 then
    forallb (fun dimensionID =>
               (at_f (Min box) dimensionID - tolerance <? at_f point dimensionID)%float
               && (at_f point dimensionID <? at_f (Max box) dimensionID + tolerance)%float)
            (seqZ 0 DIMENSION_NO)
  else
    forallb (fun dimensionID =>
               (at_f (Min box) dimensionID <=? at_f point dimensionID)%float
               && (at_f point dimensionID <=? at_f (Max box) dimensionID)%float)
            (seqZ 0 DIMENSION_NO).

Inductive EBoxRelation := Overlapped | Adjecent | Separated.

(** The loop of [GetBoxRelation]: [None] once a separating dimension is
    met, else the pair of candidate flags (overlapped, adjacent). *)
Definition GetBoxRelation_loop (e1 e2 : Box) : option (bool * bool) :=
  foldl (fun acc dimensionID =>
           rel ← acc;
           let min1 := at_f (Min e1) dimensionID in
           let max1 := at_f (Max e1) dimensionID in
           let min2 := at_f (Min e2) dimensionID in
           let max2 := at_f (Max e2) dimensionID in
           if (min1 <? max2)%float && (min2 <? max1)%float then Some (true, snd rel)
           else if (min1 =? max2)%float || (max1 =? min2)%float then Some (fst rel, true)
           else if (max2 <? min1)%float || (max1 <? min2)%float then None
           else Some rel)
        (Some (false, false)) (seqZ 0 DIMENSION_NO).

Definition GetBoxRelation (e1 e2 : Box) : EBoxRelation :=
  match GetBoxRelation_loop e1 e2 with
  | None => Separated
  | Some (_, adjacent) => if adjacent then Adjecent else Overlapped
  end.

Definition is_Overlapped (r : EBoxRelation) : bool :=
  match r with Overlapped => true | _ => false end.
Definition is_Adjecent (r : EBoxRelation) : bool :=
  match r with Adjecent => true | _ => false end.

Definition AreBoxesOverlappedStrict (e1 e2 : Box) : bool :=
  is_Overlapped (GetBoxRelation e1 e2).

Definition AreBoxesOverlapped (e1 e2 : Box) (e1_must_contain_e2 fOverlapPtTouchAllowed : bool)
  : bool :=
  if e1_must_contain_e2 then
    forallb (fun dimensionID =>
               let min1 := at_f (Min e1) dimensionID in
               let max1 := at_f (Max e1) dimensionID in
               let min2 := at_f (Min e2) dimensionID in
               let max2 := at_f (Max e2) dimensionID in
               negb ((min2 <? min1)%float || (max1 <? min2)%float)
               && negb ((max2 <? min1)%float || (max1 <? max2)%float))
            (seqZ 0 DIMENSION_NO)
  else
    let rel := GetBoxRelation e1 e2 in
    if fOverlapPtTouchAllowed then is_Adjecent rel || is_Overlapped rel
    else is_Overlapped rel.

(** One dimension of the loop of [GetRayBoxDistance]: [None] is the early
    [return std::nullopt], else the pair (entry distance, exit distance) stored
    in [minBoxDistances] and [maxBoxDistances]. *)
Definition RayBoxDistance_dim (box : Box) (rayBasePoint rayHeading : list float)
    (tolerance : float) (dimensionID : Z) : option (float * float) :=
  let dirComp := at_f rayHeading dimensionID in
  if (dirComp =? 0)%float then
    if fneq tolerance 0 then
      if (at_f (Max box) dimensionID + tolerance <=? at_f rayBasePoint dimensionID)%float
      then None
      else if (at_f rayBasePoint dimensionID <=? at_f (Min box) dimensionID - tolerance)%float
      then None
      else Some ((- float_max)%float, float_max)
    else
      if (at_f (Max box) dimensionID <? at_f rayBasePoint dimensionID)%float
      then None
      else if (at_f rayBasePoint dimensionID <? at_f (Min box) dimensionID)%float
      then None
      else Some ((- float_max)%float, float_max)
  else
    let minBox := (at_f (Min box) dimensionID - tolerance)%float in
    let maxBox := (at_f (Max box) dimensionID + tolerance)%float in
    let pointComp := at_f rayBasePoint dimensionID in
    let dirCompRecip := (1 / dirComp)%float in
    if (dirComp <? 0)%float then
      Some (((maxBox - pointComp) * dirCompRecip)%float,
            ((minBox - pointComp) * dirCompRecip)%float)
    else
      Some (((minBox - pointComp) * dirCompRecip)%float,
            ((maxBox - pointComp) * dirCompRecip)%float).

(** The loop over the dimensions, filling the two arrays. *)
Definition RayBoxDistance_loop (box : Box) (rayBasePoint rayHeading : list float)
    (tolerance : float) : option (list float * list float) :=
  foldl (fun acc dimensionID =>
           arrays ← acc;
           t ← RayBoxDistance_dim box rayBasePoint rayHeading tolerance dimensionID;
           Some (fst arrays ++ [fst t], snd arrays ++ [snd t]))
        (Some ([], [])) (seqZ 0 DIMENSION_NO).

Definition GetRayBoxDistance (box : Box) (rayBasePoint rayHeading : list float)
    (tolerance : float) : option float :=
  if DoesBoxContainPoint box rayBasePoint tolerance then Some 0%float
  else
    match RayBoxDistance_loop box rayBasePoint rayHeading tolerance with
    | None => None
    | Some (minBoxDistances, maxBoxDistances) =>
        let minBoxDistance := max_element minBoxDistances in
        let maxBoxDistance := min_element maxBoxDistances in
        if (maxBoxDistance <? minBoxDistance)%float || (maxBoxDistance <? 0)%float
        then None
        else Some (if (minBoxDistance <? 0)%float then maxBoxDistance else minBoxDistance)
    end.

End Adaptor.
End AD.

(** ** The internal geometry module ([InternalGeometryModule]) *)

Module IGM.
Section Geometry.

Variable DIMENSION_NO : Z.

Definition Size2 (vector : list float) : float :=
  foldl (fun d2 dimensionID =>
           (d2 + at_f vector dimensionID * at_f vector dimensionID)%float)
        0%float (seqZ 0 DIMENSION_NO).

Definition Size (vector : list float) : float := PrimFloat.sqrt (Size2 vector).

Definition GetBoxCenter (box : Box) : list float :=
  (fun dimensionID =>
     ((at_f (Min box) dimensionID + at_f (Max box) dimensionID) * 0.5)%float)
    <$> seqZ 0 DIMENSION_NO.

Definition GetBoxHalfSizeAD (box : Box) : list float :=
  (fun dimensionID =>
     ((at_f (Max box) dimensionID - at_f (Min box) dimensionID) * 0.5)%float)
    <$> seqZ 0 DIMENSION_NO.

Definition DoesRangeContainBox (rangeMin rangeMax boxMin boxMax : float) : bool :=
  if (boxMin <? rangeMin)%float || (rangeMax <? boxMin)%float then false
  else if (boxMax <? rangeMin)%float || (rangeMax <? boxMax)%float then false
  else true.

Definition DoesRangeContainBoxAD (range box : Box) : bool :=
  forallb (fun dimensionID =>
             DoesRangeContainBox (at_f (Min range) dimensionID) (at_f (Max range) dimensionID)
                                 (at_f (Min box) dimensionID) (at_f (Max box) dimensionID))
          (seqZ 0 DIMENSION_NO).

(** [BoxInvertedInit]. *)
Definition BoxInvertedInit : Box :=
  mkBox (replicate (Z.to_nat DIMENSION_NO) float_max)
        (replicate (Z.to_nat DIMENSION_NO) (- float_max)%float).

Definition GetBoxOfPointsAD (points : list (list float)) : Box :=
  foldl (fun ext point =>
           mkBox ((fun dimensionID =>
                     if (at_f point dimensionID <? at_f (Min ext) dimensionID)%float
                     then at_f point dimensionID else at_f (Min ext) dimensionID)
                    <$> seqZ 0 DIMENSION_NO)
                 ((fun dimensionID =>
                     if (at_f (Max ext) dimensionID <? at_f point dimensionID)%float
                     then at_f point dimensionID else at_f (Max ext) dimensionID)
                    <$> seqZ 0 DIMENSION_NO))
        BoxInvertedInit points.

Definition GetBoxOfBoxesAD (boxes : list Box) : Box :=
  foldl (fun ext box =>
           mkBox ((fun dimensionID =>
                     if (at_f (Min box) dimensionID <? at_f (Min ext) dimensionID)%float
                     then at_f (Min box) dimensionID else at_f (Min ext) dimensionID)
                    <$> seqZ 0 DIMENSION_NO)
                 ((fun dimensionID =>
                     if (at_f (Max ext) dimensionID <? at_f (Max box) dimensionID)%float
                     then at_f (Max box) dimensionID else at_f (Max ext) dimensionID)
                    <$> seqZ 0 DIMENSION_NO))
        BoxInvertedInit boxes.

(** [DoesBoxContainPointAD(Box, point, tolerance)]. *)
Definition DoesBoxContainPointAD (box : Box) (point : list float) (tolerance : float) : bool :=
  if fneq tolerance 0 then
    forallb (fun dimensionID =>
               (at_f (Min box) dimensionID - tolerance <? at_f point dimensionID)%float
               && (at_f point dimensionID <? at_f (Max box) dimensionID + tolerance)%float)
            (seqZ 0 DIMENSION_NO)
  else
    forallb (fun dimensionID =>
               (at_f (Min box) dimensionID <=? at_f point dimensionID)%float
               && (at_f point dimensionID <=? at_f (Max box) dimensionID)%float)
            (seqZ 0 DIMENSION_NO).

(** [DoesBoxContainPointAD(center, halfSizes, point, tolerance)]. *)
Definition DoesBoxContainPointAD_center (center halfSizes point : list float)
    (tolerance : float) : bool :=
  if fneq tolerance 0 then
    forallb (fun dimensionID =>
               let pointDistance := abs (at_f point dimensionID - at_f center dimensionID) in
               let halfSize := (at_f halfSizes dimensionID + tolerance)%float in
               negb (halfSize <=? pointDistance)%float)
            (seqZ 0 DIMENSION_NO)
  else
    forallb (fun dimensionID =>
               let pointDistance := abs (at_f point dimensionID - at_f center dimensionID) in
               negb (at_f halfSizes dimensionID <? pointDistance)%float)
            (seqZ 0 DIMENSION_NO).

Definition GetBoxWallDistanceAD (searchPoint centerPoint halfSize : list float)
    (isInsideConsideredAsZero : bool) : float :=
  let centerDistance :=
    (fun dimensionID => abs (at_f centerPoint dimensionID - at_f searchPoint dimensionID))
      <$> seqZ 0 DIMENSION_NO in
  let isInside :=
    forallb (fun dimensionID =>
               (at_f centerDistance dimensionID <=? at_f halfSize dimensionID)%float)
            (seqZ 0 DIMENSION_NO) in
  if isInside then
    if isInsideConsideredAsZero then 0%float
    else
      foldl (fun minWallDistance dimensionID =>
               let wallDistance :=
                 (at_f halfSize dimensionID - at_f centerDistance dimensionID)%float in
               if (wallDistance <? minWallDistance)%float then wallDistance
               else minWallDistance)
            (at_f halfSize 0) (seqZ 0 DIMENSION_NO)
  else
    Size ((fun dimensionID =>
             fmax 0 (at_f centerDistance dimensionID - at_f halfSize dimensionID))
            <$> seqZ 0 DIMENSION_NO).

(** One dimension of the loop of [GetRayBoxDistanceAD]. *)
Definition RayBoxDistanceAD_dim (center halfSizes rayBasePoint rayHeading : list float)
    (tolerance : float) (dimensionID : Z) : option (float * float) :=
  let dirComp := at_f rayHeading dimensionID in
  let minBox := (at_f center dimensionID - at_f halfSizes dimensionID - tolerance)%float in
  let maxBox := (at_f center dimensionID + at_f halfSizes dimensionID + tolerance)%float in
  if (dirComp =? 0)%float then
    if fneq tolerance 0 then
      if (maxBox <=? at_f rayBasePoint dimensionID)%float then None
      else if (at_f rayBasePoint dimensionID <=? minBox)%float then None
      else Some ((- float_max)%float, float_max)
    else
      if (maxBox <? at_f rayBasePoint dimensionID)%float then None
      else if (at_f rayBasePoint dimensionID <? minBox)%float then None
      else Some ((- float_max)%float, float_max)
  else
    let pointComp := at_f rayBasePoint dimensionID in
    let dirCompRecip := (1 / dirComp)%float in
    if (dirComp <? 0)%float then
      Some (((maxBox - pointComp) * dirCompRecip)%float,
            ((minBox - pointComp) * dirCompRecip)%float)
    else
      Some (((minBox - pointComp) * dirCompRecip)%float,
            ((maxBox - pointComp) * dirCompRecip)%float).

Definition RayBoxDistanceAD_loop (center halfSizes rayBasePoint rayHeading : list float)
    (tolerance : float) : option (list float * list float) :=
  foldl (fun acc dimensionID =>
           arrays ← acc;
           t ← RayBoxDistanceAD_dim center halfSizes rayBasePoint rayHeading tolerance
                 dimensionID;
           Some (fst arrays ++ [fst t], snd arrays ++ [snd t]))
        (Some ([], [])) (seqZ 0 DIMENSION_NO).

Definition GetRayBoxDistanceAD (center halfSizes rayBasePoint rayHeading : list float)
    (tolerance : float) : option float :=
  if DoesBoxContainPointAD_center center halfSizes rayBasePoint tolerance then Some 0%float
  else
    match RayBoxDistanceAD_loop center halfSizes rayBasePoint rayHeading tolerance with
    | None => None
    | Some (minBoxDistances, maxBoxDistances) =>
        let minBoxDistance := max_element minBoxDistances in
        let maxBoxDistance := min_element maxBoxDistances in
        if (maxBoxDistance <? minBoxDistance)%float || (maxBoxDistance <? 0)%float
        then None
        else Some (if (minBoxDistance <? 0)%float then maxBoxDistance else minBoxDistance)
    end.

(** [GetVolumeAD]. *)
Definition GetVolumeAD (range : Box) : float :=
  foldl (fun volume dimensionID =>
           (volume * (at_f (Max range) dimensionID - at_f (Min range) dimensionID))%float)
        1%float (seqZ 0 DIMENSION_NO).

(** [MoveAD] on a vector and on a box. *)
Definition MoveAD (v moveVector : list float) : list float :=
  (fun dimensionID => (at_f v dimensionID + at_f moveVector dimensionID)%float)
    <$> seqZ 0 DIMENSION_NO.

Definition MoveAD_box (box : Box) (moveVector : list float) : Box :=
  mkBox (MoveAD (Min box) moveVector) (MoveAD (Max box) moveVector).

End Geometry.
End IGM.

(** ** Grid space indexing ([GridSpaceIndexing]) *)

Record Grid := mkGrid {
  m_maxRasterResolution : Z;
  m_maxRasterID : Z;
  m_boxSpace : Box;
  m_volumeOfOverallSpace : float;
  m_rasterizerFactors : list float;
  m_sizeInDimensions : list float
}.

Module GridSI.
Section GridIndexing.

Variable DIMENSION_NO : Z.

(** The default-constructed grid. *)
Definition empty : Grid :=
  let zeros := replicate (Z.to_nat DIMENSION_NO) 0%float in
  mkGrid 0 0 (mkBox zeros zeros) 0 zeros zeros.

(** The constructor [GridSpaceIndexing(maxDepthID, boxSpace)]. *)
Definition make (maxDepthID : Z) (boxSpace : Box) : Grid :=
  let maxRasterResolution := wrap 32 (Z.shiftl 1 maxDepthID) in
  let subDivisionNoFactor := float_of_Z maxRasterResolution in
  let sizeInDimensions :=
    (fun dimensionID =>
       (at_f (Max boxSpace) dimensionID - at_f (Min boxSpace) dimensionID)%float)
      <$> seqZ 0 DIMENSION_NO in
  let rasterizerFactors :=
    (fun dimensionID =>
       let isFlat := (at_f sizeInDimensions dimensionID =? 0)%float in
       if isFlat then 1%float
       else (subDivisionNoFactor / at_f sizeInDimensions dimensionID)%float)
      <$> seqZ 0 DIMENSION_NO in
  mkGrid maxRasterResolution (wrap 32 (maxRasterResolution - 1)) boxSpace
         (IGM.GetVolumeAD DIMENSION_NO boxSpace) rasterizerFactors sizeInDimensions.

Definition Move (grid : Grid) (moveVector : list float) : Grid :=
  mkGrid (m_maxRasterResolution grid) (m_maxRasterID grid)
         (IGM.MoveAD_box DIMENSION_NO (m_boxSpace grid) moveVector)
         (m_volumeOfOverallSpace grid) (m_rasterizerFactors grid) (m_sizeInDimensions grid).

Definition CalculateGridCellCenter (grid : Grid) (gridID : list Z) (centerLevel : Z)
  : list float :=
  let halfGrid := (float_of_Z (wrap 64 (Z.shiftl 1 centerLevel)) * 0.5)%float in
  (fun dimensionID =>
     ((float_of_Z (at_dim gridID dimensionID) + halfGrid)
      / at_f (m_rasterizerFactors grid) dimensionID
      + at_f (Min (m_boxSpace grid)) dimensionID)%float)
    <$> seqZ 0 DIMENSION_NO.

Definition GetPointGridID (HANDLE_OUT_OF_TREE_GEOMETRY : bool) (grid : Grid)
    (point : list float) : list Z :=
  (fun dimensionID =>
     let pointComponent0 :=
       (at_f point dimensionID - at_f (Min (m_boxSpace grid)) dimensionID)%float in
     let pointComponent :=
       if HANDLE_OUT_OF_TREE_GEOMETRY && (pointComponent0 <? 0)%float
       then 0%float else pointComponent0 in
     let rasterID :=
       cast_GridID (pointComponent * at_f (m_rasterizerFactors grid) dimensionID) in
     Z.min (m_maxRasterID grid) rasterID)
    <$> seqZ 0 DIMENSION_NO.

Definition GetEdgePointGridID (grid : Grid) (point : list float) : list Z * list Z :=
  let maxRasterID := float_of_Z (wrap 32 (m_maxRasterResolution grid - 1)) in
  let per_dim dimensionID :=
    let rasterID :=
      fclamp ((at_f point dimensionID - at_f (Min (m_boxSpace grid)) dimensionID)
              * at_f (m_rasterizerFactors grid) dimensionID)
             0 maxRasterID in
    let g1 := cast_GridID rasterID in
    let g0 := if (0 <? g1) && (g1 <? m_maxRasterResolution grid)
              then wrap 32 (g1 - Z.b2z (is_whole rasterID)) else g1 in
    (g0, g1) in
  (fst ∘ per_dim <$> seqZ 0 DIMENSION_NO, snd ∘ per_dim <$> seqZ 0 DIMENSION_NO).

Definition GetBoxGridID (DO_POINT_LIKE_CLASSIFICATION : bool) (grid : Grid) (box : Box)
  : list Z * list Z :=
  let per_dim dimensionID :=
    let boxMin := at_f (Min box) dimensionID in
    let boxMax := at_f (Max box) dimensionID in
    let minComponentRasterID :=
      ((boxMin - at_f (Min (m_boxSpace grid)) dimensionID)
       * at_f (m_rasterizerFactors grid) dimensionID)%float in
    let maxComponentRasterID :=
      ((boxMax - at_f (Min (m_boxSpace grid)) dimensionID)
       * at_f (m_rasterizerFactors grid) dimensionID)%float in
    if DO_POINT_LIKE_CLASSIFICATION then
      (Z.min (m_maxRasterID grid) (cast_GridID minComponentRasterID),
       Z.min (m_maxRasterID grid) (cast_GridID maxComponentRasterID))
    else
      let maxRasterID := float_of_Z (m_maxRasterResolution grid) in
      let g0 := cast_GridID (fclamp minComponentRasterID 0 maxRasterID) in
      let g1 := cast_GridID (fclamp maxComponentRasterID 0 maxRasterID) in
      if (negb (g0 =? g1) && is_whole maxComponentRasterID)
         || (m_maxRasterResolution grid <=? g1)
      then (g0, wrap 32 (g1 - 1))
      else (g0, g1) in
  (fst ∘ per_dim <$> seqZ 0 DIMENSION_NO, snd ∘ per_dim <$> seqZ 0 DIMENSION_NO).

End GridIndexing.
End GridSI.

(** ** Nodes and the node store *)

Record Node := mkNode {
  m_entities : list Z;
  m_children : list Z;
  m_center : list float
}.

Module NodeOps.

Definition Clear (n : Node) : Node := mkNode [] [] (m_center n).

Definition IsEntitiesEmpty (n : Node) : bool :=
  match m_entities n with [] => true | _ => false end.

Definition ContainsEntity (n : Node) (entityID : Z) : bool :=
  existsb (Z.eqb entityID) (m_entities n).

Definition ReplaceEntities (n : Node) (entities : list Z) : Node :=
  mkNode entities (m_children n) (m_center n).

Definition AddEntity (n : Node) (entityID : Z) : Node :=
  mkNode (m_entities n ++ [entityID]) (m_children n) (m_center n).

(** [RemoveEntity]: [std::remove] takes out every occurrence; the result is
    [false] when there was none. *)
Definition RemoveEntity (n : Node) (entityID : Z) : bool * Node :=
  let kept := filter (fun id => id ≠ entityID) (m_entities n) in
  if Nat.eqb (length kept) (length (m_entities n)) then (false, n)
  else (true, mkNode kept (m_children n) (m_center n)).

Definition DecreaseEntityIDs (n : Node) (removedEntityID : Z) : Node :=
  mkNode ((fun id => id - Z.b2z (removedEntityID <? id)) <$> m_entities n)
         (m_children n) (m_center n).

Definition AddChild (n : Node) (childKey : Z) : Node :=
  mkNode (m_entities n) (m_children n ++ [childKey]) (m_center n).

(** [std::lower_bound] on the ascending child list: the index of the first
    key that is not below [childKey]. *)
Fixpoint lower_bound (children : list Z) (childKey : Z) : nat :=
  match children with
  | [] => O
  | c :: rest => if c <? childKey then S (lower_bound rest childKey) else O
  end.

Definition AddChildInOrder (n : Node) (childKey : Z) : Node :=
  let it := lower_bound (m_children n) childKey in
  match m_children n !! it with
  | Some c =>
      if c =? childKey then n
      else mkNode (m_entities n)
                  (take it (m_children n) ++ childKey :: drop it (m_children n))
                  (m_center n)
  | None =>
      mkNode (m_entities n)
             (take it (m_children n) ++ childKey :: drop it (m_children n))
             (m_center n)
  end.

(** [std::binary_search]. *)
Definition HasChild (n : Node) (childKey : Z) : bool :=
  match m_children n !! lower_bound (m_children n) childKey with
  | Some c => negb (childKey <? c)
  | None => false
  end.

(** [RemoveChild] erases the element at the lower bound, whatever it is. *)
Definition RemoveChild (n : Node) (childKey : Z) : Node :=
  let it := lower_bound (m_children n) childKey in
  match m_children n !! it with
  | Some _ => mkNode (m_entities n) (delete it (m_children n)) (m_center n)
  | None => n
  end.

Definition IsAnyChildExist (n : Node) : bool :=
  match m_children n with [] => false | _ => true end.

End NodeOps.

Record OrthoTree := mkTree {
  m_nodes : gmap Z Node;
  m_maxElementNo : Z;
  m_maxDepthID : Z;
  m_nodeSizes : list (list float);
  m_grid : Grid
}.

(** Updates of the node store inside a tree. *)
Definition set_nodes (t : OrthoTree) (nodes : gmap Z Node) : OrthoTree :=
  mkTree nodes (m_maxElementNo t) (m_maxDepthID t) (m_nodeSizes t) (m_grid t).

(** [m_nodes.emplace(key, node)]: an existing element is kept. *)
Definition emplace (nodes : gmap Z Node) (key : Z) (node : Node) : gmap Z Node :=
  match nodes !! key with
  | Some _ => nodes
  | None => <[key := node]> nodes
  end.

(** Applying a member function to the node stored under [key]; the node
    must be there. *)
Definition update_node (t : OrthoTree) (key : Z) (f : Node → Node) : option OrthoTree :=
  node ← m_nodes t !! key;
  Some (set_nodes t (<[key := f node]> (m_nodes t))).

(** ** The tree base ([OrthoTreeBase]) *)

(** An entity of the caller's collection: a point for [OrthoTreePoint], a
    bounding box for [OrthoTreeBoundingBox]. *)
Inductive TEntity :=
| PointEntity (point : list float)
| BoxEntity (box : Box).

(** [detail::at(geometryCollection, entityID)] on a contiguous container;
    an index outside the container ends the run. *)
Definition at_entity (geometryCollection : list TEntity) (entityID : Z) : option TEntity :=
  if entityID <? 0 then None else geometryCollection !! Z.to_nat entityID.

Module Base.
Section Tree.

Variable DIMENSION_NO : Z.

Definition GetNode (t : OrthoTree) (key : Z) : option Node := m_nodes t !! key.

Definition HasNode (t : OrthoTree) (key : Z) : bool :=
  match m_nodes t !! key with Some _ => true | None => false end.

(** [m_nodeSizes[depthID]].  After [InitBase] the vector holds
    [m_maxDepthID + 3] entries; reading past the end is undefined in C++ and
    gives the empty vector here. *)
Definition GetNodeSize (t : OrthoTree) (depthID : Z) : list float :=
  nth (Z.to_nat depthID) (m_nodeSizes t) [].

Definition GetNodeBox (t : OrthoTree) (depthID : Z) (center : list float) : Box :=
  let halfSize := GetNodeSize t (depthID + 1) in
  mkBox ((fun dimensionID => (at_f center dimensionID - at_f halfSize dimensionID)%float)
           <$> seqZ 0 DIMENSION_NO)
        ((fun dimensionID => (at_f center dimensionID + at_f halfSize dimensionID)%float)
           <$> seqZ 0 DIMENSION_NO).

Definition GetExaminationLevelID (t : OrthoTree) (depth : Z) : Z :=
  wrap 32 (m_maxDepthID t - depth).

(** [CreateChild]: a node without entities and children whose center is
    the parent's center moved by half a child size in every dimension. *)
Definition CreateChild (t : OrthoTree) (parentNode : Node) (childKey : Z) : option Node :=
  depthID ← SI.GetDepthID DIMENSION_NO childKey;
  let halfSizes := GetNodeSize t (depthID + 1) in
  let parentCenter := m_center parentNode in
  Some (mkNode [] []
          ((fun dimensionID =>
              let isGreater := SI.IsChildInGreaterSegment childKey dimensionID in
              let sign := if isGreater then 1%float else (-1)%float in
              (at_f parentCenter dimensionID + sign * at_f halfSizes dimensionID)%float)
             <$> seqZ 0 DIMENSION_NO)).

Definition GetLocationID (HANDLE_OUT_OF_TREE_GEOMETRY : bool) (t : OrthoTree)
    (point : list float) : option Z :=
  SI.Encode DIMENSION_NO
    (GridSI.GetPointGridID DIMENSION_NO HANDLE_OUT_OF_TREE_GEOMETRY (m_grid t) point).

Definition GetRangeLocationMetaData_point (HANDLE_OUT_OF_TREE_GEOMETRY : bool)
    (t : OrthoTree) (point : list float) : option SI.RangeLocationMetaData :=
  loc ← GetLocationID HANDLE_OUT_OF_TREE_GEOMETRY t point;
  Some (SI.mkRangeLocationMetaData (m_maxDepthID t) loc 0 0).

Definition GetRangeLocationMetaData_box (HANDLE_OUT_OF_TREE_GEOMETRY : bool)
    (t : OrthoTree) (box : Box) : option SI.RangeLocationMetaData :=
  SI.GetRangeLocationMetaData DIMENSION_NO (m_maxDepthID t)
    (GridSI.GetBoxGridID DIMENSION_NO HANDLE_OUT_OF_TREE_GEOMETRY (m_grid t) box).

(** [GetRangeLocationMetaData(entity)], resolved by the type of the entity. *)
Definition GetRangeLocationMetaData (t : OrthoTree) (entity : TEntity)
  : option SI.RangeLocationMetaData :=
  match entity with
  | PointEntity point => GetRangeLocationMetaData_point false t point
  | BoxEntity box => GetRangeLocationMetaData_box false t box
  end.

Definition GetNodeID_point (HANDLE_OUT_OF_TREE_GEOMETRY : bool) (t : OrthoTree)
    (searchPoint : list float) : option Z :=
  loc ← GetLocationID HANDLE_OUT_OF_TREE_GEOMETRY t searchPoint;
  Some (SI.GetHash DIMENSION_NO (m_maxDepthID t) loc).

Definition GetNodeID_box (HANDLE_OUT_OF_TREE_GEOMETRY : bool) (t : OrthoTree) (box : Box)
  : option Z :=
  location ← GetRangeLocationMetaData_box HANDLE_OUT_OF_TREE_GEOMETRY t box;
  Some (SI.GetHashAtDepth DIMENSION_NO location (m_maxDepthID t)).

(** The loop of [FindSmallestNodeKey]: walk up the parents of [searchKey]
    until a key of the node store is met; the key 0 when there is none.  A
    key loses at least one bit per step. *)
Fixpoint FindSmallestNodeKey_loop (fuel : nat) (t : OrthoTree) (searchKey : Z) : Z :=
  if SI.IsValidKey searchKey then
    if HasNode t searchKey then searchKey
    else match fuel with
         | O => 0
         | S fuel' => FindSmallestNodeKey_loop fuel' t (SI.GetParentKey DIMENSION_NO searchKey)
         end
  else 0.

Definition key_fuel (searchKey : Z) : nat := Z.to_nat (bit_width searchKey).

Definition FindSmallestNodeKey (t : OrthoTree) (searchKey : Z) : Z :=
  FindSmallestNodeKey_loop (key_fuel searchKey) t searchKey.

Fixpoint FindSmallestNodeKeyWithDepth_loop (fuel : nat) (t : OrthoTree)
    (searchKey depthID : Z) : Z * Z :=
  if SI.IsValidKey searchKey then
    if HasNode t searchKey then (searchKey, depthID)
    else match fuel with
         | O => (0, 0)
         | S fuel' =>
             FindSmallestNodeKeyWithDepth_loop fuel' t
               (SI.GetParentKey DIMENSION_NO searchKey) (wrap 32 (depthID - 1))
         end
  else (0, 0).

Definition FindSmallestNodeKeyWithDepth (t : OrthoTree) (searchKey : Z) : option (Z * Z) :=
  depthID ← SI.GetDepthID DIMENSION_NO searchKey;
  Some (FindSmallestNodeKeyWithDepth_loop (key_fuel searchKey) t searchKey depthID).

Definition FindSmallestNode_point (HANDLE_OUT_OF_TREE_GEOMETRY : bool) (t : OrthoTree)
    (searchPoint : list float) : option Z :=
  if negb HANDLE_OUT_OF_TREE_GEOMETRY
     && negb (IGM.DoesBoxContainPointAD DIMENSION_NO (m_boxSpace (m_grid t)) searchPoint 0)
  then Some 0
  else
    key ← GetNodeID_point HANDLE_OUT_OF_TREE_GEOMETRY t searchPoint;
    Some (FindSmallestNodeKey t key).

Definition FindSmallestNode_box (t : OrthoTree) (box : Box) : option Z :=
  if negb (IGM.DoesRangeContainBoxAD DIMENSION_NO (m_boxSpace (m_grid t)) box)
  then Some 0
  else
    key ← GetNodeID_box false t box;
    Some (FindSmallestNodeKey t key).

(** [InitBase]: the preconditions are [CRASH_IF]s. *)
Definition InitBase (t : OrthoTree) (boxSpace : Box) (maxDepthID maxElementNo : Z)
  : option OrthoTree :=
  if negb (bool_decide (m_nodes t = ∅)) then None
  else if maxDepthID <? 1 then None
  else if SI.MAX_THEORETICAL_DEPTH_ID DIMENSION_NO <? maxDepthID then None
  else if 255 <=? maxDepthID then None
  else if maxElementNo =? 0 then None
  else if 32 <? m_maxDepthID t then None
  else
    let grid := GridSI.make DIMENSION_NO maxDepthID boxSpace in
    let nodeRoot := mkNode [] [] (IGM.GetBoxCenter DIMENSION_NO boxSpace) in
    let examinedDepthSize := maxDepthID + 3 in
    (* m_nodeSizes.resize(examinedDepthSize, sizes) keeps what the vector held *)
    let resized :=
      take (Z.to_nat examinedDepthSize) (m_nodeSizes t)
      ++ replicate (Z.to_nat examinedDepthSize - length (m_nodeSizes t))
                   (m_sizeInDimensions grid) in
    let nodeSizes :=
      imap (fun depthID sizes =>
              match depthID with
              | O => sizes
              | S _ =>
                  let factor := Nat.iter (Nat.pred depthID) (fun f => (f * 0.5)%float) 0.5%float in
                  (fun s => (s * factor)%float) <$> sizes
              end)
           resized in
    Some (mkTree {[ SI.GetRootKey := nodeRoot ]} maxElementNo maxDepthID nodeSizes grid).

(** [Reset] and [Clear]. *)
Definition Reset (t : OrthoTree) : OrthoTree :=
  mkTree ∅ (m_maxElementNo t) (m_maxDepthID t) (m_nodeSizes t) (GridSI.empty DIMENSION_NO).

Definition Clear (t : OrthoTree) : option OrthoTree :=
  let nodes := filter (fun kv => fst kv = SI.GetRootKey) (m_nodes t) in
  update_node (set_nodes t nodes) SI.GetRootKey NodeOps.Clear.

(** [TraverseSplitChildren] collected into the list of segments
    ([GetSplitChildSegments]): every choice of the touched dimensions, added
    to the lower segment. *)
Definition popcount (x : Z) : Z :=
  Z.of_nat (length (filter (fun i => Z.testbit x i = true) (seqZ 0 (bit_width x)))).

Definition split_segment (location : SI.RangeLocationMetaData) (permutationID : Z) : Z :=
  let touched := SI.TouchedDimensionsFlag location in
  let '(segmentID, _) :=
    foldl (fun st i =>
             let '(segmentID, permutationMask) := st in
             let dimensionMask := Z.shiftl 1 i in
             if negb (Z.land touched dimensionMask =? 0) then
               (if negb (Z.land permutationID permutationMask =? 0)
                then Z.lor segmentID dimensionMask else segmentID,
                Z.shiftl permutationMask 1)
             else (segmentID, permutationMask))
          (0, 1) (seqZ 0 (bit_width touched)) in
  segmentID + SI.LowerSegmentID location.

Definition GetSplitChildSegments (location : SI.RangeLocationMetaData) : list Z :=
  let touchedDimensionNo := popcount (SI.TouchedDimensionsFlag location) in
  let permutationNo := Z.shiftl 1 touchedDimensionNo in
  split_segment location <$> seqZ 0 permutationNo.

(** Creating the child [childNodeKey] of [parentNodeKey] for one entity:
    [AddChildInOrder], [emplace], [AddEntity]. *)
Definition add_child_with_entity (t : OrthoTree) (parentNodeKey childNodeKey entityID : Z)
  : option OrthoTree :=
  t1 ← update_node t parentNodeKey (fun n => NodeOps.AddChildInOrder n childNodeKey);
  parentNode ← GetNode t1 parentNodeKey;
  child ← CreateChild t1 parentNode childNodeKey;
  let t2 := set_nodes t1 (emplace (m_nodes t1) childNodeKey child) in
  update_node t2 childNodeKey (fun n => NodeOps.AddEntity n entityID).

(** [InsertWithRebalancingSplitToChildren]; [rec] is the recursive call of
    [InsertWithRebalancingBase]. *)
Definition InsertWithRebalancingSplitToChildren
    (rec : OrthoTree → Z → Z → bool → SI.RangeLocationMetaData → Z → list TEntity
           → option (bool * OrthoTree))
    (t : OrthoTree) (parentNodeKey parentDepth : Z)
    (newEntityLocation : SI.RangeLocationMetaData) (newEntityID : Z)
    (geometryCollection : list TEntity) : option OrthoTree :=
  let childGenerator := SI.ChildKeyGenerator DIMENSION_NO parentNodeKey in
  foldl (fun acc childID =>
           t ← acc;
           let childNodeKey := SI.GetChildNodeKey childGenerator childID in
           parentNode ← GetNode t parentNodeKey;
           if NodeOps.HasChild parentNode childNodeKey then
             r ← rec t childNodeKey (wrap 32 (parentDepth + 1)) true newEntityLocation
                     newEntityID geometryCollection;
             Some (snd r)
           else add_child_with_entity t parentNodeKey childNodeKey newEntityID)
        (Some t) (GetSplitChildSegments newEntityLocation).

Inductive ControlFlow :=
| InsertInParentNode
| SplitToChildren
| ShouldCreateOnlyOneChild
| FullRebalancing.

(** [InsertWithRebalancingBase].  The recursion goes down the tree; [fuel]
    bounds its depth. *)
Fixpoint InsertWithRebalancingBase (fuel : nat) (t : OrthoTree)
    (parentNodeKey parentDepth : Z) (doSplit : bool)
    (newEntityLocation : SI.RangeLocationMetaData) (newEntityID : Z)
    (geometryCollection : list TEntity) : option (bool * OrthoTree) :=
  match fuel with
  | O => None
  | S fuel' =>
      let isEntitySplit :=
        doSplit && negb (SI.IsAllChildTouched DIMENSION_NO
                           (SI.TouchedDimensionsFlag newEntityLocation)) in
      let newEntityNodeKey :=
        SI.GetHashAtDepth DIMENSION_NO newEntityLocation (m_maxDepthID t) in
      let shouldInsertInParentNode :=
        (newEntityNodeKey =? parentNodeKey)
        || (isEntitySplit && (SI.DepthID newEntityLocation <? parentDepth)) in
      parentNode ← GetNode t parentNodeKey;
      let cf :=
        if parentDepth =? m_maxDepthID t then InsertInParentNode
        else if NodeOps.IsAnyChildExist parentNode && isEntitySplit
                && (SI.DepthID newEntityLocation =? parentDepth)
        then SplitToChildren
        else if NodeOps.IsAnyChildExist parentNode && negb shouldInsertInParentNode
        then ShouldCreateOnlyOneChild
        else if m_maxElementNo t <=? Z.of_nat (length (m_entities parentNode)) + 1
        then FullRebalancing
        else InsertInParentNode in
      match cf with
      | ShouldCreateOnlyOneChild =>
          let childGenerator := SI.ChildKeyGenerator DIMENSION_NO parentNodeKey in
          let childID :=
            SI.GetChildIDAtLevel DIMENSION_NO (SI.LocID newEntityLocation)
              (wrap 32 (m_maxDepthID t - parentDepth)) in
          let childNodeKey := SI.GetChildNodeKey childGenerator childID in
          t' ← add_child_with_entity t parentNodeKey childNodeKey newEntityID;
          Some (true, t')
      | FullRebalancing =>
          let childGenerator := SI.ChildKeyGenerator DIMENSION_NO parentNodeKey in
          t0 ← update_node t parentNodeKey (fun n => NodeOps.AddEntity n newEntityID);
          parentNode0 ← GetNode t0 parentNodeKey;
          r ← foldl (fun acc entityID =>
                       st ← acc;
                       let '(t1, parentEntities) := (st : OrthoTree * list Z) in
                       entity ← at_entity geometryCollection entityID;
                       entityLocation ← GetRangeLocationMetaData t1 entity;
                       let isLocationSplit :=
                         doSplit && negb (SI.IsAllChildTouched DIMENSION_NO
                                            (SI.TouchedDimensionsFlag entityLocation)) in
                       if wrap 32 (SI.DepthID entityLocation + Z.b2z isLocationSplit)
                          <=? parentDepth
                       then Some (t1, parentEntities ++ [entityID])
                       else if isLocationSplit && (SI.DepthID entityLocation =? parentDepth)
                       then
                         t2 ← InsertWithRebalancingSplitToChildren
                                (InsertWithRebalancingBase fuel')
                                t1 parentNodeKey parentDepth entityLocation entityID
                                geometryCollection;
                         Some (t2, parentEntities)
                       else
                         let childID :=
                           SI.GetChildIDAtLevel DIMENSION_NO (SI.LocID entityLocation)
                             (GetExaminationLevelID t1 parentDepth) in
                         let childNodeKey := SI.GetChildNodeKey childGenerator childID in
                         parentNode1 ← GetNode t1 parentNodeKey;
                         if NodeOps.HasChild parentNode1 childNodeKey then
                           let entityNodeKey :=
                             SI.GetHashAtDepth DIMENSION_NO entityLocation (m_maxDepthID t1) in
                           smallest ← FindSmallestNodeKeyWithDepth t1 entityNodeKey;
                           r' ← InsertWithRebalancingBase fuel' t1 (fst smallest) (snd smallest)
                                  doSplit entityLocation entityID geometryCollection;
                           Some (snd r', parentEntities)
                         else
                           t2 ← add_child_with_entity t1 parentNodeKey childNodeKey entityID;
                           Some (t2, parentEntities))
                    (Some (t0, [])) (m_entities parentNode0);
          t' ← update_node (fst r) parentNodeKey
                 (fun n => NodeOps.ReplaceEntities n (snd r));
          Some (true, t')
      | SplitToChildren =>
          t' ← InsertWithRebalancingSplitToChildren
                 (InsertWithRebalancingBase fuel')
                 t parentNodeKey parentDepth newEntityLocation newEntityID
                 geometryCollection;
          Some (true, t')
      | InsertInParentNode =>
          t' ← update_node t parentNodeKey (fun n => NodeOps.AddEntity n newEntityID);
          Some (true, t')
      end
  end.

(** The depth of the recursion is bounded by the depth of the tree. *)
Definition rebalancing_fuel (t : OrthoTree) : nat := S (S (Z.to_nat (m_maxDepthID t))).

(** The first loop of the leaf branch of [InsertWithoutRebalancingBase]:
    the keys between [entityNodeKey] and the first existing ancestor, deepest
    first ([nonExistingNodeStack], top last), and the key the walk stops
    at. *)
Fixpoint collect_missing_nodes (fuel : nat) (t : OrthoTree)
    (existingParentNodeKey parentNodeKey : Z) (stack : list Z) : option (list Z * Z) :=
  if parentNodeKey =? existingParentNodeKey then Some (stack, parentNodeKey)
  else if HasNode t parentNodeKey then Some (stack, parentNodeKey)
  else match fuel with
       | O => None
       | S fuel' =>
           collect_missing_nodes fuel' t existingParentNodeKey
             (SI.GetParentKey DIMENSION_NO parentNodeKey) (stack ++ [parentNodeKey])
       end.

(** The second loop: create the missing nodes from the top of the stack
    down; the result is the tree and the key of the last node created. *)
Definition create_missing_nodes (t : OrthoTree) (parentNodeKey : Z) (stack : list Z)
  : option (OrthoTree * Z) :=
  foldl (fun acc newParentNodeKey =>
           st ← acc;
           let '(t, parentKey) := (st : OrthoTree * Z) in
           t1 ← update_node t parentKey (fun n => NodeOps.AddChildInOrder n newParentNodeKey);
           parentNode ← GetNode t1 parentKey;
           child ← CreateChild t1 parentNode newParentNodeKey;
           Some (set_nodes t1 (emplace (m_nodes t1) newParentNodeKey child), newParentNodeKey))
        (Some (t, parentNodeKey)) (rev stack).

Definition InsertWithoutRebalancingBase (t : OrthoTree)
    (existingParentNodeKey entityNodeKey entityID : Z) (doInsertToLeaf : bool)
  : option (bool * OrthoTree) :=
  if entityNodeKey =? existingParentNodeKey then
    t' ← update_node t entityNodeKey (fun n => NodeOps.AddEntity n entityID);
    Some (true, t')
  else if doInsertToLeaf then
    walk ← collect_missing_nodes (key_fuel entityNodeKey) t existingParentNodeKey
              entityNodeKey [];
    _ ← GetNode t (snd walk);
    created ← create_missing_nodes t (snd walk) (fst walk);
    t' ← update_node (fst created) (snd created) (fun n => NodeOps.AddEntity n entityID);
    Some (true, t')
  else
    parentNode ← GetNode t existingParentNodeKey;
    if NodeOps.IsAnyChildExist parentNode then
      parentDepth ← SI.GetDepthID DIMENSION_NO existingParentNodeKey;
      entityDepth ← SI.GetDepthID DIMENSION_NO entityNodeKey;
      let childID := SI.GetChildIDByDepth DIMENSION_NO parentDepth entityDepth entityNodeKey in
      let childGenerator := SI.ChildKeyGenerator DIMENSION_NO existingParentNodeKey in
      let childNodeKey := SI.GetChildNodeKey childGenerator childID in
      t' ← add_child_with_entity t existingParentNodeKey childNodeKey entityID;
      Some (true, t')
    else
      t' ← update_node t existingParentNodeKey (fun n => NodeOps.AddEntity n entityID);
      Some (true, t').

(** [RemoveNodeIfPossible(nodeKey, node)]. *)
Definition RemoveNodeIfPossible (t : OrthoTree) (nodeKey : Z) (node : Node)
  : option OrthoTree :=
  if nodeKey =? SI.GetRootKey then Some t
  else if NodeOps.IsAnyChildExist node || negb (NodeOps.IsEntitiesEmpty node) then Some t
  else
    let parentKey := SI.GetParentKey DIMENSION_NO nodeKey in
    t1 ← update_node t parentKey (fun n => NodeOps.RemoveChild n nodeKey);
    Some (set_nodes t1 (delete nodeKey (m_nodes t1))).

Definition DecreaseEntityIDs_all (t : OrthoTree) (entityID : Z) : OrthoTree :=
  set_nodes t ((fun n => NodeOps.DecreaseEntityIDs n entityID) <$> m_nodes t).

(** [EraseEntityBase].  [iteration] is the sequence of keys in which the
    node container hands out its elements (unspecified for a hash map).  The
    state of the first loop is the tree, the keys to re-examine, whether an
    id was erased and whether the loop was left by [break]. *)
Definition EraseEntityBase (IS_ENTITY_IN_MULTIPLE_NODE DO_UPDATE_ENTITY_IDS : bool)
    (iteration : list Z) (t : OrthoTree) (entityID : Z) : option (bool * OrthoTree) :=
  st ← foldl (fun acc nodeKey =>
                st ← acc;
                let '(t, erasableNodes, isErased, stopped) :=
                  (st : OrthoTree * list Z * bool * bool) in
                if stopped then Some st
                else
                  node ← GetNode t nodeKey;
                  let removed := NodeOps.RemoveEntity node entityID in
                  if negb (fst removed) then Some st
                  else
                    let t1 := set_nodes t (<[nodeKey := snd removed]> (m_nodes t)) in
                    if IS_ENTITY_IN_MULTIPLE_NODE
                    then Some (t1, erasableNodes ++ [nodeKey], true, false)
                    else
                      t2 ← RemoveNodeIfPossible t1 nodeKey (snd removed);
                      Some (t2, erasableNodes, true, true))
             (Some (t, [], false, false)) iteration;
  let '(t1, erasableNodes, isErased, _) := (st : OrthoTree * list Z * bool * bool) in
  if negb isErased then Some (false, t1)
  else
    t2 ← (if IS_ENTITY_IN_MULTIPLE_NODE then
            foldl (fun acc nodeKey =>
                     t ← acc;
                     node ← GetNode t nodeKey;
                     RemoveNodeIfPossible t nodeKey node)
                  (Some t1) erasableNodes
          else Some t1);
    Some (true, if DO_UPDATE_ENTITY_IDS then DecreaseEntityIDs_all t2 entityID else t2).

End Tree.
End Base.

(** ** The point tree ([OrthoTreePoint]) *)

Module PointTree.
Section Point.

Variable DIMENSION_NO : Z.

Definition Init (t : OrthoTree) (box : Box) (maxDepthID maxElementNo : Z) : option OrthoTree :=
  Base.InitBase DIMENSION_NO t box maxDepthID maxElementNo.

Definition InsertWithRebalancing (t : OrthoTree) (newEntityID : Z) (newPoint : list float)
    (points : list (list float)) : option (bool * OrthoTree) :=
  if negb (IGM.DoesBoxContainPointAD DIMENSION_NO (m_boxSpace (m_grid t)) newPoint 0)
  then Some (false, t)
  else
    entityLocation ← Base.GetRangeLocationMetaData_point DIMENSION_NO false t newPoint;
    let entityNodeKey :=
      SI.GetHash DIMENSION_NO (m_maxDepthID t) (SI.LocID entityLocation) in
    smallest ← Base.FindSmallestNodeKeyWithDepth DIMENSION_NO t entityNodeKey;
    let '(parentNodeKey, parentDepthID) := (smallest : Z * Z) in
    if negb (SI.IsValidKey parentNodeKey) then Some (false, t)
    else
      Base.InsertWithRebalancingBase DIMENSION_NO (Base.rebalancing_fuel t) t
        parentNodeKey parentDepthID false entityLocation newEntityID
        (PointEntity <$> points).

Definition Insert (t : OrthoTree) (newEntityID : Z) (newPoint : list float)
    (doInsertToLeaf : bool) : option (bool * OrthoTree) :=
  if negb (IGM.DoesBoxContainPointAD DIMENSION_NO (m_boxSpace (m_grid t)) newPoint 0)
  then Some (false, t)
  else
    entityNodeKey ← Base.GetNodeID_point DIMENSION_NO false t newPoint;
    let smallestNodeKey := Base.FindSmallestNodeKey DIMENSION_NO t entityNodeKey in
    if negb (SI.IsValidKey smallestNodeKey) then Some (false, t)
    else
      Base.InsertWithoutRebalancingBase DIMENSION_NO t smallestNodeKey entityNodeKey
        newEntityID doInsertToLeaf.

Definition EraseEntity (DO_UPDATE_ENTITY_IDS : bool) (iteration : list Z) (t : OrthoTree)
    (entityID : Z) : option (bool * OrthoTree) :=
  Base.EraseEntityBase DIMENSION_NO false DO_UPDATE_ENTITY_IDS iteration t entityID.

Definition Erase (DO_UPDATE_ENTITY_IDS : bool) (t : OrthoTree) (entitiyID : Z)
    (entityOriginalPoint : list float) : option (bool * OrthoTree) :=
  nodeKey ← Base.FindSmallestNode_point DIMENSION_NO false t entityOriginalPoint;
  if negb (SI.IsValidKey nodeKey) then Some (false, t)
  else
    entityNode ← Base.GetNode t nodeKey;
    let removed := NodeOps.RemoveEntity entityNode entitiyID in
    if negb (fst removed) then Some (false, t)
    else
      let t1 := set_nodes t (<[nodeKey := snd removed]> (m_nodes t)) in
      let t2 := if DO_UPDATE_ENTITY_IDS then Base.DecreaseEntityIDs_all t1 entitiyID else t1 in
      entityNode2 ← Base.GetNode t2 nodeKey;
      t3 ← Base.RemoveNodeIfPossible DIMENSION_NO t2 nodeKey entityNode2;
      Some (true, t3).

(** The four overloads of [Update]. *)
Definition Update_id (iteration : list Z) (t : OrthoTree) (entityID : Z)
    (newPoint : list float) (doesInsertToLeaf : bool) : option (bool * OrthoTree) :=
  if negb (IGM.DoesBoxContainPointAD DIMENSION_NO (m_boxSpace (m_grid t)) newPoint 0)
  then Some (false, t)
  else
    erased ← EraseEntity false iteration t entityID;
    if negb (fst erased) then Some (false, snd erased)
    else Insert (snd erased) entityID newPoint doesInsertToLeaf.

Definition Update_old (t : OrthoTree) (entityID : Z) (oldPoint newPoint : list float)
    (doesInsertToLeaf : bool) : option (bool * OrthoTree) :=
  if negb (IGM.DoesBoxContainPointAD DIMENSION_NO (m_boxSpace (m_grid t)) newPoint 0)
  then Some (false, t)
  else
    erased ← Erase false t entityID oldPoint;
    if negb (fst erased) then Some (false, snd erased)
    else Insert (snd erased) entityID newPoint doesInsertToLeaf.

Definition Update_id_rebalancing (iteration : list Z) (t : OrthoTree) (entityID : Z)
    (newPoint : list float) (points : list (list float)) : option (bool * OrthoTree) :=
  if negb (IGM.DoesBoxContainPointAD DIMENSION_NO (m_boxSpace (m_grid t)) newPoint 0)
  then Some (false, t)
  else
    erased ← EraseEntity false iteration t entityID;
    if negb (fst erased) then Some (false, snd erased)
    else InsertWithRebalancing (snd erased) entityID newPoint points.

Definition Update_old_rebalancing (t : OrthoTree) (entityID : Z)
    (oldPoint newPoint : list float) (points : list (list float))
  : option (bool * OrthoTree) :=
  if negb (IGM.DoesBoxContainPointAD DIMENSION_NO (m_boxSpace (m_grid t)) newPoint 0)
  then Some (false, t)
  else
    erased ← Erase false t entityID oldPoint;
    if negb (fst erased) then Some (false, snd erased)
    else InsertWithRebalancing (snd erased) entityID newPoint points.

End Point.
End PointTree.

(** ** The bounding-box tree ([OrthoTreeBoundingBox]) *)

Module BoxTree.
Section BoundingBox.

Variable DIMENSION_NO : Z.
Variable DO_SPLIT_PARENT_ENTITIES : bool.

Definition Init (t : OrthoTree) (box : Box) (maxDepthID maxElementNo : Z) : option OrthoTree :=
  Base.InitBase DIMENSION_NO t box maxDepthID maxElementNo.

Definition InsertWithRebalancing (t : OrthoTree) (newEntityID : Z) (newBox : Box)
    (boxes : list Box) : option (bool * OrthoTree) :=
  if negb (IGM.DoesRangeContainBoxAD DIMENSION_NO (m_boxSpace (m_grid t)) newBox)
  then Some (false, t)
  else
    entityLocation ← Base.GetRangeLocationMetaData_box DIMENSION_NO false t newBox;
    let entityNodeKey := SI.GetHashAtDepth DIMENSION_NO entityLocation (m_maxDepthID t) in
    let parentNodeKey := Base.FindSmallestNodeKey DIMENSION_NO t entityNodeKey in
    parentDepth ← SI.GetDepthID DIMENSION_NO parentNodeKey;
    Base.InsertWithRebalancingBase DIMENSION_NO (Base.rebalancing_fuel t) t
      parentNodeKey parentDepth DO_SPLIT_PARENT_ENTITIES entityLocation newEntityID
      (BoxEntity <$> boxes).

Definition Insert (t : OrthoTree) (newEntityID : Z) (newBox : Box) (doInsertToLeaf : bool)
  : option (bool * OrthoTree) :=
  if negb (IGM.DoesRangeContainBoxAD DIMENSION_NO (m_boxSpace (m_grid t)) newBox)
  then Some (false, t)
  else
    location ← Base.GetRangeLocationMetaData_box DIMENSION_NO false t newBox;
    let entityNodeKey := SI.GetHashAtDepth DIMENSION_NO location (m_maxDepthID t) in
    let smallestNodeKey := Base.FindSmallestNodeKey DIMENSION_NO t entityNodeKey in
    if negb (SI.IsValidKey smallestNodeKey) then Some (false, t)
    else
      let shoudlCreateChildrenOnly :=
        negb (SI.DepthID location =? m_maxDepthID t) && doInsertToLeaf
        && DO_SPLIT_PARENT_ENTITIES in
      if shoudlCreateChildrenOnly then
        let childKeyGenerator := SI.ChildKeyGenerator DIMENSION_NO entityNodeKey in
        foldl (fun (acc : option (bool * OrthoTree)) childID =>
                 st ← acc;
                 if negb (fst st) then Some st
                 else
                   Base.InsertWithoutRebalancingBase DIMENSION_NO (snd st) smallestNodeKey
                     (SI.GetChildNodeKey childKeyGenerator childID) newEntityID doInsertToLeaf)
              (Some (true, t)) (Base.GetSplitChildSegments location)
      else
        Base.InsertWithoutRebalancingBase DIMENSION_NO t smallestNodeKey entityNodeKey
          newEntityID doInsertToLeaf.

(** [DoEraseRec<REMAINING_DEPTH>]. *)
Fixpoint DoEraseRec (REMAINING_DEPTH : nat) (t : OrthoTree) (nodeKey entityID : Z)
  : option (bool * OrthoTree) :=
  node ← Base.GetNode t nodeKey;
  let removed := NodeOps.RemoveEntity node entityID in
  let t1 := set_nodes t (<[nodeKey := snd removed]> (m_nodes t)) in
  r ← match REMAINING_DEPTH with
      | O => Some (fst removed, t1)
      | S remaining =>
          foldl (fun (acc : option (bool * OrthoTree)) childKey =>
                   st ← acc;
                   r ← DoEraseRec remaining (snd st) childKey entityID;
                   Some (fst st || fst r, snd r))
                (Some (fst removed, t1)) (m_children (snd removed))
      end;
  node' ← Base.GetNode (snd r) nodeKey;
  t2 ← Base.RemoveNodeIfPossible DIMENSION_NO (snd r) nodeKey node';
  Some (fst r, t2).

Definition Erase (DO_UPDATE_ENTITY_IDS : bool) (t : OrthoTree) (entityIDToErase : Z)
    (box : Box) : option (bool * OrthoTree) :=
  smallestNodeKey ← Base.FindSmallestNode_box DIMENSION_NO t box;
  if negb (SI.IsValidKey smallestNodeKey) then Some (false, t)
  else
    r ← DoEraseRec (if DO_SPLIT_PARENT_ENTITIES then 1%nat else 0%nat) t smallestNodeKey
          entityIDToErase;
    if (fst r : bool) then
      Some (true, if DO_UPDATE_ENTITY_IDS
                  then Base.DecreaseEntityIDs_all (snd r) entityIDToErase else snd r)
    else Some (false, snd r).

(** [EraseEntity]: the template argument [DO_UPDATE_ENTITY_IDS] is not
    passed on. *)
Definition EraseEntity (DO_UPDATE_ENTITY_IDS : bool) (iteration : list Z) (t : OrthoTree)
    (entityID : Z) : option (bool * OrthoTree) :=
  Base.EraseEntityBase DIMENSION_NO DO_SPLIT_PARENT_ENTITIES false iteration t entityID.

Definition Update_id (iteration : list Z) (t : OrthoTree) (entityID : Z) (boxNew : Box)
    (doInsertToLeaf : bool) : option (bool * OrthoTree) :=
  if negb (IGM.DoesRangeContainBoxAD DIMENSION_NO (m_boxSpace (m_grid t)) boxNew)
  then Some (false, t)
  else
    erased ← EraseEntity false iteration t entityID;
    if negb (fst erased) then Some (false, snd erased)
    else Insert (snd erased) entityID boxNew doInsertToLeaf.

Definition same_smallest_node (t : OrthoTree) (oldBox newBox : Box) : option bool :=
  keyOld ← Base.FindSmallestNode_box DIMENSION_NO t oldBox;
  keyNew ← Base.FindSmallestNode_box DIMENSION_NO t newBox;
  Some (keyOld =? keyNew).

Definition Update_old (t : OrthoTree) (entityID : Z) (oldBox newBox : Box)
    (doInsertToLeaf : bool) : option (bool * OrthoTree) :=
  if negb (IGM.DoesRangeContainBoxAD DIMENSION_NO (m_boxSpace (m_grid t)) newBox)
  then Some (false, t)
  else
    same ← (if negb DO_SPLIT_PARENT_ENTITIES then same_smallest_node t oldBox newBox
            else Some false);
    if (same : bool) then Some (true, t)
    else
      erased ← Erase false t entityID oldBox;
      if negb (fst erased) then Some (false, snd erased)
      else Insert (snd erased) entityID newBox doInsertToLeaf.

Definition Update_id_rebalancing (iteration : list Z) (t : OrthoTree) (entityID : Z)
    (boxNew : Box) (boxes : list Box) : option (bool * OrthoTree) :=
  if negb (IGM.DoesRangeContainBoxAD DIMENSION_NO (m_boxSpace (m_grid t)) boxNew)
  then Some (false, t)
  else
    erased ← EraseEntity false iteration t entityID;
    if negb (fst erased) then Some (false, snd erased)
    else InsertWithRebalancing (snd erased) entityID boxNew boxes.

Definition Update_old_rebalancing (t : OrthoTree) (entityID : Z) (oldBox newBox : Box)
    (boxes : list Box) : option (bool * OrthoTree) :=
  if negb (IGM.DoesRangeContainBoxAD DIMENSION_NO (m_boxSpace (m_grid t)) newBox)
  then Some (false, t)
  else
    same ← (if negb DO_SPLIT_PARENT_ENTITIES then same_smallest_node t oldBox newBox
            else Some false);
    if (same : bool) then Some (true, t)
    else
      erased ← Erase false t entityID oldBox;
      if negb (fst erased) then Some (false, snd erased)
      else InsertWithRebalancing (snd erased) entityID newBox boxes.

End BoundingBox.
End BoxTree.

(** * Facts about loops and bits *)

(** Invariant rule for a [for] loop written as [foldl] over [seqZ]. *)
Lemma foldl_seqZ_inv {A} (P : Z → A → Prop) (f : A → Z → A) (a : A) (m n : Z) :
  0 ≤ n →
  P m a →
  (∀ i x, m ≤ i < m + n → P i x → P (i + 1) (f x i)) →
  P (m + n) (foldl f a (seqZ m n)).
Proof.
  intros Hn. revert a m.
  pattern n. apply natlike_ind; [| |exact Hn].
  - intros a m Ha _. rewrite seqZ_nil by lia. simpl. by rewrite Z.add_0_r.
  - clear n Hn. intros n Hn IH a m Ha Hstep.
    rewrite seqZ_cons by lia. simpl.
    replace (Z.pred (Z.succ n)) with n by lia.
    replace (m + Z.succ n) with (Z.succ m + n) by lia.
    apply IH.
    + replace (Z.succ m) with (m + 1) by lia. apply Hstep; [lia|done].
    + intros i x Hi. apply Hstep. lia.
Qed.

Lemma land_pow2_bit (x i : Z) :
  0 ≤ i → Z.land x (2 ^ i) = if Z.testbit x i then 2 ^ i else 0.
Proof.
  intros Hi. apply Z.bits_inj'. intros n Hn.
  rewrite Z.land_spec, Z.pow2_bits_eqb by done.
  destruct (Z.eqb_spec i n) as [->|Hne].
  - destruct (Z.testbit x n) eqn:E; simpl.
    + by rewrite Z.pow2_bits_eqb, Z.eqb_refl.
    + by rewrite Z.bits_0.
  - rewrite andb_false_r. destruct (Z.testbit x i).
    + rewrite Z.pow2_bits_eqb by done. symmetry. by apply Z.eqb_neq.
    + by rewrite Z.bits_0.
Qed.

Lemma land_one (x : Z) : Z.land x 1 = if Z.testbit x 0 then 1 else 0.
Proof. apply (land_pow2_bit x 0). lia. Qed.

Lemma wrap_0 (w : Z) : wrap w 0 = 0.
Proof. unfold wrap. apply Zmod_0_l. Qed.

Lemma wrap_small (w x : Z) : 0 ≤ x < 2 ^ w → wrap w x = x.
Proof. intros. unfold wrap. by apply Z.mod_small. Qed.

Lemma wrap_range (w x : Z) : 0 ≤ w → 0 ≤ wrap w x < 2 ^ w.
Proof. intros. unfold wrap. apply Z.mod_pos_bound. by apply Z.pow_pos_nonneg. Qed.

Lemma testbit_false_above (x k n : Z) :
  0 ≤ k → 0 ≤ x < 2 ^ k → k ≤ n → Z.testbit x n = false.
Proof.
  intros Hk [Hx0 Hx] Hn.
  destruct (Z.eq_dec x 0) as [->|Hx1]; [apply Z.bits_0|].
  apply Z.bits_above_log2; [done|].
  assert (Z.log2 x < k) by (apply Z.log2_lt_pow2; lia). lia.
Qed.

Lemma bits_bound (x k : Z) :
  0 ≤ k → 0 ≤ x → (∀ n, k ≤ n → Z.testbit x n = false) → x < 2 ^ k.
Proof.
  intros Hk Hx Hb.
  destruct (Z.eq_dec x 0) as [->|Hx1]; [by apply Z.pow_pos_nonneg|].
  apply Z.log2_lt_pow2; [lia|].
  destruct (Z_lt_le_dec (Z.log2 x) k) as [|Hge]; [done|].
  specialize (Hb _ Hge). rewrite Z.bit_log2 in Hb by lia. done.
Qed.

Lemma shiftr_small (x k i : Z) : 0 ≤ k → 0 ≤ x < 2 ^ k → k ≤ i → Z.shiftr x i = 0.
Proof.
  intros Hk Hx Hi. rewrite Z.shiftr_div_pow2 by lia. apply Z.div_small.
  assert (2 ^ k ≤ 2 ^ i) by (apply Z.pow_le_mono_r; lia). lia.
Qed.

Lemma lor_nonneg (a b : Z) : 0 ≤ a → 0 ≤ b → 0 ≤ Z.lor a b.
Proof. intros. by apply Z.lor_nonneg. Qed.

(** * Morton encoding: the bits of [Encode] *)

Module SIFacts.
Import SI.

(** A grid-id tuple of a tree of depth [maxDepthID]: one id per dimension,
    each below the resolution [2 ^ maxDepthID]. *)
Definition valid_grid (D maxDepthID : Z) (g : list Z) : Prop :=
  length g = Z.to_nat D ∧ ∀ d, 0 ≤ d < D → 0 ≤ at_dim g d < 2 ^ maxDepthID.

(** [loc] is the bit interleaving of [g]: bit [i] of dimension [d] sits at
    position [i * D + d]. *)
Definition interleaved (D : Z) (g : list Z) (loc : Z) : Prop :=
  0 ≤ loc ∧ ∀ n, 0 ≤ n → Z.testbit loc n = Z.testbit (at_dim g (n mod D)) (n / D).

Section MortonFacts.

Variable D : Z.
Hypothesis HD : 1 ≤ D ≤ 63.

Lemma LOCATION_BITS_pos : 0 < LOCATION_BITS D.
Proof.
  unfold LOCATION_BITS, IS_64BIT_LOCATION, IS_32BIT_LOCATION, MAX_NONLINEAR_DEPTH_ID.
  destruct (D <? 4); cbn [negb andb orb]; [lia|]. destruct (D <? 15); lia.
Qed.

Lemma max_depth_bits : MAX_THEORETICAL_DEPTH_ID D * D ≤ LOCATION_BITS D - 1.
Proof.
  unfold MAX_THEORETICAL_DEPTH_ID, IS_LINEAR_TREE, LOCATION_BITS,
    IS_64BIT_LOCATION, IS_32BIT_LOCATION, MAX_NONLINEAR_DEPTH_ID.
  destruct (D <? 4) eqn:E4; cbn [negb andb orb].
  - rewrite Z.mul_comm. apply Z.mul_div_le. lia.
  - destruct (D <? 15) eqn:E15; cbn [negb andb orb].
    + rewrite Z.mul_comm. apply Z.mul_div_le. lia.
    + lia.
Qed.

Lemma max_depth_nonneg : 0 ≤ MAX_THEORETICAL_DEPTH_ID D.
Proof.
  unfold MAX_THEORETICAL_DEPTH_ID, MAX_NONLINEAR_DEPTH_ID.
  destruct (IS_LINEAR_TREE D); [|lia].
  apply Z.div_pos; [|lia]. pose proof LOCATION_BITS_pos. lia.
Qed.

Lemma max_depth_le_grid : MAX_THEORETICAL_DEPTH_ID D ≤ 31.
Proof.
  pose proof max_depth_bits as H. pose proof max_depth_nonneg as H0.
  unfold MAX_THEORETICAL_DEPTH_ID in *.
  unfold IS_LINEAR_TREE, LOCATION_BITS,
    IS_64BIT_LOCATION, IS_32BIT_LOCATION, MAX_NONLINEAR_DEPTH_ID in *.
  destruct (D <? 4) eqn:E4; cbn [negb andb orb] in *.
  - apply Z.div_le_upper_bound; lia.
  - destruct (D <? 15) eqn:E15; cbn [negb andb orb] in *; [|lia].
    apply Z.div_le_upper_bound; lia.
Qed.

(** Position [i * D + d] decomposes back into level [i] and dimension [d]. *)
Lemma pos_div (i d : Z) : 0 ≤ d < D → (i * D + d) / D = i.
Proof.
  intros. rewrite Z.add_comm, Z.div_add by lia. rewrite Z.div_small by lia. lia.
Qed.

Lemma pos_mod (i d : Z) : 0 ≤ d < D → (i * D + d) mod D = d.
Proof.
  intros. rewrite Z.add_comm, Z.mod_add by lia. by apply Z.mod_small.
Qed.

Section Loop.

Variable maxDepthID : Z.
Variable g : list Z.
Hypothesis Hdepth : 0 ≤ maxDepthID ≤ MAX_THEORETICAL_DEPTH_ID D.
Hypothesis Hg : valid_grid D maxDepthID g.

(** The state of the encoding loops after every position below [limit] has
    been written. *)
Definition encoded_below (limit : Z) (o : option Z) : Prop :=
  ∃ loc, o = Some loc ∧ 0 ≤ loc ∧
    ∀ n, 0 ≤ n →
      Z.testbit loc n = (n <? limit) && Z.testbit (at_dim g (n mod D)) (n / D).

Lemma Encode_dims_spec (i loc : Z) :
  0 ≤ i < maxDepthID →
  encoded_below (i * D) (Some loc) →
  encoded_below ((i + 1) * D) (Encode_dims D g i (2 ^ i) loc).
Proof.
  intros Hi Hinv. unfold Encode_dims.
  replace ((i + 1) * D) with (i * D + D) by lia.
  apply (foldl_seqZ_inv (λ (d : Z) (o : option Z), encoded_below (i * D + d) o)
           _ (Some loc) 0 D); [lia| |].
  { by rewrite Z.add_0_r. }
  intros d o Hd (l & -> & Hl0 & Hl). simpl.
  pose proof max_depth_bits as HW.
  assert (Hpos : 0 ≤ i * D + d < LOCATION_BITS D - 1) by nia.
  rewrite land_pow2_bit by lia.
  set (p := i * D + d) in *.
  assert (Hbits : ∀ (v : bool) (n : Z), 0 ≤ n →
             Z.testbit (Z.lor l (if v then 2 ^ p else 0)) n =
             (n <? p + 1) && (if n =? p then v else Z.testbit (at_dim g (n mod D)) (n / D))).
  { intros v n Hn. rewrite Z.lor_spec, Hl by done.
    destruct (Z.eqb_spec n p) as [->|Hne].
    - rewrite Z.ltb_irrefl. simpl.
      replace (p <? p + 1) with true by (symmetry; apply Z.ltb_lt; lia).
      destruct v; [by rewrite Z.pow2_bits_eqb, Z.eqb_refl by lia|by rewrite Z.bits_0].
    - replace (Z.testbit (if v then 2 ^ p else 0) n) with false.
      2:{ destruct v; [|by rewrite Z.bits_0]. rewrite Z.pow2_bits_eqb by lia.
          symmetry. apply Z.eqb_neq. lia. }
      rewrite orb_false_r.
      destruct (Z.ltb_spec n p), (Z.ltb_spec n (p + 1)); try lia; done. }
  assert (Hfin : ∀ n : Z, 0 ≤ n →
     (n <? p + 1) && (if n =? p then Z.testbit (at_dim g d) i
                      else Z.testbit (at_dim g (n mod D)) (n / D))
     = (n <? p + 1) && Z.testbit (at_dim g (n mod D)) (n / D)).
  { intros n Hn. destruct (Z.eqb_spec n p) as [->|]; [|done].
    unfold p. by rewrite pos_div, pos_mod by lia. }
  destruct (IS_LINEAR_TREE D) eqn:Elin.
  - eexists; split; [done|].
    assert (Hsh : shlL D (if Z.testbit (at_dim g d) i then 2 ^ i else 0) (d + i * D - i)
                  = if Z.testbit (at_dim g d) i then 2 ^ p else 0).
    { unfold shlL, shl. destruct (Z.testbit (at_dim g d) i).
      - rewrite Z.shiftl_mul_pow2 by nia. rewrite <- Z.pow_add_r by nia.
        replace (i + (d + i * D - i)) with p by (unfold p; lia).
        apply wrap_small. split; [apply Z.pow_nonneg; lia|].
        apply Z.pow_lt_mono_r; lia.
      - rewrite Z.shiftl_0_l. apply wrap_small. split; [lia|].
        apply Z.pow_pos_nonneg; lia. }
    rewrite Hsh. split.
    + apply lor_nonneg; [done|]. destruct (Z.testbit _ _); [apply Z.pow_nonneg|]; lia.
    + intros n Hn. rewrite Hbits, Hfin by done.
      by replace (i * D + (d + 1)) with (p + 1) by (unfold p; lia).
  - unfold bitset_set. replace (d + i * D) with p by (unfold p; lia).
    replace (p <? LOCATION_BITS D) with true by (symmetry; apply Z.ltb_lt; lia).
    assert (Hclear : Z.clearbit l p = l).
    { apply Z.bits_inj'. intros n Hn. rewrite Z.clearbit_eqb.
      destruct (Z.eqb_spec p n) as [<-|]; simpl; [|by rewrite andb_true_r].
      rewrite Hl by lia. rewrite Z.ltb_irrefl. done. }
    assert (Hset : Z.setbit l p = Z.lor l (2 ^ p)).
    { unfold Z.setbit. by rewrite Z.shiftl_1_l. }
    eexists; split; [done|].
    replace (i * D + (d + 1)) with (p + 1) by (unfold p; lia).
    destruct (Z.testbit (at_dim g d) i) eqn:Eb.
    + replace (negb (2 ^ i =? 0)) with true.
      2:{ symmetry. apply negb_true_iff, Z.eqb_neq.
          pose proof (Z.pow_pos_nonneg 2 i). lia. }
      rewrite Hset. split.
      * apply lor_nonneg; [done|]. apply Z.pow_nonneg; lia.
      * intros n Hn. rewrite <- Hfin by done.
        by rewrite <- (Hbits true n Hn).
    + simpl. rewrite Hclear. split; [done|].
      intros n Hn. rewrite <- Hfin by done.
      rewrite <- (Hbits false n Hn). by rewrite Z.lor_0_r.
Qed.


(** The accumulated [msb] of the general branch: the bitwise or of all ids. *)
Definition msb_of : Z :=
  foldl (λ m dimensionID, Z.lor m (at_dim g dimensionID)) (at_dim g 0) (seqZ 1 (D - 1)).

Lemma lor_below (a b k : Z) :
  0 ≤ k → 0 ≤ a < 2 ^ k → 0 ≤ b < 2 ^ k → 0 ≤ Z.lor a b < 2 ^ k.
Proof.
  intros Hk Ha Hb. split; [apply lor_nonneg; lia|].
  apply bits_bound; [done|apply lor_nonneg; lia|].
  intros n Hn. rewrite Z.lor_spec.
  by rewrite (testbit_false_above a k n), (testbit_false_above b k n).
Qed.

Lemma msb_of_spec :
  0 ≤ msb_of < 2 ^ maxDepthID ∧
  ∀ d k, 0 ≤ d < D → 0 ≤ k → Z.testbit (at_dim g d) k = true → Z.testbit msb_of k = true.
Proof.
  destruct Hg as [_ Hr]. unfold msb_of.
  pose proof (foldl_seqZ_inv
           (λ (e m : Z), 0 ≤ m < 2 ^ maxDepthID ∧
              ∀ d k, 0 ≤ d < e → 0 ≤ k →
                     Z.testbit (at_dim g d) k = true → Z.testbit m k = true)
           (λ m dimensionID, Z.lor m (at_dim g dimensionID)) (at_dim g 0) 1 (D - 1))
    as Hloop.
  replace (1 + (D - 1)) with D in Hloop by lia.
  apply Hloop; clear Hloop.
  - lia.
  - split; [apply Hr; lia|]. intros d k Hd Hk Hb.
    by replace d with 0 in Hb by lia.
  - intros e m He [Hm Hbits]. split.
    + apply lor_below; [lia|done|apply Hr; lia].
    + intros d k Hd Hk Hb. rewrite Z.lor_spec.
      destruct (Z.eq_dec d e) as [->|Hne]; [by rewrite Hb, orb_true_r|].
      rewrite (Hbits d k); [done|lia|done|done].
Qed.

Lemma shiftr_msb_zero (i : Z) :
  0 ≤ i → Z.shiftr msb_of i = 0 →
  ∀ d k, 0 ≤ d < D → i ≤ k → Z.testbit (at_dim g d) k = false.
Proof.
  intros Hi Hz d k Hd Hk.
  destruct (Z.testbit (at_dim g d) k) eqn:E; [|done].
  destruct msb_of_spec as [_ Hb].
  specialize (Hb d k Hd ltac:(lia) E).
  assert (Z.testbit (Z.shiftr msb_of i) (k - i) = true) as Hc.
  { rewrite Z.shiftr_spec by lia. by replace (k - i + i) with k by lia. }
  rewrite Hz, Z.bits_0 in Hc. done.
Qed.

Lemma Encode_bits_spec (fuel : nat) (i loc : Z) :
  0 ≤ i → maxDepthID - i ≤ Z.of_nat fuel →
  encoded_below (i * D) (Some loc) →
  ∃ loc', Encode_bits D fuel g i (2 ^ i) (Z.shiftr msb_of i) loc = Some loc'
          ∧ interleaved D g loc'.
Proof.
  revert i loc. induction fuel as [|fuel IH]; intros i loc Hi Hfuel Hinv.
  - (* no fuel left: [i] reached the depth, so [msb] is exhausted *)
    assert (Hz : Z.shiftr msb_of i = 0).
    { destruct msb_of_spec as [Hm _].
      apply (shiftr_small _ maxDepthID); [lia|done|lia]. }
    simpl. rewrite Hz. simpl. exists loc. split; [done|].
    destruct Hinv as (l & [= <-] & Hl0 & Hl). split; [done|].
    intros n Hn. rewrite Hl by done.
    destruct (Z.ltb_spec n (i * D)); [done|]. simpl. symmetry.
    apply (shiftr_msb_zero i); [done|done| |].
    + apply Z.mod_pos_bound. lia.
    + apply Z.div_le_lower_bound; lia.
  - simpl. destruct (Z.eqb_spec (Z.shiftr msb_of i) 0) as [Hz|Hnz].
    + exists loc. split; [done|].
      destruct Hinv as (l & [= <-] & Hl0 & Hl). split; [done|].
      intros n Hn. rewrite Hl by done.
      destruct (Z.ltb_spec n (i * D)); [done|]. simpl. symmetry.
      apply (shiftr_msb_zero i); [done|done| |].
      * apply Z.mod_pos_bound. lia.
      * apply Z.div_le_lower_bound; lia.
    + assert (Hlt : i < maxDepthID).
      { destruct (Z_lt_le_dec i maxDepthID) as [|Hge]; [done|]. exfalso. apply Hnz.
        destruct msb_of_spec as [Hm _].
        apply (shiftr_small _ maxDepthID); [lia|done|lia]. }
      destruct (Encode_dims_spec i loc ltac:(lia) Hinv) as (l & Hl & Hl').
      rewrite Hl. simpl.
      pose proof max_depth_le_grid as H31.
      assert (Hmask : shl GRID_BITS (2 ^ i) 1 = 2 ^ (i + 1)).
      { unfold shl, GRID_BITS. rewrite Z.shiftl_mul_pow2 by lia.
        rewrite <- Z.pow_add_r by lia. apply wrap_small.
        split; [apply Z.pow_nonneg; lia|]. apply Z.pow_lt_mono_r; lia. }
      rewrite Hmask. rewrite Z.shiftr_shiftr by lia.
      apply IH; [lia|lia|]. exists l. done.
Qed.


End Loop.

(** *** The magic-number spreads of two and three dimensions *)

(** The spreads are built from steps [(a ^ (a << k)) & m], every one linear
    over exclusive or; a linear map is known from its values on the single
    bits, and those are computed. *)
Definition xor_linear (f : Z → Z) : Prop :=
  ∀ a b, f (Z.lxor a b) = Z.lxor (f a) (f b).

Lemma wrap_bits (w x n : Z) :
  0 ≤ w → Z.testbit (wrap w x) n = (n <? w) && Z.testbit x n.
Proof. intros. unfold wrap. by apply Z.testbit_mod_pow2. Qed.

Lemma xor_linear_wrap (w : Z) : 0 ≤ w → xor_linear (wrap w).
Proof.
  intros Hw a b. apply Z.bits_inj'. intros n Hn.
  rewrite Z.lxor_spec, !wrap_bits, Z.lxor_spec by done.
  by destruct (n <? w), (Z.testbit a n), (Z.testbit b n).
Qed.

Lemma xor_linear_step (k m : Z) :
  xor_linear (λ a, Z.land (Z.lxor a (shl 32 a k)) m).
Proof.
  intros a b. apply Z.bits_inj'. intros n Hn. unfold shl.
  rewrite !Z.lxor_spec, !Z.land_spec, !Z.lxor_spec, !wrap_bits by lia.
  rewrite !Z.shiftl_spec, Z.lxor_spec by done.
  destruct (n <? 32), (Z.testbit a n), (Z.testbit b n), (Z.testbit m n),
    (Z.testbit a (n - k)), (Z.testbit b (n - k)); done.
Qed.

Lemma xor_linear_compose (f h : Z → Z) :
  xor_linear f → xor_linear h → xor_linear (λ a, h (f a)).
Proof. intros Hf Hh a b. by rewrite Hf, Hh. Qed.

Lemma xor_linear_Part1By1 : xor_linear Part1By1.
Proof.
  unfold Part1By1.
  repeat (apply (xor_linear_compose _ (λ a, Z.land (Z.lxor a (shl 32 a _)) _));
          [|apply xor_linear_step]).
  apply xor_linear_wrap. lia.
Qed.

Lemma xor_linear_Part1By2 : xor_linear Part1By2.
Proof.
  unfold Part1By2.
  repeat (apply (xor_linear_compose _ (λ a, Z.land (Z.lxor a (shl 32 a _)) _));
          [|apply xor_linear_step]).
  apply xor_linear_wrap. lia.
Qed.

(** Splitting off the top bit of a [k + 1]-bit number. *)
Lemma split_top_bit (x k : Z) :
  0 ≤ k → 0 ≤ x < 2 ^ (k + 1) →
  x = Z.lxor (x mod 2 ^ k) (if Z.testbit x k then 2 ^ k else 0).
Proof.
  intros Hk Hx. apply Z.bits_inj'. intros n Hn.
  rewrite Z.lxor_spec, Z.testbit_mod_pow2 by done.
  assert (Hsingle : Z.testbit (if Z.testbit x k then 2 ^ k else 0) n
                    = (k =? n) && Z.testbit x k).
  { destruct (Z.testbit x k); [|by rewrite Z.bits_0, andb_false_r].
    rewrite Z.pow2_bits_eqb by done. by rewrite andb_true_r. }
  rewrite Hsingle.
  destruct (Z.ltb_spec n k), (Z.eqb_spec k n); try lia; subst; simpl.
  - by rewrite xorb_false_r.
  - done.
  - by rewrite (testbit_false_above x (k + 1) n) by lia.
Qed.

(** A linear map that sends bit [i] to bit [s * i] spreads its argument. *)
Lemma xor_linear_spread (f : Z → Z) (s : Z) (k : nat) :
  0 < s → xor_linear f → f 0 = 0 →
  (∀ i, 0 ≤ i < Z.of_nat k → f (2 ^ i) = 2 ^ (s * i)) →
  ∀ x n, 0 ≤ x < 2 ^ Z.of_nat k → 0 ≤ n →
         Z.testbit (f x) n = (n mod s =? 0) && Z.testbit x (n / s).
Proof.
  intros Hs Hlin H0. induction k as [|k IH]; intros Hbase x n Hx Hn.
  - assert (x = 0) as -> by (simpl in Hx; lia).
    by rewrite H0, !Z.bits_0, andb_false_r.
  - rewrite Nat2Z.inj_succ, <- Z.add_1_r in Hx.
    rewrite (split_top_bit x (Z.of_nat k)) at 1 by lia.
    rewrite Hlin, Z.lxor_spec.
    rewrite IH; [|intros i Hi; apply Hbase; lia| |done].
    2:{ apply Z.mod_pos_bound. apply Z.pow_pos_nonneg; lia. }
    rewrite Z.testbit_mod_pow2 by lia.
    assert (Hdiv : 0 ≤ n / s) by (apply Z.div_pos; lia).
    assert (Htop : Z.testbit (f (if Z.testbit x (Z.of_nat k) then 2 ^ Z.of_nat k else 0)) n
                   = (n =? s * Z.of_nat k) && Z.testbit x (Z.of_nat k)).
    { destruct (Z.testbit x (Z.of_nat k)).
      - rewrite Hbase by lia. rewrite Z.pow2_bits_eqb by lia.
        rewrite andb_true_r. apply Z.eqb_sym.
      - by rewrite H0, Z.bits_0, andb_false_r. }
    rewrite Htop.
    pose proof (Z.div_mod n s ltac:(lia)) as Hdm.
    pose proof (Z.mod_pos_bound n s Hs) as Hmb.
    destruct (Z.eqb_spec n (s * Z.of_nat k)) as [->|Hne].
    + rewrite Z.mul_comm, Z.mod_mul, Z.div_mul by lia.
      rewrite Z.ltb_irrefl. simpl. done.
    + simpl. rewrite xorb_false_r.
      destruct (Z.eqb_spec (n mod s) 0) as [E0|E0]; [|done]. simpl.
      destruct (Z.ltb_spec (n / s) (Z.of_nat k)) as [Hlt|Hge]; [done|].
      simpl. symmetry. apply (testbit_false_above x (Z.of_nat k + 1)); [lia|done|].
      assert (n / s ≠ Z.of_nat k) by (intros E; apply Hne; rewrite E0, E in Hdm; lia).
      lia.
Qed.

Lemma Part1By1_basis (i : Z) : 0 ≤ i < 16 → Part1By1 (2 ^ i) = 2 ^ (2 * i).
Proof.
  intros Hi.
  assert (Hc : forallb (λ i, Part1By1 (2 ^ i) =? 2 ^ (2 * i)) (seqZ 0 16) = true)
    by (vm_compute; reflexivity).
  rewrite forallb_forall in Hc. apply Z.eqb_eq, Hc.
  apply list_elem_of_In, elem_of_seqZ. lia.
Qed.

Lemma Part1By2_basis (i : Z) : 0 ≤ i < 10 → Part1By2 (2 ^ i) = 2 ^ (3 * i).
Proof.
  intros Hi.
  assert (Hc : forallb (λ i, Part1By2 (2 ^ i) =? 2 ^ (3 * i)) (seqZ 0 10) = true)
    by (vm_compute; reflexivity).
  rewrite forallb_forall in Hc. apply Z.eqb_eq, Hc.
  apply list_elem_of_In, elem_of_seqZ. lia.
Qed.

Lemma Part1By1_bits (x n : Z) :
  0 ≤ x < 2 ^ 16 → 0 ≤ n →
  Z.testbit (Part1By1 x) n = (n mod 2 =? 0) && Z.testbit x (n / 2).
Proof.
  intros Hx Hn.
  apply (xor_linear_spread Part1By1 2 16); [lia|apply xor_linear_Part1By1|done| |done|done].
  intros i Hi. apply Part1By1_basis. lia.
Qed.

Lemma Part1By2_bits (x n : Z) :
  0 ≤ x < 2 ^ 10 → 0 ≤ n →
  Z.testbit (Part1By2 x) n = (n mod 3 =? 0) && Z.testbit x (n / 3).
Proof.
  intros Hx Hn.
  apply (xor_linear_spread Part1By2 3 10); [lia|apply xor_linear_Part1By2|done| |done|done].
  intros i Hi. apply Part1By2_basis. lia.
Qed.

Lemma Part1By1_nonneg (x : Z) : 0 ≤ Part1By1 x.
Proof. unfold Part1By1. apply Z.land_nonneg. right. lia. Qed.

Lemma Part1By2_nonneg (x : Z) : 0 ≤ Part1By2 x.
Proof. unfold Part1By2. apply Z.land_nonneg. right. lia. Qed.

(** A spread part moved to its dimension: [P << j] keeps the bits of [x] at
    the positions [n] with [n mod k = j]. *)
Lemma shl32_bits (P x k j n : Z) :
  0 ≤ j < k → 0 ≤ n →
  (∀ m, 0 ≤ m → Z.testbit P m = (m mod k =? 0) && Z.testbit x (m / k)) →
  Z.testbit (shl 32 P j) n = (n <? 32) && (n mod k =? j) && Z.testbit x (n / k).
Proof.
  intros Hj Hn HP. unfold shl, wrap.
  rewrite Z.testbit_mod_pow2 by lia.
  destruct (n <? 32); [|done]. simpl.
  rewrite Z.shiftl_spec by done.
  destruct (Z_lt_le_dec n j) as [Hlt|Hge].
  - rewrite Z.testbit_neg_r by lia.
    replace (n mod k =? j) with false; [done|].
    symmetry. apply Z.eqb_neq. rewrite Z.mod_small by lia. lia.
  - rewrite HP by lia.
    destruct (Z.eqb_spec (n mod k) j) as [E|E].
    + assert (Hk : n - j = k * (n / k)).
      { pose proof (Z.div_mod n k ltac:(lia)). lia. }
      rewrite Hk. rewrite Z.mul_comm, Z.mod_mul by lia.
      rewrite Z.div_mul by lia. done.
    + replace ((n - j) mod k =? 0) with false; [done|].
      symmetry. apply Z.eqb_neq. intros E'. apply E.
      pose proof (Z.div_mod (n - j) k ltac:(lia)) as H1. rewrite E' in H1.
      replace n with (j + (n - j) / k * k) by lia.
      rewrite Z.mod_add by lia. apply Z.mod_small. lia.
Qed.

Lemma add_disjoint (a b : Z) :
  (∀ n, 0 ≤ n → Z.testbit a n && Z.testbit b n = false) → a + b = Z.lor a b.
Proof.
  intros H. assert (Hl : Z.land a b = 0).
  { apply Z.bits_inj'. intros n Hn. by rewrite Z.land_spec, Z.bits_0, H. }
  rewrite Z.add_nocarry_lxor by done. by apply Z.lxor_lor.
Qed.

Lemma shl_nonneg (w x n : Z) : 0 ≤ w → 0 ≤ shl w x n.
Proof. intros. unfold shl. by apply wrap_range. Qed.

(** *** [Encode] interleaves the bits of the grid ids *)

Lemma interleaved_bound (maxDepthID : Z) (g : list Z) (loc : Z) :
  0 ≤ maxDepthID → valid_grid D maxDepthID g → interleaved D g loc →
  0 ≤ loc < 2 ^ (maxDepthID * D).
Proof.
  intros Hm [_ Hg] [Hl Hb]. split; [done|].
  apply bits_bound; [nia|done|].
  intros n Hn. rewrite Hb by nia.
  apply (testbit_false_above _ maxDepthID); [done| |].
  - apply Hg. apply Z.mod_pos_bound. lia.
  - apply Z.div_le_lower_bound; lia.
Qed.

Lemma Encode_spec (maxDepthID : Z) (g : list Z) :
  0 ≤ maxDepthID ≤ MAX_THEORETICAL_DEPTH_ID D →
  valid_grid D maxDepthID g →
  ∃ loc, Encode D g = Some loc ∧ interleaved D g loc.
Proof.
  intros Hm Hg. unfold Encode.
  destruct (Z.eqb_spec D 1) as [E1|N1].
  { (* one dimension: the identity *)
    eexists; split; [done|]. destruct Hg as [_ Hg]. split; [apply Hg; lia|].
    intros n Hn. subst D. by rewrite Z.mod_1_r, Z.div_1_r. }
  destruct (Z.eqb_spec D 2) as [E2|N2].
  { (* two dimensions: Part1By1 *)
    eexists; split; [done|]. destruct Hg as [_ Hg].
    assert (Hmax : maxDepthID ≤ 15).
    { subst D. change (MAX_THEORETICAL_DEPTH_ID 2) with 15 in Hm. lia. }
    assert (Hr : ∀ d, 0 ≤ d < 2 → 0 ≤ at_dim g d < 2 ^ 15).
    { intros d Hd. specialize (Hg d ltac:(lia)).
      assert (2 ^ maxDepthID ≤ 2 ^ 15) by (apply Z.pow_le_mono_r; lia). lia. }
    set (A := shl 32 (Part1By1 (at_dim g 1)) 1).
    set (B := Part1By1 (at_dim g 0)).
    assert (HA : ∀ n, 0 ≤ n → Z.testbit A n
                 = (n <? 32) && (n mod 2 =? 1) && Z.testbit (at_dim g 1) (n / 2)).
    { intros n Hn. apply shl32_bits; [lia|done|].
      intros m Hm'. apply Part1By1_bits; [|done]. specialize (Hr 1). lia. }
    assert (HB : ∀ n, 0 ≤ n → Z.testbit B n
                 = (n mod 2 =? 0) && Z.testbit (at_dim g 0) (n / 2)).
    { intros n Hn. apply Part1By1_bits; [|done]. specialize (Hr 0). lia. }
    assert (Hsum : A + B = Z.lor A B).
    { apply add_disjoint. intros n Hn. rewrite HA, HB by done.
      destruct (Z.eqb_spec (n mod 2) 1), (Z.eqb_spec (n mod 2) 0); try lia;
        by rewrite ?andb_false_r. }
    rewrite Hsum. split; [apply wrap_range; lia|].
    intros n Hn. rewrite wrap_bits, Z.lor_spec, HA, HB by lia. subst D.
    pose proof (Z.mod_pos_bound n 2 ltac:(lia)) as Hmod.
    assert (Hhigh : 32 ≤ n → ∀ d, 0 ≤ d < 2 → Z.testbit (at_dim g d) (n / 2) = false).
    { intros Hge d Hd. apply (testbit_false_above _ 15); [lia|by apply Hr|].
      apply Z.div_le_lower_bound; lia. }
    destruct (Z.ltb_spec n 32) as [Hlt|Hge]; simpl.
    - destruct (Z.eqb_spec (n mod 2) 1) as [E|E], (Z.eqb_spec (n mod 2) 0) as [E'|E'];
        try lia; simpl.
      + by rewrite E, orb_false_r.
      + by rewrite E'.
    - symmetry. apply Hhigh; [done|lia]. }
  destruct (Z.eqb_spec D 3) as [E3|N3].
  { (* three dimensions: Part1By2 *)
    eexists; split; [done|]. destruct Hg as [_ Hg].
    assert (Hmax : maxDepthID ≤ 10).
    { subst D. change (MAX_THEORETICAL_DEPTH_ID 3) with 10 in Hm. lia. }
    assert (Hr : ∀ d, 0 ≤ d < 3 → 0 ≤ at_dim g d < 2 ^ 10).
    { intros d Hd. specialize (Hg d ltac:(lia)).
      assert (2 ^ maxDepthID ≤ 2 ^ 10) by (apply Z.pow_le_mono_r; lia). lia. }
    set (A := shl 32 (Part1By2 (at_dim g 2)) 2).
    set (B := shl 32 (Part1By2 (at_dim g 1)) 1).
    set (C := Part1By2 (at_dim g 0)).
    assert (HA : ∀ n, 0 ≤ n → Z.testbit A n
                 = (n <? 32) && (n mod 3 =? 2) && Z.testbit (at_dim g 2) (n / 3)).
    { intros n Hn. apply shl32_bits; [lia|done|].
      intros m Hm'. apply Part1By2_bits; [|done]. specialize (Hr 2). lia. }
    assert (HB : ∀ n, 0 ≤ n → Z.testbit B n
                 = (n <? 32) && (n mod 3 =? 1) && Z.testbit (at_dim g 1) (n / 3)).
    { intros n Hn. apply shl32_bits; [lia|done|].
      intros m Hm'. apply Part1By2_bits; [|done]. specialize (Hr 1). lia. }
    assert (HC : ∀ n, 0 ≤ n → Z.testbit C n
                 = (n mod 3 =? 0) && Z.testbit (at_dim g 0) (n / 3)).
    { intros n Hn. apply Part1By2_bits; [|done]. specialize (Hr 0). lia. }
    assert (Hsum1 : A + B = Z.lor A B).
    { apply add_disjoint. intros n Hn. rewrite HA, HB by done.
      destruct (Z.eqb_spec (n mod 3) 2), (Z.eqb_spec (n mod 3) 1); try lia;
        by rewrite ?andb_false_r. }
    assert (HAB : ∀ n, 0 ≤ n → Z.testbit (wrap 32 (A + B)) n
                  = (n <? 32) && ((n mod 3 =? 2) && Z.testbit (at_dim g 2) (n / 3)
                                  || (n mod 3 =? 1) && Z.testbit (at_dim g 1) (n / 3))).
    { intros n Hn. rewrite Hsum1, wrap_bits, Z.lor_spec, HA, HB by lia.
      by destruct (n <? 32). }
    assert (Hsum2 : wrap 32 (A + B) + C = Z.lor (wrap 32 (A + B)) C).
    { apply add_disjoint. intros n Hn. rewrite HAB, HC by done.
      destruct (n <? 32); [|done]. simpl.
      destruct (Z.eqb_spec (n mod 3) 2), (Z.eqb_spec (n mod 3) 1),
        (Z.eqb_spec (n mod 3) 0); try lia; simpl; by rewrite ?andb_false_r. }
    rewrite Hsum2. split; [apply wrap_range; lia|].
    intros n Hn. rewrite wrap_bits, Z.lor_spec, HAB, HC by lia. subst D.
    pose proof (Z.mod_pos_bound n 3 ltac:(lia)) as Hmod.
    assert (Hhigh : 32 ≤ n → ∀ d, 0 ≤ d < 3 → Z.testbit (at_dim g d) (n / 3) = false).
    { intros Hge d Hd. apply (testbit_false_above _ 10); [lia|by apply Hr|].
      apply Z.div_le_lower_bound; lia. }
    destruct (Z.ltb_spec n 32) as [Hlt|Hge]; simpl.
    - destruct (Z.eqb_spec (n mod 3) 2) as [E|E], (Z.eqb_spec (n mod 3) 1) as [E'|E'],
        (Z.eqb_spec (n mod 3) 0) as [E''|E'']; try lia; simpl.
      + by rewrite E, !orb_false_r.
      + by rewrite E', orb_false_r.
      + by rewrite E''.
    - symmetry. apply Hhigh; [done|lia]. }
  (* the general loop *)
  pose proof max_depth_le_grid as H31.
  destruct (Encode_bits_spec maxDepthID g Hm Hg (Z.to_nat GRID_BITS) 0 0)
    as (loc & Hloc & Hint).
  - lia.
  - unfold GRID_BITS. lia.
  - exists 0. split; [done|]. split; [done|]. intros n Hn.
    rewrite Z.bits_0. destruct (Z.ltb_spec n (0 * D)); [lia|done].
  - exists loc. split; [|done]. rewrite <- Hloc.
    rewrite Z.shiftr_0_r. done.
Qed.

(** *** Node keys: the sentinel bit and the depth *)

Lemma shlL_one (p : Z) : 0 ≤ p < LOCATION_BITS D → shlL D 1 p = 2 ^ p.
Proof.
  intros Hp. unfold shlL, shl. rewrite Z.shiftl_1_l. apply wrap_small.
  split; [apply Z.pow_nonneg; lia|]. apply Z.pow_lt_mono_r; lia.
Qed.

Lemma GetHash_bits (depth loc : Z) :
  0 ≤ depth ≤ MAX_THEORETICAL_DEPTH_ID D → 0 ≤ loc < 2 ^ (depth * D) →
  GetHash D depth loc = 2 ^ (depth * D) + loc.
Proof.
  intros Hd Hl. unfold GetHash. pose proof max_depth_bits.
  rewrite shlL_one by nia. symmetry. apply add_disjoint.
  intros n Hn. rewrite Z.pow2_bits_eqb by nia.
  destruct (Z.eqb_spec (depth * D) n) as [<-|]; [|done].
  by rewrite (testbit_false_above loc (depth * D)) by nia.
Qed.

Lemma log2_key (depth loc : Z) :
  0 ≤ depth → 0 ≤ loc < 2 ^ (depth * D) → Z.log2 (2 ^ (depth * D) + loc) = depth * D.
Proof.
  intros Hd Hl. apply Z.log2_unique; [nia|].
  rewrite Z.pow_succ_r by nia. lia.
Qed.

Lemma GetDepthID_loop_spec (j : nat) (fuel : nat) (d key : Z) :
  (j ≤ fuel)%nat →
  2 ^ (Z.of_nat j * D) ≤ key < 2 ^ (Z.of_nat j * D + 1) →
  GetDepthID_loop D fuel d key = Some (d + Z.of_nat j).
Proof.
  revert fuel d key. induction j as [|j IH]; intros fuel d key Hf Hk.
  - change (Z.of_nat 0) with 0 in Hk. rewrite Z.mul_0_l, Z.add_0_l in Hk.
    change (2 ^ 0) with 1 in Hk. change (2 ^ 1) with 2 in Hk.
    assert (key = 1) as -> by lia.
    destruct fuel; simpl; f_equal; lia.
  - rewrite Nat2Z.inj_succ, <- Z.add_1_r in Hk.
    set (J := Z.of_nat j) in *.
    assert (HJ : 0 ≤ J) by (unfold J; lia).
    assert (Hpow : 2 ^ ((J + 1) * D) = 2 ^ (J * D) * 2 ^ D).
    { rewrite <- Z.pow_add_r by nia. f_equal. lia. }
    assert (Hpow1 : 2 ^ ((J + 1) * D + 1) = 2 * (2 ^ (J * D) * 2 ^ D)).
    { rewrite Z.pow_add_r by nia. rewrite Hpow. change (2 ^ 1) with 2. lia. }
    assert (Hpow2 : 2 ^ (J * D + 1) = 2 * 2 ^ (J * D)).
    { rewrite Z.pow_add_r by nia. change (2 ^ 1) with 2. lia. }
    assert (HpD : 2 ≤ 2 ^ D).
    { change 2 with (2 ^ 1) at 1. apply Z.pow_le_mono_r; lia. }
    assert (Hpj : 0 < 2 ^ (J * D)) by (apply Z.pow_pos_nonneg; nia).
    rewrite Hpow, Hpow1 in Hk.
    destruct fuel as [|fuel]; [lia|]. simpl.
    unfold IsValidKey. replace (0 <? key) with true by (symmetry; apply Z.ltb_lt; nia).
    replace (key =? 1) with false by (symmetry; apply Z.eqb_neq; nia).
    rewrite (IH fuel (d + 1) (GetParentKey D key)); [f_equal; lia|lia|].
    unfold GetParentKey. rewrite Z.shiftr_div_pow2 by lia.
    fold J. rewrite Hpow2.
    split.
    + apply Z.div_le_lower_bound; lia.
    + apply Z.div_lt_upper_bound; lia.
Qed.

Lemma GetDepthID_key (depth loc : Z) :
  0 ≤ depth ≤ MAX_THEORETICAL_DEPTH_ID D → 0 ≤ loc < 2 ^ (depth * D) →
  GetDepthID D (GetHash D depth loc) = Some depth.
Proof.
  intros Hd Hl. rewrite GetHash_bits by done. unfold GetDepthID.
  pose proof max_depth_bits as HW. pose proof max_depth_le_grid as H31.
  assert (Hpos : 0 < 2 ^ (depth * D)) by (apply Z.pow_pos_nonneg; nia).
  destruct (IS_LINEAR_TREE D) eqn:Elin.
  - unfold bit_width.
    replace (2 ^ (depth * D) + loc =? 0) with false by (symmetry; apply Z.eqb_neq; lia).
    rewrite log2_key by lia.
    replace (depth * D + 1 - 1) with (depth * D) by lia.
    rewrite wrap_small.
    + by rewrite Z.div_mul by lia.
    + unfold GRID_BITS. split; [nia|].
      assert (depth * D < 2 ^ 11) by nia.
      assert (2 ^ 11 < 2 ^ 32) by (apply Z.pow_lt_mono_r; lia). lia.
  - replace depth with (Z.of_nat (Z.to_nat depth)) at 2 by lia.
    replace (Some (Z.of_nat (Z.to_nat depth))) with (Some (0 + Z.of_nat (Z.to_nat depth)))
      by (f_equal; lia).
    apply GetDepthID_loop_spec.
    + pose proof LOCATION_BITS_pos.
      assert (depth ≤ LOCATION_BITS D) by nia. lia.
    + rewrite Z2Nat.id by lia. rewrite Z.pow_add_r by nia.
      change (2 ^ 1) with 2. lia.
Qed.

(** *** [Decode] reads the interleaved bits back *)

Lemma at_dim_lor_dim (a : list Z) (i j v : Z) :
  0 ≤ i → 0 ≤ j → (Z.to_nat i < length a)%nat →
  at_dim (lor_dim a i v) j = if i =? j then Z.lor (at_dim a j) v else at_dim a j.
Proof.
  intros Hi Hj Hlen. unfold at_dim, lor_dim. rewrite !nth_lookup.
  destruct (Z.eqb_spec i j) as [->|Hne].
  - rewrite list_lookup_alter_eq.
    destruct (a !! Z.to_nat j) eqn:E; [done|].
    apply lookup_ge_None in E. lia.
  - rewrite list_lookup_alter_ne; [done|]. lia.
Qed.

Lemma length_lor_dim (a : list Z) (i v : Z) : length (lor_dim a i v) = length a.
Proof. unfold lor_dim. apply length_alter. Qed.

Lemma at_dim_ext (a b : list Z) :
  length a = Z.to_nat D → length b = Z.to_nat D →
  (∀ d, 0 ≤ d < D → at_dim a d = at_dim b d) → a = b.
Proof.
  intros Ha Hb H. apply list_eq. intros i.
  destruct (decide (i < Z.to_nat D)%nat) as [Hlt|Hge].
  - specialize (H (Z.of_nat i) ltac:(lia)). unfold at_dim in H.
    rewrite Nat2Z.id, !nth_lookup in H.
    destruct (a !! i) eqn:Ea, (b !! i) eqn:Eb; simpl in H; subst; try done;
      try (apply lookup_ge_None in Ea; lia); try (apply lookup_ge_None in Eb; lia).
  - rewrite !lookup_ge_None_2; [done|lia|lia].
Qed.

Lemma low_bits_succ (x lev : Z) :
  0 ≤ lev →
  Z.lor (x mod 2 ^ lev) (if Z.testbit x lev then 2 ^ lev else 0) = x mod 2 ^ (lev + 1).
Proof.
  intros Hl. apply Z.bits_inj'. intros n Hn.
  rewrite Z.lor_spec, !Z.testbit_mod_pow2 by lia.
  assert (Hsingle : Z.testbit (if Z.testbit x lev then 2 ^ lev else 0) n
                    = (lev =? n) && Z.testbit x lev).
  { destruct (Z.testbit x lev); [|by rewrite Z.bits_0, andb_false_r].
    rewrite Z.pow2_bits_eqb by done. by rewrite andb_true_r. }
  rewrite Hsingle.
  destruct (Z.ltb_spec n lev), (Z.ltb_spec n (lev + 1)), (Z.eqb_spec lev n);
    try lia; subst; simpl; try done.
  by rewrite orb_false_r.
Qed.

Section DecodeLoop.

Variable maxDepthID : Z.
Variable g : list Z.
Variable key : Z.
Hypothesis Hdepth : 0 ≤ maxDepthID ≤ MAX_THEORETICAL_DEPTH_ID D.
Hypothesis Hg : valid_grid D maxDepthID g.
Hypothesis Hkey : ∀ n, 0 ≤ n < maxDepthID * D →
                       Z.testbit key n = Z.testbit (at_dim g (n mod D)) (n / D).

(** State of the decoding loops: the dimensions below [d] hold [lev + 1] bits
    of their grid id, the others [lev] bits. *)
Definition decoded (lev d : Z) (st : list Z * Z) : Prop :=
  snd st = lev * D + d ∧ length (fst st) = Z.to_nat D ∧
  ∀ e, 0 ≤ e < D →
       at_dim (fst st) e = at_dim g e mod 2 ^ (if e <? d then lev + 1 else lev).

Lemma Decode_dims_spec (lev : Z) (st : list Z * Z) :
  0 ≤ lev < maxDepthID → decoded lev 0 st →
  decoded (lev + 1) 0 (Decode_dims D key lev st).
Proof.
  intros Hlev Hst.
  assert (Hloop : decoded lev (0 + D) (Decode_dims D key lev st)).
  { unfold Decode_dims.
    apply (foldl_seqZ_inv (λ (d : Z) (s : list Z * Z), decoded lev d s)); [lia|done|].
    intros d [gridID shift] Hd (Hsh & Hlen & Hval). cbn [fst snd] in *. subst shift.
    pose proof max_depth_bits as HW. pose proof max_depth_le_grid as H31.
    rewrite land_one.
    rewrite Z.shiftr_spec by lia. rewrite Z.add_0_l.
    rewrite Hkey by nia.
    replace (lev * D + d) with (lev * D + d) by lia.
    rewrite pos_div, pos_mod by lia.
    assert (Hv : wrap GRID_BITS (shlL D (if Z.testbit (at_dim g d) lev then 1 else 0) lev)
                 = if Z.testbit (at_dim g d) lev then 2 ^ lev else 0).
    { assert (Hp : 0 ≤ 2 ^ lev < 2 ^ 32).
      { split; [apply Z.pow_nonneg; lia|apply Z.pow_lt_mono_r; lia]. }
      destruct (Z.testbit (at_dim g d) lev).
      - rewrite shlL_one by nia. by apply wrap_small.
      - unfold shlL, shl. by rewrite Z.shiftl_0_l, !wrap_0. }
    rewrite Hv. unfold decoded. cbn [fst snd].
    split; [lia|]. split; [by rewrite length_lor_dim|].
    intros e He. rewrite at_dim_lor_dim by lia.
    destruct (Z.eqb_spec d e) as [->|Hne].
    - rewrite Hval by lia. rewrite Z.ltb_irrefl.
      replace (e <? e + 1) with true by (symmetry; apply Z.ltb_lt; lia).
      apply low_bits_succ. lia.
    - rewrite Hval by lia.
      destruct (Z.ltb_spec e d), (Z.ltb_spec e (d + 1)); try lia; done. }
  destruct Hloop as (Hsh & Hlen & Hval). unfold decoded.
  split; [rewrite Hsh; lia|]. split; [done|].
  intros e He. rewrite Hval by done.
  replace (e <? 0 + D) with true by (symmetry; apply Z.ltb_lt; lia).
  replace (e <? 0) with false by (symmetry; apply Z.ltb_ge; lia). done.
Qed.

Lemma Decode_levels_spec :
  fst (foldl (λ st examinationLevelID, Decode_dims D key examinationLevelID st)
             (replicate (Z.to_nat D) 0, 0) (seqZ 0 maxDepthID)) = g.
Proof.
  assert (Hloop : decoded (0 + maxDepthID) 0
    (foldl (λ st examinationLevelID, Decode_dims D key examinationLevelID st)
           (replicate (Z.to_nat D) 0, 0) (seqZ 0 maxDepthID))).
  { apply (foldl_seqZ_inv (λ (lev : Z) (s : list Z * Z), decoded lev 0 s)); [lia| |].
    - unfold decoded. cbn [fst snd].
      split; [lia|]. split; [by rewrite length_replicate|].
      intros e He. unfold at_dim at 1. rewrite nth_lookup.
      rewrite lookup_replicate_2 by lia. cbn [default].
      replace (e <? 0) with false by (symmetry; apply Z.ltb_ge; lia).
      by rewrite Z.pow_0_r, Z.mod_1_r.
    - intros lev st Hlev Hst. apply Decode_dims_spec; [lia|done]. }
  destruct Hloop as (_ & Hlen & Hval).
  apply at_dim_ext; [done|apply Hg|].
  intros e He. rewrite Hval by done.
  replace (e <? 0) with false by (symmetry; apply Z.ltb_ge; lia).
  rewrite Z.add_0_l. apply Z.mod_small. by apply Hg.
Qed.

End DecodeLoop.

(** C3 (Encode/Decode round trip).  For every valid tuple of grid ids [g]
    (one id per dimension, each below [2 ^ maxDepthID], with [maxDepthID]
    within the limit of the representation), [Encode] succeeds and decoding
    its result, prefixed with the sentinel bit at depth [maxDepthID], gives
    [g] back. *)
Theorem encode_decode_round_trip (maxDepthID : Z) (g : list Z) :
  0 ≤ maxDepthID ≤ MAX_THEORETICAL_DEPTH_ID D →
  valid_grid D maxDepthID g →
  ∃ loc, Encode D g = Some loc ∧
         Decode D (GetHash D maxDepthID loc) maxDepthID = Some g.
Proof.
  intros Hm Hg.
  destruct (Encode_spec maxDepthID g Hm Hg) as (loc & Henc & Hint).
  exists loc. split; [done|].
  pose proof (interleaved_bound maxDepthID g loc ltac:(lia) Hg Hint) as Hloc.
  pose proof max_depth_bits as HW. pose proof max_depth_le_grid as H31.
  unfold Decode. destruct (Z.eqb_spec D 1) as [E1|N1].
  - (* one dimension: remove the sentinel bit *)
    unfold RemoveSentinelBit.
    replace (IS_LINEAR_TREE D) with true by (rewrite E1; reflexivity).
    rewrite GetHash_bits by done.
    assert (Hpos : 0 < 2 ^ (maxDepthID * D)) by (apply Z.pow_pos_nonneg; nia).
    unfold bit_width.
    replace (2 ^ (maxDepthID * D) + loc =? 0) with false
      by (symmetry; apply Z.eqb_neq; lia).
    rewrite log2_key by lia.
    replace (maxDepthID * D + 1 - 1) with (maxDepthID * D) by lia.
    rewrite shlL_one by nia.
    replace (2 ^ (maxDepthID * D) + loc - 2 ^ (maxDepthID * D)) with loc by lia.
    assert (H32 : 2 ^ (maxDepthID * D) ≤ 2 ^ 31) by (apply Z.pow_le_mono_r; nia).
    assert (HWl : 2 ^ 31 < 2 ^ LOCATION_BITS D).
    { rewrite E1. change (LOCATION_BITS 1) with 32. lia. }
    unfold wrapL. rewrite wrap_small by lia. cbn [mbind option_bind].
    unfold GRID_BITS. rewrite wrap_small by lia.
    f_equal. unfold Encode in Henc. rewrite E1 in Henc. cbn in Henc.
    injection Henc as <-.
    apply at_dim_ext.
    + rewrite E1. done.
    + apply Hg.
    + intros d Hd. assert (d = 0) as -> by lia. done.
  - rewrite GetDepthID_key by done. cbn [mbind option_bind].
    rewrite Z.sub_diag. unfold GRID_BITS. rewrite wrap_0, Z.sub_0_r.
    f_equal. apply Decode_levels_spec; [done|done|].
    intros n Hn. unfold GetHash. rewrite Z.lor_spec, shlL_one by nia.
    rewrite Z.pow2_bits_eqb by nia.
    replace (maxDepthID * D =? n) with false by (symmetry; apply Z.eqb_neq; lia).
    apply Hint. lia.
Qed.

(** *** Range location meta data *)

Lemma count_levels_spec (fuel : nat) (x lvl : Z) :
  0 < x → Z.log2 x / D < Z.of_nat fuel →
  count_levels D fuel x lvl = lvl + Z.log2 x / D + 1.
Proof.
  revert x lvl. induction fuel as [|fuel IH]; intros x lvl Hx Hf.
  - assert (0 ≤ Z.log2 x / D) by (apply Z.div_pos; [apply Z.log2_nonneg|lia]). lia.
  - simpl. replace (x =? 0) with false by (symmetry; apply Z.eqb_neq; lia).
    destruct (Z_lt_le_dec (Z.log2 x) D) as [Hlt|Hge].
    + assert (Z.shiftr x D = 0) as ->.
      { apply Z.shiftr_eq_0; lia. }
      rewrite (Z.div_small (Z.log2 x)) by (pose proof (Z.log2_nonneg x); lia).
      destruct fuel; simpl; lia.
    + assert (Hsx : 0 < Z.shiftr x D).
      { rewrite Z.shiftr_div_pow2 by lia.
        assert (2 ^ D ≤ x) by (by apply Z.log2_le_pow2).
        assert (0 < 2 ^ D) by (apply Z.pow_pos_nonneg; lia).
        assert (1 ≤ x / 2 ^ D) by (apply Z.div_le_lower_bound; lia). lia. }
      assert (Hlog : Z.log2 (Z.shiftr x D) = Z.log2 x - D).
      { rewrite Z.log2_shiftr by done. lia. }
      assert (Hdiv : Z.log2 x / D = (Z.log2 x - D) / D + 1).
      { replace (Z.log2 x) with (Z.log2 x - D + 1 * D) at 1 by lia.
        by rewrite Z.div_add by lia. }
      rewrite IH; [rewrite Hlog; lia|done|rewrite Hlog; lia].
Qed.

Lemma levels_from_bottom_spec (maxDepthID diff : Z) :
  0 ≤ maxDepthID ≤ MAX_THEORETICAL_DEPTH_ID D →
  0 < diff < 2 ^ (maxDepthID * D) →
  levels_from_bottom D diff = Z.log2 diff / D + 1.
Proof.
  intros Hm Hd. unfold levels_from_bottom.
  pose proof max_depth_bits as HW. pose proof max_depth_le_grid as H31.
  assert (Hlog : 0 ≤ Z.log2 diff < maxDepthID * D).
  { split; [apply Z.log2_nonneg|]. apply Z.log2_lt_pow2; lia. }
  destruct (IS_LINEAR_TREE D).
  - unfold bit_width. replace (diff =? 0) with false by (symmetry; apply Z.eqb_neq; lia).
    replace (Z.log2 diff + 1 + D - 1) with (Z.log2 diff + 1 * D) by lia.
    rewrite wrap_small.
    + by rewrite Z.div_add by lia.
    + unfold GRID_BITS. split; [lia|].
      assert (Z.log2 diff + 1 * D < 2 ^ 11) by nia.
      assert (2 ^ 11 < 2 ^ 32) by (apply Z.pow_lt_mono_r; lia). lia.
  - rewrite count_levels_spec; [lia|lia|].
    assert (Z.log2 diff / D < maxDepthID) by (apply Z.div_lt_upper_bound; lia).
    pose proof LOCATION_BITS_pos. nia.
Qed.

Lemma xor_interleaved (g0 g1 : list Z) (l0 l1 n : Z) :
  interleaved D g0 l0 → interleaved D g1 l1 → 0 ≤ n →
  Z.testbit (Z.lxor l0 l1) n
  = xorb (Z.testbit (at_dim g0 (n mod D)) (n / D)) (Z.testbit (at_dim g1 (n mod D)) (n / D)).
Proof. intros [_ H0] [_ H1] Hn. by rewrite Z.lxor_spec, H0, H1. Qed.

Lemma interleaved_inj (maxDepthID : Z) (g0 g1 : list Z) (l : Z) :
  valid_grid D maxDepthID g0 → valid_grid D maxDepthID g1 →
  interleaved D g0 l → interleaved D g1 l → g0 = g1.
Proof.
  intros [Hl0 Hg0] [Hl1 Hg1] [_ H0] [_ H1].
  apply at_dim_ext; [done|done|]. intros d Hd.
  apply Z.bits_inj'. intros k Hk.
  specialize (H0 (k * D + d) ltac:(nia)). specialize (H1 (k * D + d) ltac:(nia)).
  rewrite pos_div, pos_mod in H0, H1 by lia. congruence.
Qed.

(** The value of the low [i + 1] bits, split at bit [i]. *)
Lemma low_bits_split (a i : Z) :
  0 ≤ i →
  a mod 2 ^ (i + 1) = a mod 2 ^ i + (if Z.testbit a i then 2 ^ i else 0).
Proof.
  intros Hi. rewrite <- low_bits_succ by done. symmetry. apply add_disjoint.
  intros n Hn. rewrite Z.testbit_mod_pow2 by done.
  destruct (Z.testbit a i); [|by rewrite Z.bits_0, andb_false_r].
  rewrite Z.pow2_bits_eqb by done.
  destruct (Z.ltb_spec n i), (Z.eqb_spec i n); try lia; done.
Qed.

Lemma shiftr_shiftl_mod (a L : Z) :
  0 ≤ L → a = Z.shiftl (Z.shiftr a L) L + a mod 2 ^ L.
Proof.
  intros HL. rewrite Z.shiftl_mul_pow2, Z.shiftr_div_pow2 by done.
  pose proof (Z.div_mod a (2 ^ L)) as H.
  assert (0 < 2 ^ L) by (by apply Z.pow_pos_nonneg). lia.
Qed.

(** The box with grid corners [gmin], [gmax] lies in one cell of depth
    [depth]: in every dimension both corners have the same cell index. *)
Definition fits_in_cell (maxDepthID : Z) (gmin gmax : list Z) (depth : Z) : Prop :=
  ∀ d, 0 ≤ d < D →
       Z.shiftr (at_dim gmin d) (maxDepthID - depth)
       = Z.shiftr (at_dim gmax d) (maxDepthID - depth).

(** The box straddles the midplane, in dimension [d], of the cell of depth
    [depth] that holds its lower corner: the lower corner is below the
    midplane and the upper corner is not. *)
Definition straddles_midplane (maxDepthID : Z) (gmin gmax : list Z) (depth d : Z) : Prop :=
  let L := maxDepthID - depth in
  let mid := Z.shiftl (Z.shiftr (at_dim gmin d) L) L + 2 ^ (L - 1) in
  0 < L ∧ at_dim gmin d < mid ∧ mid ≤ at_dim gmax d.

(** C4 (range meta data).  For a box whose grid-id corners lie in the
    resolution of the tree, the meta data has: [DepthID] the largest depth
    at which the box fits in one cell; bit [d] of [TouchedDimensionsFlag]
    set exactly when the box straddles the midplane of that cell in
    dimension [d]; with equal encoded corners the depth is [maxDepthID] and
    the flag is zero; otherwise the number [L] of levels stepped up from the
    bottom is the ceiling of [bit_width (locMin xor locMax) / D], that is
    [(L - 1) * D < bit_width _ <= L * D]. *)
Theorem range_meta_data_correct (maxDepthID : Z) (gmin gmax : list Z) :
  0 ≤ maxDepthID ≤ MAX_THEORETICAL_DEPTH_ID D →
  valid_grid D maxDepthID gmin → valid_grid D maxDepthID gmax →
  (∀ d, 0 ≤ d < D → at_dim gmin d ≤ at_dim gmax d) →
  ∃ locMin locMax md,
    Encode D gmin = Some locMin ∧ Encode D gmax = Some locMax ∧
    GetRangeLocationMetaData D maxDepthID (gmin, gmax) = Some md ∧
    0 ≤ DepthID md ≤ maxDepthID ∧
    fits_in_cell maxDepthID gmin gmax (DepthID md) ∧
    (∀ depth, DepthID md < depth ≤ maxDepthID →
              ¬ fits_in_cell maxDepthID gmin gmax depth) ∧
    (∀ d, 0 ≤ d < D →
          Z.testbit (TouchedDimensionsFlag md) d = true
          ↔ straddles_midplane maxDepthID gmin gmax (DepthID md) d) ∧
    (locMin = locMax → DepthID md = maxDepthID ∧ TouchedDimensionsFlag md = 0) ∧
    (locMin ≠ locMax →
       let L := maxDepthID - DepthID md in
       (L - 1) * D < bit_width (Z.lxor locMin locMax) ≤ L * D).
Proof.
  intros Hm Hg0 Hg1 Hle.
  destruct (Encode_spec maxDepthID gmin Hm Hg0) as (l0 & He0 & Hi0).
  destruct (Encode_spec maxDepthID gmax Hm Hg1) as (l1 & He1 & Hi1).
  exists l0, l1, (GetRangeLocationMetaData_loc D maxDepthID (l0, l1)).
  split; [done|]. split; [done|]. split.
  { unfold GetRangeLocationMetaData, GetRangeLocationID. cbn [fst snd].
    by rewrite He0, He1. }
  pose proof (interleaved_bound maxDepthID gmin l0 ltac:(lia) Hg0 Hi0) as Hb0.
  pose proof (interleaved_bound maxDepthID gmax l1 ltac:(lia) Hg1 Hi1) as Hb1.
  pose proof max_depth_bits as HW. pose proof max_depth_le_grid as H31.
  unfold GetRangeLocationMetaData_loc. cbn [fst snd DepthID LocID].
  destruct (Z.eqb_spec l0 l1) as [Heq|Hne].
  { (* equal corners *)
    subst l1. assert (gmin = gmax) as <- by (by eapply interleaved_inj).
    cbn [DepthID TouchedDimensionsFlag].
    split; [lia|]. split; [by intros d Hd|]. split; [intros; lia|].
    split; [|by split].
    intros d Hd. rewrite Z.bits_0. split; [done|].
    unfold straddles_midplane. intros (HL & _). lia. }
  (* different corners *)
  set (diff := Z.lxor l0 l1).
  assert (Hdiff : 0 < diff < 2 ^ (maxDepthID * D)).
  { assert (0 ≤ diff) by (apply Z.lxor_nonneg; lia).
    assert (diff ≠ 0) by (intros E; apply Hne; by apply Z.lxor_eq).
    split; [lia|]. apply bits_bound; [nia|done|].
    intros n Hn. unfold diff. rewrite Z.lxor_spec.
    by rewrite (testbit_false_above l0 (maxDepthID * D)),
               (testbit_false_above l1 (maxDepthID * D)) by nia. }
  rewrite (levels_from_bottom_spec maxDepthID) by done.
  assert (Hlog : 0 ≤ Z.log2 diff < maxDepthID * D).
  { split; [apply Z.log2_nonneg|]. apply Z.log2_lt_pow2; lia. }
  set (i := Z.log2 diff / D).
  set (e := Z.log2 diff mod D).
  assert (Hi : 0 ≤ i < maxDepthID).
  { split; [apply Z.div_pos; lia|apply Z.div_lt_upper_bound; lia]. }
  assert (He : 0 ≤ e < D) by (apply Z.mod_pos_bound; lia).
  assert (Hh : Z.log2 diff = i * D + e).
  { unfold i, e. pose proof (Z.div_mod (Z.log2 diff) D). lia. }
  replace (0 <? i + 1) with true by (symmetry; apply Z.ltb_lt; lia).
  cbn [DepthID TouchedDimensionsFlag].
  replace (i + 1 - 1) with i by lia.
  assert (Hdepth : wrap GRID_BITS (maxDepthID - (i + 1)) = maxDepthID - (i + 1)).
  { apply wrap_small. unfold GRID_BITS. split; [lia|].
    assert (2 ^ 5 < 2 ^ 32) by (apply Z.pow_lt_mono_r; lia).
    change (2 ^ 5) with 32 in *. lia. }
  rewrite Hdepth. clear Hdepth.
  replace (maxDepthID - (maxDepthID - (i + 1))) with (i + 1) by lia.
  (* the bits of the difference *)
  assert (Hxor : ∀ d k, 0 ≤ d < D → 0 ≤ k →
            Z.testbit diff (k * D + d)
            = xorb (Z.testbit (at_dim gmin d) k) (Z.testbit (at_dim gmax d) k)).
  { intros d k Hd Hk. unfold diff.
    rewrite (xor_interleaved gmin gmax) by (done || nia).
    by rewrite pos_div, pos_mod by lia. }
  assert (Hhigh : ∀ d k, 0 ≤ d < D → i < k →
            Z.testbit (at_dim gmin d) k = Z.testbit (at_dim gmax d) k).
  { intros d k Hd Hk.
    assert (Z.testbit diff (k * D + d) = false) as Hf.
    { apply Z.bits_above_log2; [lia|]. nia. }
    rewrite Hxor in Hf by lia.
    by destruct (Z.testbit (at_dim gmin d) k), (Z.testbit (at_dim gmax d) k). }
  assert (Htop : xorb (Z.testbit (at_dim gmin e) i) (Z.testbit (at_dim gmax e) i) = true).
  { rewrite <- Hxor by lia. rewrite <- Hh. apply Z.bit_log2. lia. }
  assert (Hfits : fits_in_cell maxDepthID gmin gmax (maxDepthID - (i + 1))).
  { intros d Hd. replace (maxDepthID - (maxDepthID - (i + 1))) with (i + 1) by lia.
    apply Z.bits_inj'. intros k Hk. rewrite !Z.shiftr_spec by done.
    apply Hhigh; lia. }
  split; [lia|]. split; [done|]. split.
  { (* no deeper cell holds the box *)
    intros depth Hd Hf. specialize (Hf e He).
    assert (Z.testbit (Z.shiftr (at_dim gmin e) (maxDepthID - depth))
                      (i - (maxDepthID - depth))
            = Z.testbit (Z.shiftr (at_dim gmax e) (maxDepthID - depth))
                        (i - (maxDepthID - depth))) as Hb by (by rewrite Hf).
    rewrite !Z.shiftr_spec in Hb by lia.
    replace (i - (maxDepthID - depth) + (maxDepthID - depth)) with i in Hb by lia.
    rewrite Hb in Htop. by rewrite xorb_nilpotent in Htop. }
  split.
  { (* the touched dimensions *)
    intros d Hd. unfold CastMortonIDToChildID, CHILD_MASK.
    replace (2 ^ D - 1) with (Z.ones D) by (rewrite Z.ones_equiv; lia).
    rewrite Z.land_spec, Z.shiftr_spec, Z.ones_spec_low, andb_true_r by lia.
    replace (d + i * D) with (i * D + d) by lia. rewrite Hxor by lia.
    unfold straddles_midplane.
    replace (maxDepthID - (maxDepthID - (i + 1))) with (i + 1) by lia.
    replace (i + 1 - 1) with i by lia.
    specialize (Hfits d Hd).
    replace (maxDepthID - (maxDepthID - (i + 1))) with (i + 1) in Hfits by lia.
    pose proof (shiftr_shiftl_mod (at_dim gmin d) (i + 1) ltac:(lia)) as Hmin.
    pose proof (shiftr_shiftl_mod (at_dim gmax d) (i + 1) ltac:(lia)) as Hmax.
    rewrite <- Hfits in Hmax.
    rewrite (low_bits_split (at_dim gmin d) i) in Hmin by lia.
    rewrite (low_bits_split (at_dim gmax d) i) in Hmax by lia.
    pose proof (Z.mod_pos_bound (at_dim gmin d) (2 ^ i) ltac:(apply Z.pow_pos_nonneg; lia)).
    pose proof (Z.mod_pos_bound (at_dim gmax d) (2 ^ i) ltac:(apply Z.pow_pos_nonneg; lia)).
    specialize (Hle d Hd).
    set (hi := Z.shiftl (Z.shiftr (at_dim gmin d) (i + 1)) (i + 1)) in *.
    destruct (Z.testbit (at_dim gmin d) i), (Z.testbit (at_dim gmax d) i);
      cbn [xorb]; split; try done; try lia; intros; lia. }
  split; [done|].
  intros _. cbn zeta.
  replace (maxDepthID - (maxDepthID - (i + 1))) with (i + 1) by lia.
  unfold bit_width. fold diff.
  replace (diff =? 0) with false by (symmetry; apply Z.eqb_neq; lia).
  nia.
Qed.

End MortonFacts.

(** C5 (ordering of range meta data), as the code has it: [IsLess] compares
    the location ids first and, at equal location id, puts the value with the
    smaller [DepthID] (the shallower one) first. *)
Theorem IsLess_lexicographic (l r : RangeLocationMetaData) :
  IsLess l r = true
  ↔ LocID l < LocID r ∨ (LocID l = LocID r ∧ DepthID l < DepthID r).
Proof.
  unfold IsLess. rewrite orb_true_iff, andb_true_iff.
  rewrite !Z.ltb_lt, Z.eqb_eq. done.
Qed.

(** C5 as stated fails: at equal location id the deeper value is not
    ordered first, the shallower one is. *)
Lemma IsLess_deeper_not_first :
  let deep := mkRangeLocationMetaData 2 0 0 0 in
  let shallow := mkRangeLocationMetaData 1 0 0 0 in
  LocID deep = LocID shallow ∧ DepthID shallow < DepthID deep ∧
  IsLess deep shallow = false ∧ IsLess shallow deep = true.
Proof. cbv zeta. repeat split; reflexivity. Qed.

End SIFacts.

(** A concrete instance of C3: three dimensions, depth 4. *)
Lemma encode_decode_round_trip_witness :
  ∃ loc, SI.Encode 3 [5; 3; 7] = Some loc ∧
         SI.Decode 3 (SI.GetHash 3 4 loc) 4 = Some [5; 3; 7].
Proof.
  apply (SIFacts.encode_decode_round_trip 3); [lia| |].
  - change (SI.MAX_THEORETICAL_DEPTH_ID 3) with 10. lia.
  - split; [reflexivity|]. intros d Hd.
    assert (d = 0 ∨ d = 1 ∨ d = 2) as [->|[->| ->]] by lia;
      vm_compute; (split; [discriminate|reflexivity]).
Defined.

(** A concrete instance of C4: a box over the cells (1,2)..(2,3) of a
    quadtree of depth 3. *)
Lemma range_meta_data_correct_witness :
  ∃ locMin locMax md,
    SI.Encode 2 [1; 2] = Some locMin ∧ SI.Encode 2 [2; 3] = Some locMax ∧
    SI.GetRangeLocationMetaData 2 3 ([1; 2], [2; 3]) = Some md ∧
    0 ≤ SI.DepthID md ≤ 3 ∧
    SIFacts.fits_in_cell 2 3 [1; 2] [2; 3] (SI.DepthID md) ∧
    (∀ depth, SI.DepthID md < depth ≤ 3 →
              ¬ SIFacts.fits_in_cell 2 3 [1; 2] [2; 3] depth) ∧
    (∀ d, 0 ≤ d < 2 →
          Z.testbit (SI.TouchedDimensionsFlag md) d = true
          ↔ SIFacts.straddles_midplane 3 [1; 2] [2; 3] (SI.DepthID md) d) ∧
    (locMin = locMax → SI.DepthID md = 3 ∧ SI.TouchedDimensionsFlag md = 0) ∧
    (locMin ≠ locMax →
       let L := 3 - SI.DepthID md in
       (L - 1) * 2 < bit_width (Z.lxor locMin locMax) ≤ L * 2).
Proof.
  apply (SIFacts.range_meta_data_correct 2); [lia| | | |].
  - change (SI.MAX_THEORETICAL_DEPTH_ID 2) with 15. lia.
  - split; [reflexivity|]. intros d Hd.
    assert (d = 0 ∨ d = 1) as [->| ->] by lia;
      vm_compute; (split; [discriminate|reflexivity]).
  - split; [reflexivity|]. intros d Hd.
    assert (d = 0 ∨ d = 1) as [->| ->] by lia;
      vm_compute; (split; [discriminate|reflexivity]).
  - intros d Hd.
    assert (d = 0 ∨ d = 1) as [->| ->] by lia; vm_compute; discriminate.
Defined.

(** * Ray-box distance: the slab method *)

Module RayFacts.

(** ** Ordered floating-point values *)

Lemma SFcompare_antisym (x y : spec_float) :
  SFcompare y x = option_map CompOpp (SFcompare x y).
Proof.
  destruct x as [sx|sx| |sx mx ex], y as [sy|sy| |sy my ey]; simpl;
    try reflexivity; try (destruct sx; reflexivity); try (destruct sy; reflexivity);
    try (destruct sx, sy; reflexivity).
  destruct sx, sy; simpl; try reflexivity.
  - rewrite (Z.compare_antisym ex ey). destruct (ex ?= ey); simpl; try reflexivity.
    pose proof (Pos.compare_cont_antisym mx my Eq) as H. simpl in H.
    by rewrite H.
  - rewrite (Z.compare_antisym ex ey). destruct (ex ?= ey); simpl; try reflexivity.
    pose proof (Pos.compare_cont_antisym mx my Eq) as H. simpl in H.
    by rewrite H.
Qed.

Lemma Prim2SF_not_nan (x : float) :
  is_nan x = false → FloatOps.Prim2SF x ≠ S754_nan.
Proof.
  intros H. unfold FloatOps.Prim2SF. rewrite H.
  destruct (is_zero x); [done|]. destruct (is_infinity x); [done|].
  destruct (FloatOps.Z.frexp x) as [r e].
  destruct (shr_fexp _ _ _ _ _) as [shr e'].
  by destruct (shr_m shr).
Qed.

(** On values that are not NaN the order is total: [a < b] is the negation
    of [b <= a]. *)
Lemma ltb_negb_leb (a b : float) :
  is_nan a = false → is_nan b = false → (a <? b)%float = negb (b <=? a)%float.
Proof.
  intros Ha Hb. rewrite FloatAxioms.ltb_spec, FloatAxioms.leb_spec.
  apply Prim2SF_not_nan in Ha, Hb.
  unfold SFltb, SFleb. rewrite (SFcompare_antisym (FloatOps.Prim2SF a) (FloatOps.Prim2SF b)).
  destruct (FloatOps.Prim2SF a) as [sa|sa| |sa ma ea] eqn:Ea,
           (FloatOps.Prim2SF b) as [sb|sb| |sb mb eb] eqn:Eb; try done;
    simpl; try (destruct sa; done); try (destruct sb; done);
    try (destruct sa, sb; done).
  destruct sa, sb; simpl; try done.
  - destruct (ea ?= eb); simpl; try done. by destruct (Pos.compare_cont Eq ma mb).
  - destruct (ea ?= eb); simpl; try done. by destruct (Pos.compare_cont Eq ma mb).
Qed.

Lemma leb_negb_ltb (a b : float) :
  is_nan a = false → is_nan b = false → (a <=? b)%float = negb (b <? a)%float.
Proof. intros Ha Hb. rewrite (ltb_negb_leb b a) by done. by rewrite negb_involutive. Qed.


(** ** The slab method, stated once for both implementations

    [lo d] and [hi d] are the planes of the slab of dimension [d] (the box
    widened by the tolerance); [lo0 d] and [hi0 d] are the planes used by the
    zero-tolerance test of a dimension without direction. *)
Section Slab.

Variable D : Z.
Variables lo hi lo0 hi0 : Z → float.
Variables origin dir : list float.
Variable tol : float.

(** The origin lies in the slab of dimension [d]: strictly when the
    tolerance is not zero, else boundary included. *)
Definition within_slab (d : Z) : bool :=
  if fneq tol 0
  then (lo d <? at_f origin d)%float && (at_f origin d <? hi d)%float
  else (lo0 d <=? at_f origin d)%float && (at_f origin d <=? hi0 d)%float.

(** The test the code makes in a dimension without direction. *)
Definition beyond_slab (d : Z) : bool :=
  if fneq tol 0
  then (hi d <=? at_f origin d)%float || (at_f origin d <=? lo d)%float
  else (hi0 d <? at_f origin d)%float || (at_f origin d <? lo0 d)%float.

(** The ray misses because of a dimension in which it does not move. *)
Definition misses (d : Z) : bool := (at_f dir d =? 0)%float && beyond_slab d.

(** Distances to the two planes of dimension [d]. *)
Definition slab_t1 (d : Z) : float := ((lo d - at_f origin d) * (1 / at_f dir d))%float.
Definition slab_t2 (d : Z) : float := ((hi d - at_f origin d) * (1 / at_f dir d))%float.

(** Entry and exit distance of dimension [d]: the two plane distances,
    exchanged when the ray runs in the negative direction; no bound in a
    dimension without direction. *)
Definition slab_entry (d : Z) : float :=
  if (at_f dir d =? 0)%float then (- float_max)%float
  else if (at_f dir d <? 0)%float then slab_t2 d else slab_t1 d.

Definition slab_exit (d : Z) : float :=
  if (at_f dir d =? 0)%float then float_max
  else if (at_f dir d <? 0)%float then slab_t1 d else slab_t2 d.

Definition slab_method : option float :=
  if existsb misses (seqZ 0 D) then None
  else
    let tMin := max_element (slab_entry <$> seqZ 0 D) in
    let tMax := min_element (slab_exit <$> seqZ 0 D) in
    if (tMax <? tMin)%float || (tMax <? 0)%float then None
    else Some (if (tMin <? 0)%float then tMax else tMin).

(** The loop of the code over a per-dimension function [f]. *)
Definition ray_step (f : Z → option (float * float))
    (acc : option (list float * list float)) (d : Z) : option (list float * list float) :=
  arrays ← acc;
  t ← f d;
  Some (fst arrays ++ [fst t], snd arrays ++ [snd t]).

Lemma ray_loop_None (f : Z → option (float * float)) (l : list Z) :
  foldl (ray_step f) None l = None.
Proof. induction l as [|d l IH]; [done|]. simpl. exact IH. Qed.

Lemma ray_loop_closed (f : Z → option (float * float)) (l : list Z)
    (a : list float * list float) :
  (∀ d, f d = if misses d then None else Some (slab_entry d, slab_exit d)) →
  foldl (ray_step f) (Some a) l
  = if existsb misses l then None
    else Some (fst a ++ (slab_entry <$> l), snd a ++ (slab_exit <$> l)).
Proof.
  intros Hf. revert a. induction l as [|d l IH]; intros [a1 a2].
  - simpl. by rewrite !app_nil_r.
  - cbn [foldl existsb]. unfold ray_step at 2. cbn [mbind option_bind]. rewrite Hf.
    destruct (misses d); cbn [orb].
    + change (None ≫= _) with (@None (list float * list float)).
      apply ray_loop_None.
    + change (Some (slab_entry d, slab_exit d) ≫= _)
        with (Some (a1 ++ [slab_entry d], a2 ++ [slab_exit d])).
      rewrite IH. cbn [fst snd]. rewrite !fmap_cons, <- !app_assoc. done.
Qed.

(** Where the values compared are not NaN, the miss test is the negation of
    the containment test. *)
Lemma beyond_not_within (d : Z) :
  is_nan (at_f origin d) = false →
  is_nan (lo d) = false → is_nan (hi d) = false →
  is_nan (lo0 d) = false → is_nan (hi0 d) = false →
  beyond_slab d = negb (within_slab d).
Proof.
  intros Hp Hl Hh Hl0 Hh0. unfold beyond_slab, within_slab.
  destruct (fneq tol 0).
  - rewrite (ltb_negb_leb (lo d)), (ltb_negb_leb _ (hi d)) by done.
    destruct (hi d <=? at_f origin d)%float, (at_f origin d <=? lo d)%float; done.
  - rewrite (leb_negb_ltb (lo0 d)), (leb_negb_ltb _ (hi0 d)) by done.
    destruct (hi0 d <? at_f origin d)%float, (at_f origin d <? lo0 d)%float; done.
Qed.

(** A ray without direction that is not inside the box misses it. *)
Lemma zero_direction_misses :
  (∀ d, 0 ≤ d < D → (at_f dir d =? 0)%float = true) →
  (∀ d, 0 ≤ d < D → beyond_slab d = negb (within_slab d)) →
  forallb within_slab (seqZ 0 D) = false →
  slab_method = None.
Proof.
  intros Hdir Hord Hout. unfold slab_method.
  replace (existsb misses (seqZ 0 D)) with true; [done|].
  symmetry. apply existsb_exists.
  assert (Hex : ∃ d, d ∈ seqZ 0 D ∧ within_slab d = false).
  { destruct (forallb within_slab (seqZ 0 D)) eqn:E; [done|].
    clear Hout. induction (seqZ 0 D) as [|d l IH]; [done|].
    simpl in E. destruct (within_slab d) eqn:Ed.
    - destruct (IH E) as (d' & Hin & Hd'). exists d'. split; [by right|done].
    - exists d. split; [by left|done]. }
  destruct Hex as (d & Hin & Hd). exists d. split; [by apply list_elem_of_In|].
  apply elem_of_seqZ in Hin. unfold misses.
  rewrite Hdir, Hord, Hd by lia. done.
Qed.

End Slab.

(** ** [AdaptorGeneralBase::GetRayBoxDistance] *)

(** The planes of the box widened by the tolerance, and of the box itself. *)
Definition box_lo (box : Box) (tol : float) (d : Z) : float := (at_f (Min box) d - tol)%float.
Definition box_hi (box : Box) (tol : float) (d : Z) : float := (at_f (Max box) d + tol)%float.
Definition box_lo0 (box : Box) (d : Z) : float := at_f (Min box) d.
Definition box_hi0 (box : Box) (d : Z) : float := at_f (Max box) d.

(** The slab method on the box widened by the tolerance. *)
Definition box_slab_method (D : Z) (box : Box) (origin dir : list float) (tol : float)
  : option float :=
  slab_method D (box_lo box tol) (box_hi box tol) (box_lo0 box) (box_hi0 box) origin dir tol.

(** The origin lies in the slab of dimension [d] of the widened box. *)
Definition origin_within_slab (box : Box) (origin : list float) (tol : float) (d : Z) : bool :=
  within_slab (box_lo box tol) (box_hi box tol) (box_lo0 box) (box_hi0 box) origin tol d.

(** None of the values compared in dimension [d] is a NaN. *)
Definition ordered_dim (box : Box) (origin : list float) (tol : float) (d : Z) : Prop :=
  is_nan (at_f origin d) = false ∧
  is_nan (box_lo box tol d) = false ∧ is_nan (box_hi box tol d) = false ∧
  is_nan (box_lo0 box d) = false ∧ is_nan (box_hi0 box d) = false.

Lemma DoesBoxContainPoint_within (D : Z) (box : Box) (origin : list float) (tol : float) :
  AD.DoesBoxContainPoint D box origin tol
  = forallb (origin_within_slab box origin tol) (seqZ 0 D).
Proof.
  unfold AD.DoesBoxContainPoint, origin_within_slab, within_slab,
    box_lo, box_hi, box_lo0, box_hi0.
  by destruct (fneq tol 0).
Qed.

Lemma RayBoxDistance_dim_closed (box : Box) (origin dir : list float) (tol : float) (d : Z) :
  AD.RayBoxDistance_dim box origin dir tol d
  = if misses (box_lo box tol) (box_hi box tol) (box_lo0 box) (box_hi0 box) origin dir tol d
    then None
    else Some (slab_entry (box_lo box tol) (box_hi box tol) origin dir d,
               slab_exit (box_lo box tol) (box_hi box tol) origin dir d).
Proof.
  unfold AD.RayBoxDistance_dim, misses, beyond_slab, slab_entry, slab_exit,
    slab_t1, slab_t2, box_lo, box_hi, box_lo0, box_hi0.
  destruct (at_f dir d =? 0)%float; cbn [andb].
  - destruct (fneq tol 0).
    + destruct (at_f (Max box) d + tol <=? at_f origin d)%float; [done|].
      by destruct (at_f origin d <=? at_f (Min box) d - tol)%float.
    + destruct (at_f (Max box) d <? at_f origin d)%float; [done|].
      by destruct (at_f origin d <? at_f (Min box) d)%float.
  - by destruct (at_f dir d <? 0)%float.
Qed.

Lemma GetRayBoxDistance_closed (D : Z) (box : Box) (origin dir : list float) (tol : float) :
  AD.GetRayBoxDistance D box origin dir tol
  = if AD.DoesBoxContainPoint D box origin tol then Some 0%float
    else box_slab_method D box origin dir tol.
Proof.
  unfold AD.GetRayBoxDistance. destruct (AD.DoesBoxContainPoint D box origin tol); [done|].
  unfold AD.RayBoxDistance_loop, box_slab_method, slab_method.
  change (λ (acc : option (list float * list float)) (dimensionID : Z),
           arrays ← acc;
           t ← AD.RayBoxDistance_dim box origin dir tol dimensionID;
           Some (arrays.1 ++ [t.1], arrays.2 ++ [t.2]))
    with (ray_step (AD.RayBoxDistance_dim box origin dir tol)).
  rewrite (ray_loop_closed (box_lo box tol) (box_hi box tol) (box_lo0 box) (box_hi0 box)
             origin dir tol); [|apply RayBoxDistance_dim_closed].
  by destruct (existsb _ _).
Qed.

(** C6 (ray-box distance), as the code has it.  [GetRayBoxDistance] returns
    0 when the origin lies in the box widened by the tolerance (strictly inside
    when the tolerance is not zero, boundary included when it is zero).
    Otherwise it returns the slab-method result for the widened box: per
    dimension the distances [t1 = (minBox - tol - origin) * (1 / dir)] and
    [t2 = (maxBox + tol - origin) * (1 / dir)], exchanged when [dir < 0],
    [tMin] the largest entry and [tMax] the smallest exit distance, no result
    when [tMin > tMax] or [tMax < 0], else [tMin] when [tMin >= 0], else
    [tMax]; a dimension with [dir = 0] bounds nothing and gives no result
    when the origin is beyond its slab, which for values that are not NaN
    means: not within the slab.  A ray without any direction therefore gives 0
    or no result. *)
Theorem ray_box_distance_slab (D : Z) (box : Box) (origin dir : list float) (tol : float) :
  AD.GetRayBoxDistance D box origin dir tol
  = (if forallb (origin_within_slab box origin tol) (seqZ 0 D) then Some 0%float
     else box_slab_method D box origin dir tol)
  ∧ ((∀ d, 0 ≤ d < D → ordered_dim box origin tol d) →
     (∀ d, 0 ≤ d < D →
           beyond_slab (box_lo box tol) (box_hi box tol) (box_lo0 box) (box_hi0 box)
                       origin tol d
           = negb (origin_within_slab box origin tol d))
     ∧ ((∀ d, 0 ≤ d < D → (at_f dir d =? 0)%float = true) →
        AD.GetRayBoxDistance D box origin dir tol = Some 0%float
        ∨ AD.GetRayBoxDistance D box origin dir tol = None)).
Proof.
  rewrite GetRayBoxDistance_closed, DoesBoxContainPoint_within.
  split; [done|]. intros Hord.
  assert (Hb : ∀ d, 0 ≤ d < D →
           beyond_slab (box_lo box tol) (box_hi box tol) (box_lo0 box) (box_hi0 box)
                       origin tol d
           = negb (origin_within_slab box origin tol d)).
  { intros d Hd. destruct (Hord d Hd) as (? & ? & ? & ? & ?).
    by apply beyond_not_within. }
  split; [done|]. intros Hdir.
  destruct (forallb (origin_within_slab box origin tol) (seqZ 0 D)) eqn:Hin; [by left|].
  right. by apply zero_direction_misses.
Qed.

(** C6 as stated: the slab method on the box itself, with
    [t1 = (minBox - origin) / dir] and [t2 = (maxBox - origin) / dir] put in
    order, and no special case for an origin inside the box. *)
Definition stated_t1 (box : Box) (origin dir : list float) (d : Z) : float :=
  ((at_f (Min box) d - at_f origin d) / at_f dir d)%float.
Definition stated_t2 (box : Box) (origin dir : list float) (d : Z) : float :=
  ((at_f (Max box) d - at_f origin d) / at_f dir d)%float.
Definition stated_within (box : Box) (origin : list float) (tol : float) (d : Z) : bool :=
  if fneq tol 0
  then (at_f (Min box) d <? at_f origin d)%float && (at_f origin d <? at_f (Max box) d)%float
  else (at_f (Min box) d <=? at_f origin d)%float && (at_f origin d <=? at_f (Max box) d)%float.
Definition stated_slab_method (D : Z) (box : Box) (origin dir : list float) (tol : float)
  : option float :=
  if existsb (λ d, (at_f dir d =? 0)%float && negb (stated_within box origin tol d))
             (seqZ 0 D)
  then None
  else
    let tMin := max_element
                  ((λ d, if (at_f dir d =? 0)%float then neg_infinity
                         else fmin (stated_t1 box origin dir d) (stated_t2 box origin dir d))
                     <$> seqZ 0 D) in
    let tMax := min_element
                  ((λ d, if (at_f dir d =? 0)%float then infinity
                         else fmax (stated_t1 box origin dir d) (stated_t2 box origin dir d))
                     <$> seqZ 0 D) in
    if (tMax <? tMin)%float || (tMax <? 0)%float then None
    else Some (if (0 <=? tMin)%float then tMin else tMax).

(** C6 as stated fails at two inputs in one dimension.  With the origin 0.5
    inside the box [0, 1] the stated slab method gives the exit distance 0.5,
    the code gives 0.  With the origin 3, the direction -1 and the tolerance
    0.5 the stated method gives 2, the code measures to the widened box and
    gives 1.5. *)
Lemma ray_box_distance_not_plain_slab :
  AD.GetRayBoxDistance 1 (mkBox [0%float] [1%float]) [0.5%float] [1%float] 0%float
    = Some 0%float
  ∧ stated_slab_method 1 (mkBox [0%float] [1%float]) [0.5%float] [1%float] 0%float
    = Some 0.5%float
  ∧ AD.GetRayBoxDistance 1 (mkBox [0%float] [1%float]) [3%float] [(-1)%float] 0.5%float
    = Some 1.5%float
  ∧ stated_slab_method 1 (mkBox [0%float] [1%float]) [3%float] [(-1)%float] 0.5%float
    = Some 2%float.
Proof. repeat split; vm_compute; reflexivity. Qed.

(** ** [InternalGeometryModule::GetRayBoxDistanceAD]: the same method on a
    box given by its center and half sizes. *)

Definition center_lo (center halfSizes : list float) (tol : float) (d : Z) : float :=
  (at_f center d - at_f halfSizes d - tol)%float.
Definition center_hi (center halfSizes : list float) (tol : float) (d : Z) : float :=
  (at_f center d + at_f halfSizes d + tol)%float.

Lemma RayBoxDistanceAD_dim_closed (center halfSizes origin dir : list float)
    (tol : float) (d : Z) :
  IGM.RayBoxDistanceAD_dim center halfSizes origin dir tol d
  = if misses (center_lo center halfSizes tol) (center_hi center halfSizes tol)
              (center_lo center halfSizes tol) (center_hi center halfSizes tol)
              origin dir tol d
    then None
    else Some (slab_entry (center_lo center halfSizes tol) (center_hi center halfSizes tol)
                          origin dir d,
               slab_exit (center_lo center halfSizes tol) (center_hi center halfSizes tol)
                         origin dir d).
Proof.
  unfold IGM.RayBoxDistanceAD_dim, misses, beyond_slab, slab_entry, slab_exit,
    slab_t1, slab_t2, center_lo, center_hi.
  destruct (at_f dir d =? 0)%float; cbn [andb].
  - destruct (fneq tol 0).
    + destruct (at_f center d + at_f halfSizes d + tol <=? at_f origin d)%float; [done|].
      by destruct (at_f origin d <=? at_f center d - at_f halfSizes d - tol)%float.
    + destruct (at_f center d + at_f halfSizes d + tol <? at_f origin d)%float; [done|].
      by destruct (at_f origin d <? at_f center d - at_f halfSizes d - tol)%float.
  - by destruct (at_f dir d <? 0)%float.
Qed.

Lemma GetRayBoxDistanceAD_closed (D : Z) (center halfSizes origin dir : list float)
    (tol : float) :
  IGM.GetRayBoxDistanceAD D center halfSizes origin dir tol
  = if IGM.DoesBoxContainPointAD_center D center halfSizes origin tol then Some 0%float
    else slab_method D (center_lo center halfSizes tol) (center_hi center halfSizes tol)
                     (center_lo center halfSizes tol) (center_hi center halfSizes tol)
                     origin dir tol.
Proof.
  unfold IGM.GetRayBoxDistanceAD.
  destruct (IGM.DoesBoxContainPointAD_center D center halfSizes origin tol); [done|].
  unfold IGM.RayBoxDistanceAD_loop, slab_method.
  change (λ (acc : option (list float * list float)) (dimensionID : Z),
           arrays ← acc;
           t ← IGM.RayBoxDistanceAD_dim center halfSizes origin dir tol dimensionID;
           Some (arrays.1 ++ [t.1], arrays.2 ++ [t.2]))
    with (ray_step (IGM.RayBoxDistanceAD_dim center halfSizes origin dir tol)).
  rewrite (ray_loop_closed (center_lo center halfSizes tol) (center_hi center halfSizes tol)
             (center_lo center halfSizes tol) (center_hi center halfSizes tol)
             origin dir tol); [|apply RayBoxDistanceAD_dim_closed].
  by destruct (existsb _ _).
Qed.

End RayFacts.

(** An instance of C6: a ray without direction beside the unit square. *)
Lemma ray_box_distance_slab_witness :
  AD.GetRayBoxDistance 2 (mkBox [0%float; 0%float] [1%float; 1%float])
                       [2%float; 0.5%float] [0%float; 0%float] 0%float = Some 0%float
  ∨ AD.GetRayBoxDistance 2 (mkBox [0%float; 0%float] [1%float; 1%float])
                         [2%float; 0.5%float] [0%float; 0%float] 0%float = None.
Proof.
  apply (RayFacts.ray_box_distance_slab 2).
  - intros d Hd. assert (d = 0 ∨ d = 1) as [->| ->] by lia;
      repeat split; vm_compute; reflexivity.
  - intros d Hd. assert (d = 0 ∨ d = 1) as [->| ->] by lia; vm_compute; reflexivity.
Defined.

(** * Node keys: depth, sentinel bit, parents and children *)

Module KeyFacts.
Import SI SIFacts.

(** A key of depth [depth]: the sentinel bit at position [depth * D] and a
    location id below it. *)
Definition key_of_depth (D depth key : Z) : Prop :=
  2 ^ (depth * D) ≤ key < 2 ^ (depth * D + 1).

Section Keys.

Variable D : Z.
Hypothesis HD : 1 ≤ D ≤ 63.

Lemma pow_succ (n : Z) : 0 ≤ n → 2 ^ (n + 1) = 2 * 2 ^ n.
Proof. intros. rewrite Z.pow_add_r by lia. change (2 ^ 1) with 2. lia. Qed.

Lemma GetHash_key_of_depth (depth loc : Z) :
  0 ≤ depth ≤ MAX_THEORETICAL_DEPTH_ID D → 0 ≤ loc < 2 ^ (depth * D) →
  key_of_depth D depth (GetHash D depth loc).
Proof.
  intros Hd Hl. rewrite (GetHash_bits D HD) by done. unfold key_of_depth.
  rewrite pow_succ by nia. lia.
Qed.

Lemma key_of_depth_GetHash (depth key : Z) :
  0 ≤ depth ≤ MAX_THEORETICAL_DEPTH_ID D → key_of_depth D depth key →
  key = GetHash D depth (key - 2 ^ (depth * D)) ∧ 0 ≤ key - 2 ^ (depth * D) < 2 ^ (depth * D).
Proof.
  intros Hd Hk. unfold key_of_depth in Hk. rewrite pow_succ in Hk by nia.
  split; [|lia]. rewrite (GetHash_bits D HD) by (done || lia). lia.
Qed.

Lemma hash_round_trip (depth loc : Z) :
  0 ≤ depth ≤ MAX_THEORETICAL_DEPTH_ID D → 0 ≤ loc < 2 ^ (depth * D) →
  IsValidKey (GetHash D depth loc) = true
  ∧ GetDepthID D (GetHash D depth loc) = Some depth
  ∧ RemoveSentinelBit D (GetHash D depth loc) = Some loc.
Proof.
  intros Hd Hl.
  pose proof (GetDepthID_key D HD depth loc Hd Hl) as Hdepth.
  pose proof (max_depth_bits D HD) as HW.
  assert (Hpos : 0 < 2 ^ (depth * D)) by (apply Z.pow_pos_nonneg; nia).
  assert (Hlt : 2 ^ (depth * D) < 2 ^ LOCATION_BITS D) by (apply Z.pow_lt_mono_r; nia).
  split; [|split; [done|]].
  - rewrite (GetHash_bits D HD) by done. unfold IsValidKey. apply Z.ltb_lt. lia.
  - unfold RemoveSentinelBit. rewrite Hdepth.
    rewrite (GetHash_bits D HD) by done.
    destruct (IS_LINEAR_TREE D).
    + unfold bit_width.
      replace (2 ^ (depth * D) + loc =? 0) with false by (symmetry; apply Z.eqb_neq; lia).
      rewrite (log2_key D HD) by lia.
      replace (depth * D + 1 - 1) with (depth * D) by lia.
      rewrite (shlL_one D) by nia. f_equal. unfold wrapL.
      replace (2 ^ (depth * D) + loc - 2 ^ (depth * D)) with loc by lia.
      apply wrap_small. lia.
    + change (Some depth ≫= _) with
        (Some (wrapL D (2 ^ (depth * D) + loc - shlL D 1 (depth * D)))).
      rewrite (shlL_one D) by nia. f_equal. unfold wrapL.
      replace (2 ^ (depth * D) + loc - 2 ^ (depth * D)) with loc by lia.
      apply wrap_small. lia.
Qed.

(** *** Children *)

Lemma CHILD_MASK_ones : CHILD_MASK D = Z.ones D.
Proof. unfold CHILD_MASK. rewrite Z.ones_equiv. lia. Qed.

Lemma GetChildNodeKey_add (depth key childID : Z) :
  0 ≤ depth < MAX_THEORETICAL_DEPTH_ID D → key_of_depth D depth key →
  0 ≤ childID < CHILD_NO D →
  GetChildNodeKey (ChildKeyGenerator D key) childID = key * 2 ^ D + childID.
Proof.
  intros Hd Hk Hc. unfold key_of_depth in Hk. unfold CHILD_NO in Hc.
  pose proof (max_depth_bits D HD) as HW.
  assert (HpD : 0 < 2 ^ D) by (apply Z.pow_pos_nonneg; lia).
  assert (Hpk : 0 < 2 ^ (depth * D)) by (apply Z.pow_pos_nonneg; nia).
  unfold GetChildNodeKey, ChildKeyGenerator, shlL, shl.
  rewrite Z.shiftl_mul_pow2 by lia.
  rewrite wrap_small.
  - symmetry. apply add_disjoint. intros n Hn.
    destruct (Z.ltb_spec n D) as [Hlt|Hge].
    + rewrite <- Z.shiftl_mul_pow2 by lia. by rewrite Z.shiftl_spec_low.
    + rewrite (testbit_false_above childID D n) by lia. apply andb_false_r.
  - split; [nia|].
    assert (Hle : 2 ^ (depth * D + 1 + D) ≤ 2 ^ LOCATION_BITS D)
      by (apply Z.pow_le_mono_r; nia).
    rewrite Z.pow_add_r in Hle by nia. nia.
Qed.

(** X2.  A child key leads back to its parent and to its child id, and
    lies one level deeper. *)
Theorem child_key_round_trip (depth key childID : Z) :
  0 ≤ depth < MAX_THEORETICAL_DEPTH_ID D → key_of_depth D depth key →
  0 ≤ childID < CHILD_NO D →
  GetParentKey D (GetChildNodeKey (ChildKeyGenerator D key) childID) = key
  ∧ GetChildID D (GetChildNodeKey (ChildKeyGenerator D key) childID) = childID
  ∧ GetDepthID D (GetChildNodeKey (ChildKeyGenerator D key) childID) = Some (depth + 1).
Proof.
  intros Hd Hk Hc. rewrite (GetChildNodeKey_add depth) by done.
  unfold key_of_depth in Hk. unfold CHILD_NO in Hc.
  assert (HpD : 0 < 2 ^ D) by (apply Z.pow_pos_nonneg; lia).
  assert (Hpk : 0 < 2 ^ (depth * D)) by (apply Z.pow_pos_nonneg; nia).
  split; [|split].
  - unfold GetParentKey. rewrite Z.shiftr_div_pow2 by lia.
    rewrite Z.div_add_l by lia. rewrite Z.div_small by lia. lia.
  - unfold GetChildID, CastMortonIDToChildID. rewrite CHILD_MASK_ones, Z.land_ones by lia.
    rewrite Z.add_comm, Z.mod_add by lia. apply Z.mod_small. lia.
  - assert (Hkd : key_of_depth D (depth + 1) (key * 2 ^ D + childID)).
    { unfold key_of_depth.
      replace ((depth + 1) * D + 1) with (depth * D + 1 + D) by lia.
      replace ((depth + 1) * D) with (depth * D + D) by lia.
      rewrite !Z.pow_add_r by nia. rewrite Z.pow_add_r in Hk by nia. nia. }
    destruct (key_of_depth_GetHash (depth + 1) _ ltac:(lia) Hkd) as [E Hr].
    rewrite E. apply (GetDepthID_key D HD); [lia|exact Hr].
Qed.

(** *** Location ids of grid cells *)

(** X3.  The location id of a cell of a grid of resolution
    [2 ^ maxDepthID] has at most [maxDepthID * D] bits (the precondition of
    [GetHash]), and different cells have different location ids. *)
Theorem Encode_range_and_injective (maxDepthID : Z) (g0 g1 : list Z) :
  0 ≤ maxDepthID ≤ MAX_THEORETICAL_DEPTH_ID D →
  valid_grid D maxDepthID g0 → valid_grid D maxDepthID g1 →
  ∃ l0 l1, Encode D g0 = Some l0 ∧ Encode D g1 = Some l1
           ∧ 0 ≤ l0 < 2 ^ (maxDepthID * D)
           ∧ (l0 = l1 → g0 = g1).
Proof.
  intros Hm H0 H1.
  destruct (Encode_spec D HD maxDepthID g0 Hm H0) as (l0 & E0 & I0).
  destruct (Encode_spec D HD maxDepthID g1 Hm H1) as (l1 & E1 & I1).
  exists l0, l1. split; [done|]. split; [done|]. split.
  - apply (interleaved_bound D HD maxDepthID g0); [lia|done|done].
  - intros <-. by apply (interleaved_inj D HD maxDepthID g0 g1 l0).
Qed.

(** The cell containing [g] after [k] halvings of the resolution. *)
Definition coarser (k : Z) (g : list Z) : list Z := (fun x => Z.shiftr x k) <$> g.

Lemma at_dim_coarser (k : Z) (g : list Z) (d : Z) :
  at_dim (coarser k g) d = Z.shiftr (at_dim g d) k.
Proof.
  unfold at_dim, coarser. rewrite !nth_lookup, list_lookup_fmap.
  destruct (g !! Z.to_nat d); simpl; [done|]. by rewrite Z.shiftr_0_l.
Qed.

Lemma valid_grid_coarser (maxDepthID k : Z) (g : list Z) :
  0 ≤ k ≤ maxDepthID → valid_grid D maxDepthID g →
  valid_grid D (maxDepthID - k) (coarser k g).
Proof.
  intros Hk [Hl Hg]. split; [unfold coarser; by rewrite length_fmap|].
  intros d Hd. rewrite at_dim_coarser. specialize (Hg d Hd).
  rewrite Z.shiftr_div_pow2 by lia.
  assert (0 < 2 ^ k) by (apply Z.pow_pos_nonneg; lia).
  split; [apply Z.div_pos; lia|].
  apply Z.div_lt_upper_bound; [lia|].
  rewrite <- Z.pow_add_r by lia.
  replace (k + (maxDepthID - k)) with maxDepthID by lia. lia.
Qed.

Lemma interleaved_coarser (k : Z) (g : list Z) (loc : Z) :
  0 ≤ k → interleaved D g loc → interleaved D (coarser k g) (Z.shiftr loc (k * D)).
Proof.
  intros Hk [Hl Hb]. split; [apply Z.shiftr_nonneg; lia|].
  intros n Hn. rewrite Z.shiftr_spec by done. rewrite Hb by nia.
  rewrite at_dim_coarser, Z.shiftr_spec by (apply Z.div_pos; lia).
  rewrite Z.mod_add by lia. rewrite Z.div_add by lia. done.
Qed.

Lemma interleaved_unique (g : list Z) (l0 l1 : Z) :
  interleaved D g l0 → interleaved D g l1 → l0 = l1.
Proof.
  intros [_ H0] [_ H1]. apply Z.bits_inj'. intros n Hn. by rewrite H0, H1.
Qed.

Lemma iter_GetParentKey (k : nat) (key : Z) :
  Nat.iter k (GetParentKey D) key = Z.shiftr key (Z.of_nat k * D).
Proof.
  induction k as [|k IH]; [done|].
  rewrite Nat2Z.inj_succ, Nat.iter_succ, IH. unfold GetParentKey.
  rewrite Z.shiftr_shiftr by nia. f_equal. lia.
Qed.

(** X4.  The key reached from the key of a finest cell by going [k]
    parents up is the key, at depth [maxDepthID - k], of the cell with every
    grid id divided by [2 ^ k]. *)
Theorem ancestor_key_is_coarser_cell (maxDepthID : Z) (k : nat) (g : list Z) :
  0 ≤ Z.of_nat k ≤ maxDepthID → maxDepthID ≤ MAX_THEORETICAL_DEPTH_ID D →
  valid_grid D maxDepthID g →
  ∃ loc loc', Encode D g = Some loc
              ∧ Encode D (coarser (Z.of_nat k) g) = Some loc'
              ∧ Nat.iter k (GetParentKey D) (GetHash D maxDepthID loc)
                = GetHash D (maxDepthID - Z.of_nat k) loc'.
Proof.
  intros Hk Hm Hg. set (K := Z.of_nat k) in *.
  destruct (Encode_spec D HD maxDepthID g ltac:(lia) Hg) as (loc & E & I).
  pose proof (valid_grid_coarser maxDepthID K g Hk Hg) as Hg'.
  destruct (Encode_spec D HD (maxDepthID - K) (coarser K g) ltac:(lia) Hg')
    as (loc' & E' & I').
  exists loc, loc'. split; [done|]. split; [done|].
  pose proof (interleaved_coarser K g loc ltac:(lia) I) as I2.
  rewrite (interleaved_unique _ _ _ I' I2).
  pose proof (interleaved_bound D HD maxDepthID g loc ltac:(lia) Hg I) as Hb.
  pose proof (interleaved_bound D HD (maxDepthID - K) _ _ ltac:(lia) Hg' I2) as Hb'.
  rewrite iter_GetParentKey. fold K.
  rewrite !(GetHash_bits D HD) by (done || lia).
  rewrite !Z.shiftr_div_pow2 by nia.
  assert (HpK : 0 < 2 ^ (K * D)) by (apply Z.pow_pos_nonneg; nia).
  replace (2 ^ (maxDepthID * D)) with (2 ^ ((maxDepthID - K) * D) * 2 ^ (K * D)).
  - by rewrite Z.div_add_l by lia.
  - rewrite <- Z.pow_add_r by nia. f_equal. lia.
Qed.

(** X1.  The depth and the location id are read back from a key. *)
Theorem hash_depth_location_round_trip (depth loc : Z) :
  0 ≤ depth ≤ MAX_THEORETICAL_DEPTH_ID D → 0 ≤ loc < 2 ^ (depth * D) →
  IsValidKey (GetHash D depth loc) = true
  ∧ GetDepthID D (GetHash D depth loc) = Some depth
  ∧ RemoveSentinelBit D (GetHash D depth loc) = Some loc.
Proof. exact (hash_round_trip depth loc). Qed.

(** *** Decoding the key of a node above the finest level *)










End Keys.

(** X5.  [IsLess] is a strict weak ordering, as [std::sort] requires:
    irreflexive, transitive, and two values neither of which is less than the
    other agree on the location id and on the depth. *)
Theorem IsLess_strict_weak_order :
  (∀ a, IsLess a a = false)
  ∧ (∀ a b c, IsLess a b = true → IsLess b c = true → IsLess a c = true)
  ∧ (∀ a b, IsLess a b = false → IsLess b a = false →
            LocID a = LocID b ∧ DepthID a = DepthID b).
Proof.
  unfold IsLess. split; [|split].
  - intros a. apply orb_false_iff. split; [apply Z.ltb_irrefl|].
    apply andb_false_iff. right. apply Z.ltb_irrefl.
  - intros a b c Hab Hbc.
    apply orb_true_iff in Hab. apply orb_true_iff in Hbc. apply orb_true_iff.
    rewrite !andb_true_iff in *. rewrite !Z.ltb_lt in *. rewrite !Z.eqb_eq in *. lia.
  - intros a b Hab Hba.
    apply orb_false_iff in Hab as [H1 H2]. apply orb_false_iff in Hba as [H3 H4].
    apply Z.ltb_ge in H1, H3.
    assert (E : LocID a = LocID b) by lia.
    rewrite E, Z.eqb_refl in H2, H4. cbn [andb] in H2, H4.
    apply Z.ltb_ge in H2, H4. lia.
Qed.

End KeyFacts.

Lemma hash_depth_location_round_trip_witness :
  SI.IsValidKey (SI.GetHash 3 2 45) = true
  ∧ SI.GetDepthID 3 (SI.GetHash 3 2 45) = Some 2
  ∧ SI.RemoveSentinelBit 3 (SI.GetHash 3 2 45) = Some 45.
Proof.
  apply (KeyFacts.hash_depth_location_round_trip 3 ltac:(lia) 2 45).
  - vm_compute. split; discriminate.
  - vm_compute. split; [discriminate|reflexivity].
Defined.

Lemma child_key_round_trip_witness :
  SI.GetParentKey 3 (SI.GetChildNodeKey (SI.ChildKeyGenerator 3 9) 5) = 9
  ∧ SI.GetChildID 3 (SI.GetChildNodeKey (SI.ChildKeyGenerator 3 9) 5) = 5
  ∧ SI.GetDepthID 3 (SI.GetChildNodeKey (SI.ChildKeyGenerator 3 9) 5) = Some 2.
Proof.
  apply (KeyFacts.child_key_round_trip 3 ltac:(lia) 1 9 5).
  - vm_compute. split; [discriminate|reflexivity].
  - vm_compute. split; [discriminate|reflexivity].
  - vm_compute. split; [discriminate|reflexivity].
Defined.

Lemma Encode_range_and_injective_witness :
  ∃ l0 l1, SI.Encode 3 [5; 3; 7] = Some l0 ∧ SI.Encode 3 [5; 2; 7] = Some l1
           ∧ 0 ≤ l0 < 2 ^ (4 * 3)
           ∧ (l0 = l1 → [5; 3; 7] = [5; 2; 7]).
Proof.
  apply (KeyFacts.Encode_range_and_injective 3 ltac:(lia) 4).
  - change (SI.MAX_THEORETICAL_DEPTH_ID 3) with 10. lia.
  - split; [reflexivity|]. intros d Hd.
    assert (d = 0 ∨ d = 1 ∨ d = 2) as [->|[->| ->]] by lia;
      vm_compute; (split; [discriminate|reflexivity]).
  - split; [reflexivity|]. intros d Hd.
    assert (d = 0 ∨ d = 1 ∨ d = 2) as [->|[->| ->]] by lia;
      vm_compute; (split; [discriminate|reflexivity]).
Defined.

Lemma ancestor_key_is_coarser_cell_witness :
  ∃ loc loc', SI.Encode 3 [5; 3; 7] = Some loc
              ∧ SI.Encode 3 (KeyFacts.coarser (Z.of_nat 2) [5; 3; 7]) = Some loc'
              ∧ Nat.iter 2 (SI.GetParentKey 3) (SI.GetHash 3 4 loc)
                = SI.GetHash 3 (4 - Z.of_nat 2) loc'.
Proof.
  apply (KeyFacts.ancestor_key_is_coarser_cell 3 ltac:(lia) 4 2).
  - vm_compute. split; discriminate.
  - vm_compute. discriminate.
  - split; [reflexivity|]. intros d Hd.
    assert (d = 0 ∨ d = 1 ∨ d = 2) as [->|[->| ->]] by lia;
      vm_compute; (split; [discriminate|reflexivity]).
Defined.


(** * Nodes: the ordered child list and the entity list *)

Module NodeFacts.
Import NodeOps.

(** The children of a node are kept in strictly ascending order. *)
Definition children_sorted (n : Node) : Prop := StronglySorted Z.lt (m_children n).

Lemma lower_bound_split (l : list Z) (k : Z) :
  StronglySorted Z.lt l →
  Forall (fun c => c < k) (take (lower_bound l k) l)
  ∧ Forall (fun c => k ≤ c) (drop (lower_bound l k) l).
Proof.
  induction 1 as [|c l Hs IH Hall]; [by split|].
  cbn [lower_bound]. destruct (Z.ltb_spec c k) as [Hlt|Hge].
  - destruct IH as [IH1 IH2]. split; [by constructor|done].
  - split; [constructor|]. constructor; [done|].
    eapply Forall_impl; [exact Hall|]. intros x Hx. simpl in Hx. lia.
Qed.

Lemma lower_bound_le (l : list Z) (k : Z) : (lower_bound l k ≤ length l)%nat.
Proof.
  induction l as [|c l IH]; [done|]. cbn [lower_bound length].
  destruct (c <? k); lia.
Qed.

Lemma lookup_lower_bound (l : list Z) (k : Z) :
  l !! lower_bound l k = head (drop (lower_bound l k) l).
Proof. by rewrite head_lookup, lookup_drop, Nat.add_0_r. Qed.

Lemma sorted_drop (l : list Z) (i : nat) :
  StronglySorted Z.lt l → StronglySorted Z.lt (drop i l).
Proof.
  intros H. rewrite <- (take_drop i l) in H. by apply StronglySorted_app_1_r in H.
Qed.

Lemma sorted_take (l : list Z) (i : nat) :
  StronglySorted Z.lt l → StronglySorted Z.lt (take i l).
Proof.
  intros H. rewrite <- (take_drop i l) in H. by apply StronglySorted_app_1_l in H.
Qed.

(** The element at the lower bound, when it is [k], is the only occurrence
    of [k]; otherwise [k] does not occur. *)
Lemma lower_bound_elem_of (l : list Z) (k : Z) :
  StronglySorted Z.lt l →
  k ∈ l ↔ l !! lower_bound l k = Some k.
Proof.
  intros Hs. destruct (lower_bound_split l k Hs) as [Ht Hd].
  split.
  - intros Hk. rewrite <- (take_drop (lower_bound l k) l) in Hk.
    apply elem_of_app in Hk as [Hk|Hk].
    + rewrite Forall_forall in Ht. specialize (Ht k Hk). lia.
    + rewrite lookup_lower_bound.
      pose proof (sorted_drop l (lower_bound l k) Hs) as Hsd.
      destruct (drop (lower_bound l k) l) as [|c rest]; [by apply elem_of_nil in Hk|].
      simpl. f_equal.
      apply StronglySorted_inv in Hsd as [_ Hall].
      apply Forall_cons in Hd as [Hc _].
      apply elem_of_cons in Hk as [->|Hk]; [done|].
      rewrite Forall_forall in Hall. specialize (Hall k Hk). lia.
  - intros Hl. by apply list_elem_of_lookup_2 in Hl.
Qed.

(** X6.  On an ascending child list [HasChild] (a binary search) decides
    membership. *)
Theorem HasChild_iff_listed (n : Node) (childKey : Z) :
  children_sorted n →
  HasChild n childKey = true ↔ childKey ∈ m_children n.
Proof.
  intros Hs. unfold HasChild. rewrite (lower_bound_elem_of _ _ Hs).
  destruct (lower_bound_split (m_children n) childKey Hs) as [_ Hd].
  rewrite lookup_lower_bound in *.
  destruct (drop (lower_bound (m_children n) childKey) (m_children n)) as [|c rest];
    simpl; [done|].
  apply Forall_cons in Hd as [Hc _].
  rewrite negb_true_iff, Z.ltb_ge. split; [intros; f_equal; lia|intros [= ->]; lia].
Qed.

Lemma AddChildInOrder_spec (n : Node) (childKey : Z) :
  children_sorted n →
  children_sorted (AddChildInOrder n childKey)
  ∧ (∀ c, c ∈ m_children (AddChildInOrder n childKey) ↔ c = childKey ∨ c ∈ m_children n)
  ∧ m_entities (AddChildInOrder n childKey) = m_entities n.
Proof.
  intros Hs. unfold children_sorted in *.
  assert (Hins :
    m_children n !! lower_bound (m_children n) childKey ≠ Some childKey →
    StronglySorted Z.lt
      (take (lower_bound (m_children n) childKey) (m_children n)
       ++ childKey :: drop (lower_bound (m_children n) childKey) (m_children n))
    ∧ ∀ c, c ∈ take (lower_bound (m_children n) childKey) (m_children n)
               ++ childKey :: drop (lower_bound (m_children n) childKey) (m_children n)
           ↔ c = childKey ∨ c ∈ m_children n).
  { intros Hne. destruct (lower_bound_split _ childKey Hs) as [Ht Hd].
    pose proof (sorted_drop _ (lower_bound (m_children n) childKey) Hs) as Hsd.
    pose proof (sorted_take _ (lower_bound (m_children n) childKey) Hs) as Hst.
    rewrite lookup_lower_bound in Hne.
    assert (Hgt : Forall (Z.lt childKey)
                    (drop (lower_bound (m_children n) childKey) (m_children n))).
    { destruct (drop (lower_bound (m_children n) childKey) (m_children n)) as [|c rest];
        [constructor|].
      apply StronglySorted_inv in Hsd as [_ Hall]. apply Forall_cons in Hd as [Hc _].
      assert (childKey < c) by (simpl in Hne; assert (c ≠ childKey) by congruence; lia).
      constructor; [done|]. eapply Forall_impl; [exact Hall|].
      intros x Hx. simpl in Hx. lia. }
    split.
    - apply StronglySorted_app_2; [|done|apply SSorted_cons; [exact Hsd|exact Hgt]].
      intros x1 x2 H1 H2. rewrite Forall_forall in Ht. specialize (Ht x1 H1).
      apply elem_of_cons in H2 as [->|H2]; [done|].
      rewrite Forall_forall in Hgt. specialize (Hgt x2 H2). lia.
    - intros c. rewrite elem_of_app, elem_of_cons.
      rewrite <- (take_drop (lower_bound (m_children n) childKey) (m_children n)) at 5.
      rewrite elem_of_app. tauto. }
  unfold AddChildInOrder.
  destruct (m_children n !! lower_bound (m_children n) childKey) as [c|] eqn:El.
  - destruct (Z.eqb_spec c childKey) as [->|Hne].
    + split; [done|]. split; [|done]. intros c. split; [by right|].
      intros [->|H]; [|done]. by apply list_elem_of_lookup_2 in El.
    + destruct Hins as [H1 H2]; [congruence|]. split; [exact H1|]. split; [exact H2|done].
  - destruct Hins as [H1 H2]; [congruence|]. split; [exact H1|]. split; [exact H2|done].
Qed.

(** X7.  [AddChildInOrder] keeps the child list ascending and adds exactly
    the new key; the entities are untouched. *)
Theorem AddChildInOrder_sorted_insert (n : Node) (childKey : Z) :
  children_sorted n →
  children_sorted (AddChildInOrder n childKey)
  ∧ (∀ c, c ∈ m_children (AddChildInOrder n childKey) ↔ c = childKey ∨ c ∈ m_children n)
  ∧ m_entities (AddChildInOrder n childKey) = m_entities n.
Proof. exact (AddChildInOrder_spec n childKey). Qed.

Lemma delete_lower_bound (l : list Z) (k c : Z) :
  StronglySorted Z.lt l → l !! lower_bound l k = Some c →
  StronglySorted Z.lt (delete (lower_bound l k) l)
  ∧ ∀ x, x ∈ delete (lower_bound l k) l ↔ x ∈ l ∧ x ≠ c.
Proof.
  intros Hs Hl. set (i := lower_bound l k) in *.
  pose proof (take_drop_middle _ _ _ Hl) as Hmid.
  rewrite delete_take_drop.
  assert (Hin : ∀ x, x ∈ l ↔ x ∈ take i l ∨ x = c ∨ x ∈ drop (S i) l).
  { intros x. rewrite <- Hmid at 1. by rewrite elem_of_app, elem_of_cons. }
  rewrite <- Hmid in Hs.
  apply StronglySorted_app in Hs as (Hlt & Hst & Hsd).
  apply StronglySorted_inv in Hsd as [Hsd Hall].
  split.
  - apply StronglySorted_app_2; [|done|done].
    intros x1 x2 H1 H2. apply Hlt; [done|]. by apply elem_of_cons; right.
  - intros x. rewrite Hin, elem_of_app.
    split.
    + intros [H|H].
      * split; [by left|]. intros ->.
        specialize (Hlt c c H ltac:(by apply elem_of_cons; left)). lia.
      * split; [by right; right|]. intros ->.
        rewrite Forall_forall in Hall. specialize (Hall c H). lia.
    + intros [[H|[H|H]] Hne]; [by left|done|by right].
Qed.

Lemma RemoveChild_spec (n : Node) (childKey : Z) :
  children_sorted n → childKey ∈ m_children n →
  children_sorted (RemoveChild n childKey)
  ∧ (∀ c, c ∈ m_children (RemoveChild n childKey) ↔ c ∈ m_children n ∧ c ≠ childKey)
  ∧ m_entities (RemoveChild n childKey) = m_entities n.
Proof.
  intros Hs Hk. unfold children_sorted in *.
  apply (lower_bound_elem_of _ _ Hs) in Hk.
  destruct (delete_lower_bound _ _ _ Hs Hk) as [H1 H2].
  unfold RemoveChild. rewrite Hk. split; [exact H1|]. split; [exact H2|done].
Qed.

(** X8.  [RemoveChild] of a listed key removes that key and nothing else,
    and keeps the list ascending. *)
Theorem RemoveChild_listed (n : Node) (childKey : Z) :
  children_sorted n → childKey ∈ m_children n →
  children_sorted (RemoveChild n childKey)
  ∧ (∀ c, c ∈ m_children (RemoveChild n childKey) ↔ c ∈ m_children n ∧ c ≠ childKey)
  ∧ m_entities (RemoveChild n childKey) = m_entities n.
Proof. exact (RemoveChild_spec n childKey). Qed.

(** X9.  [RemoveChild] of a key that is not listed: nothing happens when
    every child is below the key; otherwise the least child above the key is
    erased. *)
Theorem RemoveChild_not_listed (n : Node) (childKey : Z) :
  children_sorted n → childKey ∉ m_children n →
  ((∀ c, c ∈ m_children n → c < childKey) → RemoveChild n childKey = n)
  ∧ (∀ c, c ∈ m_children n → childKey < c →
          (∀ x, x ∈ m_children n → childKey < x → c ≤ x) →
          ∀ x, x ∈ m_children (RemoveChild n childKey) ↔ x ∈ m_children n ∧ x ≠ c).
Proof.
  intros Hs Hk. unfold children_sorted in *.
  destruct (lower_bound_split _ childKey Hs) as [Ht Hd].
  unfold RemoveChild.
  destruct (m_children n !! lower_bound (m_children n) childKey) as [c0|] eqn:El.
  - assert (Hc0 : childKey < c0).
    { assert (c0 ≠ childKey).
      { intros ->. apply Hk. by apply list_elem_of_lookup_2 in El. }
      rewrite lookup_lower_bound in El.
      destruct (drop (lower_bound (m_children n) childKey) (m_children n)) as [|y rest];
        [done|].
      simpl in El. injection El as ->. apply Forall_cons in Hd as [Hd _]. lia. }
    pose proof (list_elem_of_lookup_2 _ _ _ El) as Hin0.
    split.
    + intros Hall. specialize (Hall c0 Hin0). lia.
    + intros c Hc Hgt Hleast.
      assert (c = c0) as ->.
      { specialize (Hleast c0 Hin0 Hc0).
        rewrite <- (take_drop (lower_bound (m_children n) childKey) (m_children n)) in Hc.
        apply elem_of_app in Hc as [Hc|Hc].
        - rewrite Forall_forall in Ht. specialize (Ht c Hc). lia.
        - pose proof (sorted_drop _ (lower_bound (m_children n) childKey) Hs) as Hsd.
          rewrite lookup_lower_bound in El.
          destruct (drop (lower_bound (m_children n) childKey) (m_children n))
            as [|y rest]; [done|].
          simpl in El. injection El as ->.
          apply StronglySorted_inv in Hsd as [_ Hall].
          apply elem_of_cons in Hc as [->|Hc]; [done|].
          rewrite Forall_forall in Hall. specialize (Hall c Hc). lia. }
      destruct (delete_lower_bound _ _ _ Hs El) as [_ H2]. exact H2.
  - split; [done|]. intros c Hc Hgt _.
    apply lookup_ge_None in El.
    rewrite take_ge in Ht by done.
    rewrite Forall_forall in Ht. specialize (Ht c Hc). lia.
Qed.

(** *** Entities *)

Lemma filter_length_eq {A} (P : A → Prop) `{!∀ x, Decision (P x)} (l : list A) :
  length (filter P l) = length l → filter P l = l.
Proof.
  induction l as [|x l IH]; [done|].
  rewrite filter_cons. destruct (decide (P x)) as [HP|HP]; simpl.
  - intros [= E]. by rewrite IH.
  - intros E. pose proof (length_filter P l). lia.
Qed.

Lemma filter_not_elem_of (l : list Z) (x : Z) :
  x ∉ l → filter (fun id => id ≠ x) l = l.
Proof.
  induction l as [|y l IH]; [done|]. intros Hnin.
  apply not_elem_of_cons in Hnin as [Hne Hnin].
  rewrite filter_cons. destruct (decide (y ≠ x)) as [_|E]; [by rewrite IH|].
  exfalso. apply E. congruence.
Qed.

Lemma RemoveEntity_spec (n : Node) (entityID : Z) :
  (fst (RemoveEntity n entityID) = true ↔ entityID ∈ m_entities n)
  ∧ m_entities (snd (RemoveEntity n entityID))
    = filter (fun id => id ≠ entityID) (m_entities n)
  ∧ m_children (snd (RemoveEntity n entityID)) = m_children n.
Proof.
  unfold RemoveEntity.
  destruct (Nat.eqb_spec (length (filter (fun id => id ≠ entityID) (m_entities n)))
                         (length (m_entities n))) as [E|N]; simpl.
  - apply filter_length_eq in E. split; [|by rewrite E].
    split; [done|]. intros Hin. rewrite <- E in Hin.
    apply list_elem_of_filter in Hin as [Hne _]. done.
  - split; [|done]. split; [intros _|done].
    destruct (decide (entityID ∈ m_entities n)) as [|Hnin]; [done|].
    exfalso. apply N. f_equal. by apply filter_not_elem_of.
Qed.

(** X10.  [RemoveEntity] returns [true] exactly when the id was listed;
    afterwards the id does not occur, the other ids keep their order, and the
    children are untouched. *)
Theorem RemoveEntity_result (n : Node) (entityID : Z) :
  (fst (RemoveEntity n entityID) = true ↔ entityID ∈ m_entities n)
  ∧ m_entities (snd (RemoveEntity n entityID))
    = filter (fun id => id ≠ entityID) (m_entities n)
  ∧ m_children (snd (RemoveEntity n entityID)) = m_children n.
Proof. exact (RemoveEntity_spec n entityID). Qed.

(** X11.  [DecreaseEntityIDs] follows the erasure of an element from the
    contiguous container: when element [removedEntityID] is deleted from the
    container, the updated ids of a node select the same elements as the
    old ids did. *)
Theorem DecreaseEntityIDs_follows_container {A} (n : Node) (removedEntityID : Z)
    (container : list A) :
  0 ≤ removedEntityID →
  Forall (fun id => 0 ≤ id ∧ id ≠ removedEntityID) (m_entities n) →
  (fun id => delete (Z.to_nat removedEntityID) container !! Z.to_nat id)
    <$> m_entities (DecreaseEntityIDs n removedEntityID)
  = (fun id => container !! Z.to_nat id) <$> m_entities n.
Proof.
  intros Hr Hall. unfold DecreaseEntityIDs. cbn [m_entities].
  induction Hall as [|id l [Hid Hne] Hall IH]; [done|].
  rewrite !fmap_cons. f_equal; [|exact IH].
  destruct (Z.ltb_spec removedEntityID id) as [Hlt|Hge]; cbn [Z.b2z].
  - rewrite list_lookup_delete_ge by lia. f_equal. lia.
  - rewrite list_lookup_delete_lt by lia. f_equal. lia.
Qed.

End NodeFacts.

Lemma HasChild_iff_listed_witness :
  NodeOps.HasChild (mkNode [] [9; 11; 14] []) 11 = true
  ↔ 11 ∈ m_children (mkNode [] [9; 11; 14] []).
Proof.
  apply NodeFacts.HasChild_iff_listed.
  unfold NodeFacts.children_sorted. cbn [m_children].
  repeat (apply SSorted_cons || apply SSorted_nil || (repeat constructor; lia)).
Defined.

Lemma AddChildInOrder_sorted_insert_witness :
  NodeFacts.children_sorted (NodeOps.AddChildInOrder (mkNode [] [9; 14] []) 11)
  ∧ (∀ c, c ∈ m_children (NodeOps.AddChildInOrder (mkNode [] [9; 14] []) 11)
          ↔ c = 11 ∨ c ∈ m_children (mkNode [] [9; 14] []))
  ∧ m_entities (NodeOps.AddChildInOrder (mkNode [] [9; 14] []) 11)
    = m_entities (mkNode [] [9; 14] []).
Proof.
  apply NodeFacts.AddChildInOrder_sorted_insert.
  unfold NodeFacts.children_sorted. cbn [m_children].
  repeat (apply SSorted_cons || apply SSorted_nil || (repeat constructor; lia)).
Defined.

Lemma RemoveChild_listed_witness :
  NodeFacts.children_sorted (NodeOps.RemoveChild (mkNode [] [9; 11; 14] []) 11)
  ∧ (∀ c, c ∈ m_children (NodeOps.RemoveChild (mkNode [] [9; 11; 14] []) 11)
          ↔ c ∈ m_children (mkNode [] [9; 11; 14] []) ∧ c ≠ 11)
  ∧ m_entities (NodeOps.RemoveChild (mkNode [] [9; 11; 14] []) 11)
    = m_entities (mkNode [] [9; 11; 14] []).
Proof.
  apply NodeFacts.RemoveChild_listed.
  - unfold NodeFacts.children_sorted. cbn [m_children].
    repeat (apply SSorted_cons || apply SSorted_nil || (repeat constructor; lia)).
  - cbn [m_children]. apply elem_of_cons. right. apply elem_of_cons. by left.
Defined.

Lemma RemoveChild_not_listed_witness :
  ((∀ c, c ∈ m_children (mkNode [] [9; 14] []) → c < 11)
   → NodeOps.RemoveChild (mkNode [] [9; 14] []) 11 = mkNode [] [9; 14] [])
  ∧ (∀ c, c ∈ m_children (mkNode [] [9; 14] []) → 11 < c →
          (∀ x, x ∈ m_children (mkNode [] [9; 14] []) → 11 < x → c ≤ x) →
          ∀ x, x ∈ m_children (NodeOps.RemoveChild (mkNode [] [9; 14] []) 11)
               ↔ x ∈ m_children (mkNode [] [9; 14] []) ∧ x ≠ c).
Proof.
  apply NodeFacts.RemoveChild_not_listed.
  - unfold NodeFacts.children_sorted. cbn [m_children].
    repeat (apply SSorted_cons || apply SSorted_nil || (repeat constructor; lia)).
  - cbn [m_children]. intros H.
    apply elem_of_cons in H as [H|H]; [lia|].
    apply elem_of_cons in H as [H|H]; [lia|]. by apply elem_of_nil in H.
Defined.

Lemma DecreaseEntityIDs_follows_container_witness :
  (fun id => delete (Z.to_nat 2) [10; 11; 12; 13; 14; 15] !! Z.to_nat id)
    <$> m_entities (NodeOps.DecreaseEntityIDs (mkNode [0; 3; 5] [] []) 2)
  = (fun id => [10; 11; 12; 13; 14; 15] !! Z.to_nat id)
      <$> m_entities (mkNode [0; 3; 5] [] []).
Proof.
  apply NodeFacts.DecreaseEntityIDs_follows_container; [lia|].
  cbn [m_entities]. repeat constructor; lia.
Defined.

(** * The trees: insertion, lookup and erasure *)

Module TreeFacts.
Import SI SIFacts KeyFacts NodeFacts.

Lemma forallb_false_elem {A} (f : A → bool) (l : list A) :
  forallb f l = false ↔ ∃ x, x ∈ l ∧ f x = false.
Proof.
  induction l as [|x l IH]; simpl.
  - split; [done|]. intros (x & Hx & _). by apply elem_of_nil in Hx.
  - rewrite andb_false_iff, IH. split.
    + intros [H|(y & Hy & Hf)].
      * exists x. split; [by apply elem_of_cons; left|done].
      * exists y. split; [by apply elem_of_cons; right|done].
    + intros (y & Hy & Hf). apply elem_of_cons in Hy as [->|Hy]; [by left|].
      right. by exists y.
Qed.

Lemma forallb_seqZ_false (f : Z → bool) (n : Z) :
  forallb f (seqZ 0 n) = false ↔ ∃ d, 0 ≤ d < n ∧ f d = false.
Proof.
  rewrite forallb_false_elem. split; intros (d & Hd & Hf); exists d.
  - apply elem_of_seqZ in Hd. split; [lia|done].
  - split; [apply elem_of_seqZ; lia|done].
Qed.

(** ** Geometry outside the handled space *)

(** The point fails one of the two comparisons of [DoesBoxContainPointAD]
    in some dimension (a NaN coordinate fails both). *)
Definition point_outside (D : Z) (world : Box) (point : list float) : Prop :=
  ∃ d, 0 ≤ d < D
       ∧ ((at_f (Min world) d <=? at_f point d)%float = false
          ∨ (at_f point d <=? at_f (Max world) d)%float = false).

(** In some dimension a side of the box lies beyond a side of the world. *)
Definition box_outside (D : Z) (world box : Box) : Prop :=
  ∃ d, 0 ≤ d < D
       ∧ ((at_f (Min box) d <? at_f (Min world) d)%float = true
          ∨ (at_f (Max world) d <? at_f (Min box) d)%float = true
          ∨ (at_f (Max box) d <? at_f (Min world) d)%float = true
          ∨ (at_f (Max world) d <? at_f (Max box) d)%float = true).

Lemma fneq_0_0 : fneq 0 0 = false.
Proof. reflexivity. Qed.

Lemma DoesBoxContainPointAD_outside (D : Z) (world : Box) (point : list float) :
  IGM.DoesBoxContainPointAD D world point 0 = false ↔ point_outside D world point.
Proof.
  unfold IGM.DoesBoxContainPointAD. rewrite fneq_0_0.
  rewrite forallb_seqZ_false. unfold point_outside.
  split; intros (d & Hd & H); exists d; (split; [done|]).
  - by apply andb_false_iff in H.
  - by apply andb_false_iff.
Qed.

Lemma DoesRangeContainBoxAD_outside (D : Z) (world box : Box) :
  IGM.DoesRangeContainBoxAD D world box = false ↔ box_outside D world box.
Proof.
  unfold IGM.DoesRangeContainBoxAD. rewrite forallb_seqZ_false. unfold box_outside.
  split; intros (d & Hd & H); exists d; (split; [done|]).
  - unfold IGM.DoesRangeContainBox in H.
    destruct (at_f (Min box) d <? at_f (Min world) d)%float; [by left|].
    destruct (at_f (Max world) d <? at_f (Min box) d)%float; [by right; left|].
    destruct (at_f (Max box) d <? at_f (Min world) d)%float; [by right; right; left|].
    destruct (at_f (Max world) d <? at_f (Max box) d)%float; [by right; right; right|].
    done.
  - unfold IGM.DoesRangeContainBox.
    destruct H as [->|[->|[->| ->]]]; cbn [orb]; try done.
    + by rewrite orb_true_r.
    + by destruct (_ || _).
    + rewrite orb_true_r. by destruct (_ || _).
Qed.

Section Trees.

Variable D : Z.

(** X12.  A point outside the handled space is refused by every insertion
    and update of the point tree, and the tree is left as it was. *)
Theorem point_outside_is_refused (t : OrthoTree) (entityID : Z)
    (oldPoint newPoint : list float) (points : list (list float))
    (doInsertToLeaf : bool) (iteration : list Z) :
  point_outside D (m_boxSpace (m_grid t)) newPoint →
  PointTree.Insert D t entityID newPoint doInsertToLeaf = Some (false, t)
  ∧ PointTree.InsertWithRebalancing D t entityID newPoint points = Some (false, t)
  ∧ PointTree.Update_id D iteration t entityID newPoint doInsertToLeaf = Some (false, t)
  ∧ PointTree.Update_old D t entityID oldPoint newPoint doInsertToLeaf = Some (false, t)
  ∧ PointTree.Update_id_rebalancing D iteration t entityID newPoint points = Some (false, t)
  ∧ PointTree.Update_old_rebalancing D t entityID oldPoint newPoint points
    = Some (false, t).
Proof.
  intros H. apply DoesBoxContainPointAD_outside in H.
  unfold PointTree.Insert, PointTree.InsertWithRebalancing, PointTree.Update_id,
    PointTree.Update_old, PointTree.Update_id_rebalancing,
    PointTree.Update_old_rebalancing.
  rewrite H. cbn [negb]. done.
Qed.

(** X13.  A box that is not inside the handled space is refused by every
    insertion and update of the box tree, and the tree is left as it was. *)
Theorem box_outside_is_refused (DO_SPLIT_PARENT_ENTITIES : bool) (t : OrthoTree)
    (entityID : Z) (oldBox newBox : Box) (boxes : list Box)
    (doInsertToLeaf : bool) (iteration : list Z) :
  box_outside D (m_boxSpace (m_grid t)) newBox →
  BoxTree.Insert D DO_SPLIT_PARENT_ENTITIES t entityID newBox doInsertToLeaf
  = Some (false, t)
  ∧ BoxTree.InsertWithRebalancing D DO_SPLIT_PARENT_ENTITIES t entityID newBox boxes
    = Some (false, t)
  ∧ BoxTree.Update_id D DO_SPLIT_PARENT_ENTITIES iteration t entityID newBox doInsertToLeaf
    = Some (false, t)
  ∧ BoxTree.Update_old D DO_SPLIT_PARENT_ENTITIES t entityID oldBox newBox doInsertToLeaf
    = Some (false, t)
  ∧ BoxTree.Update_id_rebalancing D DO_SPLIT_PARENT_ENTITIES iteration t entityID newBox
      boxes = Some (false, t)
  ∧ BoxTree.Update_old_rebalancing D DO_SPLIT_PARENT_ENTITIES t entityID oldBox newBox
      boxes = Some (false, t).
Proof.
  intros H. apply DoesRangeContainBoxAD_outside in H.
  unfold BoxTree.Insert, BoxTree.InsertWithRebalancing, BoxTree.Update_id,
    BoxTree.Update_old, BoxTree.Update_id_rebalancing, BoxTree.Update_old_rebalancing.
  rewrite H. cbn [negb]. done.
Qed.

(** ** Looking up the smallest node of a key *)

Hypothesis HD : 1 ≤ D ≤ 63.

(** The key [j] levels above [key]. *)
Definition ancestor (key j : Z) : Z := Z.shiftr key (j * D).

Lemma ancestor_0 (key : Z) : ancestor key 0 = key.
Proof. unfold ancestor. by rewrite Z.mul_0_l, Z.shiftr_0_r. Qed.

Lemma ancestor_parent (key j : Z) :
  0 ≤ j → ancestor (GetParentKey D key) j = ancestor key (j + 1).
Proof.
  intros Hj. unfold ancestor, GetParentKey. rewrite Z.shiftr_shiftr by nia.
  f_equal. lia.
Qed.

Lemma ancestor_ancestor (key i j : Z) :
  0 ≤ i → 0 ≤ j → ancestor (ancestor key i) j = ancestor key (i + j).
Proof.
  intros Hi Hj. unfold ancestor. rewrite Z.shiftr_shiftr by nia. f_equal. lia.
Qed.

Lemma key_of_depth_ancestor (d key j : Z) :
  0 ≤ j ≤ d → key_of_depth D d key → key_of_depth D (d - j) (ancestor key j).
Proof.
  intros Hj Hk. unfold key_of_depth, ancestor in *.
  rewrite Z.shiftr_div_pow2 by nia.
  assert (Hp : 0 < 2 ^ (j * D)) by (apply Z.pow_pos_nonneg; nia).
  assert (E1 : 2 ^ (d * D) = 2 ^ ((d - j) * D) * 2 ^ (j * D)).
  { rewrite <- Z.pow_add_r by nia. f_equal. lia. }
  assert (E2 : 2 ^ (d * D + 1) = 2 ^ ((d - j) * D + 1) * 2 ^ (j * D)).
  { rewrite <- Z.pow_add_r by nia. f_equal. lia. }
  split.
  - apply Z.div_le_lower_bound; lia.
  - apply Z.div_lt_upper_bound; lia.
Qed.

Lemma key_of_depth_pos (d key : Z) : 0 ≤ d → key_of_depth D d key → 0 < key.
Proof.
  intros Hd [Hk _]. assert (0 < 2 ^ (d * D)) by (apply Z.pow_pos_nonneg; nia). lia.
Qed.

Lemma key_of_depth_0 (key : Z) : key_of_depth D 0 key ↔ key = 1.
Proof.
  unfold key_of_depth. rewrite Z.mul_0_l, Z.add_0_l.
  change (2 ^ 0) with 1. change (2 ^ 1) with 2. lia.
Qed.

Lemma key_of_depth_unique (d1 d2 key : Z) :
  0 ≤ d1 → 0 ≤ d2 → key_of_depth D d1 key → key_of_depth D d2 key → d1 = d2.
Proof.
  intros H1 H2 [Ha Hb] [Hc Hd].
  destruct (Z.lt_trichotomy d1 d2) as [Hlt|[->|Hgt]]; [|done|].
  - assert (2 ^ (d1 * D + 1) ≤ 2 ^ (d2 * D)) by (apply Z.pow_le_mono_r; nia). lia.
  - assert (2 ^ (d2 * D + 1) ≤ 2 ^ (d1 * D)) by (apply Z.pow_le_mono_r; nia). lia.
Qed.

Lemma key_fuel_depth (d key : Z) :
  0 ≤ d → key_of_depth D d key → Base.key_fuel key = Z.to_nat (d * D + 1).
Proof.
  intros Hd Hk. pose proof (key_of_depth_pos d key Hd Hk).
  unfold Base.key_fuel, bit_width.
  replace (key =? 0) with false by (symmetry; apply Z.eqb_neq; lia).
  f_equal. f_equal. apply Z.log2_unique; [nia|].
  unfold key_of_depth in Hk. rewrite Z.pow_succ_r by nia.
  rewrite pow_succ in Hk by nia. lia.
Qed.

Lemma FindSmallestNodeKey_loop_found (t : OrthoTree) (j : nat) :
  ∀ (fuel : nat) (key : Z),
    (j ≤ fuel)%nat →
    (∀ i, 0 ≤ i ≤ Z.of_nat j → 0 < ancestor key i) →
    Base.HasNode t (ancestor key (Z.of_nat j)) = true →
    (∀ i, 0 ≤ i < Z.of_nat j → Base.HasNode t (ancestor key i) = false) →
    Base.FindSmallestNodeKey_loop D fuel t key = ancestor key (Z.of_nat j).
Proof.
  induction j as [|j IH]; intros fuel key Hf Hpos Hin Hout.
  - change (Z.of_nat 0) with 0 in *. rewrite ancestor_0 in *.
    specialize (Hpos 0 ltac:(lia)). rewrite ancestor_0 in Hpos.
    destruct fuel; simpl; unfold IsValidKey;
      (replace (0 <? key) with true by (symmetry; apply Z.ltb_lt; lia));
      by rewrite Hin.
  - destruct fuel as [|fuel]; [lia|].
    pose proof (Hpos 0 ltac:(lia)) as Hk. rewrite ancestor_0 in Hk.
    pose proof (Hout 0 ltac:(lia)) as Hk0. rewrite ancestor_0 in Hk0.
    simpl. unfold IsValidKey.
    replace (0 <? key) with true by (symmetry; apply Z.ltb_lt; lia).
    rewrite Hk0. rewrite Nat2Z.inj_succ, <- Z.add_1_r in *.
    rewrite <- ancestor_parent by lia. apply IH; [lia| | |].
    + intros i Hi. rewrite ancestor_parent by lia. apply Hpos. lia.
    + by rewrite ancestor_parent by lia.
    + intros i Hi. rewrite ancestor_parent by lia. apply Hout. lia.
Qed.

Lemma FindSmallestNodeKey_loop_none (t : OrthoTree) (n : nat) :
  ∀ (fuel : nat) (key : Z),
    0 ≤ key < 2 ^ (Z.of_nat n * D) →
    (∀ i, 0 ≤ i → 0 < ancestor key i → Base.HasNode t (ancestor key i) = false) →
    Base.FindSmallestNodeKey_loop D fuel t key = 0.
Proof.
  induction n as [|n IH]; intros fuel key Hk Hout.
  - change (Z.of_nat 0) with 0 in Hk. rewrite Z.mul_0_l in Hk. change (2 ^ 0) with 1 in Hk.
    assert (key = 0) as -> by lia. by destruct fuel.
  - pose proof (Hout 0 ltac:(lia)) as Hk0. rewrite ancestor_0 in Hk0.
    assert (Hstep : IsValidKey key = true → Base.HasNode t key = false).
    { unfold IsValidKey. intros Hv. apply Z.ltb_lt in Hv. by apply Hk0. }
    destruct fuel as [|fuel]; simpl;
      (destruct (IsValidKey key); [rewrite Hstep by done|done]); [done|].
    apply IH.
    + unfold GetParentKey. rewrite Z.shiftr_div_pow2 by lia.
      assert (0 < 2 ^ D) by (apply Z.pow_pos_nonneg; lia).
      rewrite Nat2Z.inj_succ, <- Z.add_1_r in Hk.
      replace ((Z.of_nat n + 1) * D) with (Z.of_nat n * D + D) in Hk by lia.
      rewrite Z.pow_add_r in Hk by nia.
      split; [apply Z.div_pos; lia|]. apply Z.div_lt_upper_bound; lia.
    + intros i Hi. rewrite ancestor_parent by lia. apply Hout. lia.
Qed.

Lemma FindSmallestNodeKey_spec (t : OrthoTree) (d key : Z) :
  0 ≤ d → key_of_depth D d key →
  (∀ j, 0 ≤ j ≤ d →
        Base.HasNode t (ancestor key j) = true →
        (∀ i, 0 ≤ i < j → Base.HasNode t (ancestor key i) = false) →
        Base.FindSmallestNodeKey D t key = ancestor key j)
  ∧ ((∀ i, 0 ≤ i ≤ d → Base.HasNode t (ancestor key i) = false) →
     Base.FindSmallestNodeKey D t key = GetNoneKey).
Proof.
  intros Hd Hk. unfold Base.FindSmallestNodeKey.
  rewrite (key_fuel_depth d key Hd Hk). split.
  - intros j Hj Hin Hout.
    replace j with (Z.of_nat (Z.to_nat j)) by lia.
    apply FindSmallestNodeKey_loop_found.
    + nia.
    + intros i Hi. apply (key_of_depth_pos (d - i)); [lia|].
      apply key_of_depth_ancestor; [lia|done].
    + by rewrite Z2Nat.id by lia.
    + intros i Hi. apply Hout. lia.
  - intros Hout.
    apply (FindSmallestNodeKey_loop_none t (Z.to_nat (d + 1))).
    + rewrite Z2Nat.id by lia. destruct Hk as [Hk1 Hk2].
      assert (0 < 2 ^ (d * D)) by (apply Z.pow_pos_nonneg; nia).
      assert (2 ^ (d * D + 1) ≤ 2 ^ ((d + 1) * D)) by (apply Z.pow_le_mono_r; nia).
      lia.
    + intros i Hi Hpos. destruct (Z.le_gt_cases i d) as [Hle|Hgt]; [apply Hout; lia|].
      exfalso. unfold ancestor in Hpos.
      rewrite (shiftr_small key (d * D + 1)) in Hpos; [lia|nia| |nia].
      destruct Hk. assert (0 < 2 ^ (d * D)) by (apply Z.pow_pos_nonneg; nia). lia.
Qed.

(** ** Insertion without rebalancing *)

(** The tree has been initialised: the depth fits the key type, the grid
    has the resolution of that depth, the node sizes are tabulated for every
    depth that is asked for, and the root is stored. *)
Definition tree_ready (t : OrthoTree) : Prop :=
  1 ≤ m_maxDepthID t ≤ MAX_THEORETICAL_DEPTH_ID D
  ∧ m_maxRasterID (m_grid t) = 2 ^ m_maxDepthID t - 1
  ∧ Z.of_nat (length (m_nodeSizes t)) = m_maxDepthID t + 3
  ∧ Base.HasNode t GetRootKey = true.

(** [t'] has the grid and the depth of [t] and at least its nodes. *)
Definition extends (t t' : OrthoTree) : Prop :=
  m_grid t' = m_grid t ∧ m_maxDepthID t' = m_maxDepthID t
  ∧ m_nodeSizes t' = m_nodeSizes t
  ∧ ∀ key, Base.HasNode t key = true → Base.HasNode t' key = true.

Lemma extends_refl (t : OrthoTree) : extends t t.
Proof. by repeat split. Qed.

Lemma extends_trans (t1 t2 t3 : OrthoTree) :
  extends t1 t2 → extends t2 t3 → extends t1 t3.
Proof.
  intros (G1 & M1 & S1 & N1) (G2 & M2 & S2 & N2).
  repeat split; [congruence|congruence|congruence|].
  intros key H. by apply N2, N1.
Qed.

Lemma tree_ready_extends (t t' : OrthoTree) :
  tree_ready t → extends t t' → tree_ready t'.
Proof.
  intros (Hm & Hg & Hs & Hr) (G & M & S & N). unfold tree_ready.
  rewrite G, M, S. repeat split; try done; try lia. by apply N.
Qed.

Lemma HasNode_true (t : OrthoTree) (key : Z) :
  Base.HasNode t key = true ↔ ∃ node, m_nodes t !! key = Some node.
Proof.
  unfold Base.HasNode. destruct (m_nodes t !! key) as [n|]; split; try done.
  - by exists n.
  - by intros [n Hn].
Qed.

Lemma HasNode_false (t : OrthoTree) (key : Z) :
  Base.HasNode t key = false ↔ m_nodes t !! key = None.
Proof. unfold Base.HasNode. by destruct (m_nodes t !! key). Qed.

Lemma HasNode_insert (t : OrthoTree) (nodes : gmap Z Node) (k key : Z) (node : Node) :
  Base.HasNode (set_nodes t (<[k := node]> nodes)) key
  = (if decide (k = key) then true else Base.HasNode (set_nodes t nodes) key).
Proof.
  unfold Base.HasNode, set_nodes. cbn [m_nodes]. rewrite lookup_insert.
  by destruct (decide (k = key)).
Qed.

Lemma set_nodes_id (t : OrthoTree) : set_nodes t (m_nodes t) = t.
Proof. by destruct t. Qed.

Lemma set_nodes_set_nodes (t : OrthoTree) (a b : gmap Z Node) :
  set_nodes (set_nodes t a) b = set_nodes t b.
Proof. done. Qed.

Lemma extends_insert (t : OrthoTree) (k : Z) (node : Node) :
  extends t (set_nodes t (<[k := node]> (m_nodes t))).
Proof.
  repeat split. intros key H. rewrite HasNode_insert, set_nodes_id.
  by destruct (decide (k = key)).
Qed.

Lemma extends_set_nodes (t : OrthoTree) (nodes : gmap Z Node) :
  (∀ key node, m_nodes t !! key = Some node → ∃ node', nodes !! key = Some node') →
  extends t (set_nodes t nodes).
Proof.
  intros H. repeat split. intros key Hk. apply HasNode_true in Hk as [node Hk].
  apply HasNode_true. cbn [m_nodes set_nodes]. by eapply H.
Qed.

Lemma lookup_insert_keeps (nodes : gmap Z Node) (k key : Z) (v node : Node) :
  nodes !! key = Some node → ∃ node', <[k := v]> nodes !! key = Some node'.
Proof.
  intros H. rewrite lookup_insert. destruct (decide (k = key)); by eexists.
Qed.

Lemma update_node_Some (t : OrthoTree) (key : Z) (f : Node → Node) (node : Node) :
  m_nodes t !! key = Some node →
  update_node t key f = Some (set_nodes t (<[key := f node]> (m_nodes t))).
Proof. intros H. unfold update_node. by rewrite H. Qed.

Lemma GetDepthID_key_of_depth (d key : Z) :
  0 ≤ d ≤ MAX_THEORETICAL_DEPTH_ID D → key_of_depth D d key →
  GetDepthID D key = Some d.
Proof.
  intros Hd Hk. destruct (key_of_depth_GetHash D HD d key Hd Hk) as [E Hr].
  rewrite E. by apply (GetDepthID_key D HD).
Qed.

Lemma CreateChild_Some (t : OrthoTree) (parentNode : Node) (childKey d : Z) :
  GetDepthID D childKey = Some d →
  ∃ center, Base.CreateChild D t parentNode childKey = Some (mkNode [] [] center).
Proof. intros H. unfold Base.CreateChild. rewrite H. by eexists. Qed.

Lemma add_child_with_entity_Some (t : OrthoTree) (parentKey childKey entityID d : Z)
    (parentNode : Node) :
  m_nodes t !! parentKey = Some parentNode →
  m_nodes t !! childKey = None →
  GetDepthID D childKey = Some d →
  ∃ center,
    Base.add_child_with_entity D t parentKey childKey entityID
    = Some (set_nodes t
              (<[childKey := mkNode [entityID] [] center]>
                 (<[parentKey := NodeOps.AddChildInOrder parentNode childKey]>
                    (m_nodes t)))).
Proof.
  intros Hp Hc Hd. unfold Base.add_child_with_entity.
  assert (Hne : parentKey ≠ childKey) by congruence.
  rewrite (update_node_Some _ _ _ _ Hp).
  change (Some ?x ≫= ?f) with (f x). cbn beta.
  unfold Base.GetNode at 1. cbn [m_nodes set_nodes]. rewrite lookup_insert_eq.
  change (Some ?x ≫= ?f) with (f x). cbn beta.
  destruct (CreateChild_Some
              (set_nodes t (<[parentKey:=NodeOps.AddChildInOrder parentNode childKey]>
                              (m_nodes t)))
              (NodeOps.AddChildInOrder parentNode childKey) childKey d Hd)
    as [center Hcc].
  exists center. rewrite Hcc.
  change (Some ?x ≫= ?f) with (f x). cbn beta.
  unfold emplace. rewrite lookup_insert_ne, Hc by done.
  rewrite set_nodes_set_nodes.
  erewrite update_node_Some by (cbn [m_nodes set_nodes]; apply lookup_insert_eq).
  rewrite set_nodes_set_nodes. cbn [m_nodes set_nodes].
  by rewrite insert_insert_eq.
Qed.


(** ** The shape of the node store *)

(** The child lists are ascending, and every stored key but the root has
    its parent stored, with the key in the child list of the parent. *)
Definition well_linked (t : OrthoTree) : Prop :=
  ∀ key node, m_nodes t !! key = Some node →
    children_sorted node
    ∧ (key ≠ GetRootKey →
       ∃ parentNode, m_nodes t !! GetParentKey D key = Some parentNode
                     ∧ key ∈ m_children parentNode).

Lemma well_linked_update (t : OrthoTree) (k : Z) (n n' : Node) :
  well_linked t → m_nodes t !! k = Some n → m_children n' = m_children n →
  well_linked (set_nodes t (<[k := n']> (m_nodes t))).
Proof.
  intros Hwf Hk Hc key node. cbn [m_nodes set_nodes].
  rewrite lookup_insert. intros Hl.
  assert (Hold : ∃ old, m_nodes t !! key = Some old ∧ m_children node = m_children old).
  { destruct (decide (k = key)) as [<-|]; [|by exists node].
    injection Hl as <-. by exists n. }
  destruct Hold as (old & Hold & Hch).
  destruct (Hwf key old Hold) as [Hs Hp]. split.
  - unfold children_sorted in *. by rewrite Hch.
  - intros Hne. destruct (Hp Hne) as (pn & Hpn & Hin).
    rewrite lookup_insert. destruct (decide (k = GetParentKey D key)) as [E|].
    + exists n'. split; [done|]. rewrite Hc. rewrite <- E in Hpn. congruence.
    + by exists pn.
Qed.

Lemma well_linked_fmap (t : OrthoTree) (f : Node → Node) :
  (∀ n, m_children (f n) = m_children n) →
  well_linked t → well_linked (set_nodes t (f <$> m_nodes t)).
Proof.
  intros Hf Hwf key node. cbn [m_nodes set_nodes]. rewrite lookup_fmap.
  destruct (m_nodes t !! key) as [old|] eqn:Hold; [|done].
  intros [= <-]. destruct (Hwf key old Hold) as [Hs Hp]. split.
  - unfold children_sorted in *. by rewrite Hf.
  - intros Hne. destruct (Hp Hne) as (pn & Hpn & Hin).
    exists (f pn). rewrite lookup_fmap, Hpn. split; [done|]. by rewrite Hf.
Qed.

Lemma well_linked_add_child (t : OrthoTree) (pk ck : Z) (pn : Node)
    (entities : list Z) (center : list float) :
  well_linked t → m_nodes t !! pk = Some pn → m_nodes t !! ck = None →
  GetParentKey D ck = pk →
  well_linked (set_nodes t (<[ck := mkNode entities [] center]>
                              (<[pk := NodeOps.AddChildInOrder pn ck]> (m_nodes t)))).
Proof.
  intros Hwf Hpk Hck Hpar key node. cbn [m_nodes set_nodes].
  assert (Hne : pk ≠ ck) by congruence.
  destruct (Hwf pk pn Hpk) as [Hspn _].
  destruct (AddChildInOrder_spec pn ck Hspn) as (Hs' & Hin' & _).
  assert (Hparent : ∀ x pn0, m_nodes t !! x = Some pn0 → ∀ c, c ∈ m_children pn0 →
            ∃ pn1, <[ck := mkNode entities [] center]>
                     (<[pk := NodeOps.AddChildInOrder pn ck]> (m_nodes t)) !! x = Some pn1
                   ∧ c ∈ m_children pn1).
  { intros x pn0 Hx c Hc. rewrite lookup_insert_ne by congruence.
    rewrite lookup_insert. destruct (decide (pk = x)) as [<-|].
    - eexists. split; [done|]. apply Hin'. right. congruence.
    - by exists pn0. }
  rewrite lookup_insert. destruct (decide (ck = key)) as [<-|Hn1].
  - intros [= <-]. split; [constructor|]. intros _.
    rewrite Hpar, lookup_insert_ne, lookup_insert_eq by done.
    eexists. split; [done|]. apply Hin'. by left.
  - rewrite lookup_insert. destruct (decide (pk = key)) as [<-|Hn2].
    + intros [= <-]. split; [done|]. intros Hroot.
      destruct (Hwf pk pn Hpk) as [_ Hp]. destruct (Hp Hroot) as (ppn & Hppn & Hin).
      by eapply Hparent.
    + intros Hl. destruct (Hwf key node Hl) as [Hs Hp]. split; [done|].
      intros Hroot. destruct (Hp Hroot) as (ppn & Hppn & Hin). by eapply Hparent.
Qed.

Lemma well_linked_remove_node (t : OrthoTree) (k : Z) (n pn : Node) :
  well_linked t → m_nodes t !! k = Some n → m_children n = [] → k ≠ GetRootKey →
  m_nodes t !! GetParentKey D k = Some pn →
  well_linked (set_nodes t (delete k (<[GetParentKey D k := NodeOps.RemoveChild pn k]>
                                          (m_nodes t)))).
Proof.
  intros Hwf Hk Hnil Hroot Hpk key node. cbn [m_nodes set_nodes].
  set (pk := GetParentKey D k) in *.
  destruct (Hwf k n Hk) as [_ Hpar]. destruct (Hpar Hroot) as (pn' & Hpn' & Hkin).
  fold pk in Hpn'. assert (pn' = pn) as -> by congruence.
  destruct (Hwf pk pn Hpk) as [Hspn _].
  destruct (RemoveChild_spec pn k Hspn Hkin) as (Hs' & Hin' & _).
  assert (Hkpk : pk ≠ k).
  { intros E. rewrite E in Hpk. assert (pn = n) as -> by congruence.
    rewrite Hnil in Hkin. by apply elem_of_nil in Hkin. }
  assert (Hparent : ∀ x pn0 c, m_nodes t !! x = Some pn0 → c ∈ m_children pn0 → c ≠ k →
            ∃ pn1, delete k (<[pk := NodeOps.RemoveChild pn k]> (m_nodes t)) !! x = Some pn1
                   ∧ c ∈ m_children pn1).
  { intros x pn0 c Hx Hc Hck.
    assert (x ≠ k).
    { intros ->. assert (pn0 = n) as -> by congruence.
      rewrite Hnil in Hc. by apply elem_of_nil in Hc. }
    rewrite lookup_delete_ne by done. rewrite lookup_insert.
    destruct (decide (pk = x)) as [<-|].
    - eexists. split; [done|]. apply Hin'. split; [congruence|done].
    - by exists pn0. }
  rewrite lookup_delete. destruct (decide (k = key)) as [|Hn1]; [done|].
  rewrite lookup_insert. destruct (decide (pk = key)) as [<-|Hn2].
  - intros [= <-]. split; [done|]. intros Hr.
    destruct (Hwf pk pn Hpk) as [_ Hp]. destruct (Hp Hr) as (ppn & Hppn & Hin).
    by eapply Hparent.
  - intros Hl. destruct (Hwf key node Hl) as [Hs Hp]. split; [done|].
    intros Hr. destruct (Hp Hr) as (ppn & Hppn & Hin). eapply Hparent; [done|done|congruence].
Qed.

Section InsertPath.

Variable m : Z.
Variable key : Z.
Hypothesis Hm : 0 ≤ m ≤ MAX_THEORETICAL_DEPTH_ID D.
Hypothesis Hkey : key_of_depth D m key.

Lemma ancestor_depth (i : Z) :
  0 ≤ i ≤ m → key_of_depth D (m - i) (ancestor key i).
Proof. intros Hi. by apply key_of_depth_ancestor. Qed.

Lemma ancestor_inj (i i' : Z) :
  0 ≤ i ≤ m → 0 ≤ i' ≤ m → ancestor key i = ancestor key i' → i = i'.
Proof.
  intros Hi Hi' E. pose proof (ancestor_depth i Hi) as H1.
  pose proof (ancestor_depth i' Hi') as H2. rewrite E in H1.
  pose proof (key_of_depth_unique (m - i) (m - i') _ ltac:(lia) ltac:(lia) H1 H2). lia.
Qed.

Lemma GetDepthID_ancestor (i : Z) :
  0 ≤ i ≤ m → GetDepthID D (ancestor key i) = Some (m - i).
Proof.
  intros Hi. apply GetDepthID_key_of_depth; [lia|]. by apply ancestor_depth.
Qed.

Lemma GetParentKey_ancestor (i : Z) :
  0 ≤ i → GetParentKey D (ancestor key i) = ancestor key (i + 1).
Proof.
  intros Hi. rewrite <- (ancestor_0 (GetParentKey D (ancestor key i))).
  rewrite ancestor_parent by lia. rewrite ancestor_ancestor by lia. f_equal.
Qed.

Lemma collect_missing_nodes_spec (t : OrthoTree) (j : Z) (n : nat) :
  ∀ (i : Z) (stack : list Z) (fuel : nat),
    0 ≤ i → i + Z.of_nat n = j → (n ≤ fuel)%nat →
    (∀ k, 0 ≤ k < j →
          ancestor key k ≠ ancestor key j ∧ Base.HasNode t (ancestor key k) = false) →
    Base.collect_missing_nodes D fuel t (ancestor key j) (ancestor key i) stack
    = Some (stack ++ (ancestor key <$> seqZ i (Z.of_nat n)), ancestor key j).
Proof.
  induction n as [|n IH]; intros i stack fuel Hi Hj Hf Hout.
  - assert (i = j) as -> by lia.
    change (Z.of_nat 0) with 0. change (seqZ j 0) with (@nil Z).
    rewrite fmap_nil, app_nil_r.
    destruct fuel; simpl; by rewrite Z.eqb_refl.
  - destruct fuel as [|fuel]; [lia|].
    destruct (Hout i ltac:(lia)) as [Hne Hno].
    simpl. replace (ancestor key i =? ancestor key j) with false
      by (symmetry; by apply Z.eqb_neq).
    rewrite Hno, GetParentKey_ancestor by lia.
    rewrite (IH (i + 1)) by (done || lia).
    rewrite <- app_assoc. do 3 f_equal.
    rewrite (seqZ_cons i) by lia. rewrite fmap_cons. cbn [app]. do 3 f_equal; lia.
Qed.

Lemma create_missing_nodes_step (t : OrthoTree) (parentKey : Z) (i : Z) :
  0 ≤ i ≤ m → Base.HasNode t parentKey = true →
  ∃ t', (st ← Some (t, parentKey);
         let '(t0, parentKey0) := (st : OrthoTree * Z) in
         t1 ← update_node t0 parentKey0
                (fun n => NodeOps.AddChildInOrder n (ancestor key i));
         parentNode ← Base.GetNode t1 parentKey0;
         child ← Base.CreateChild D t1 parentNode (ancestor key i);
         Some (set_nodes t1 (emplace (m_nodes t1) (ancestor key i) child),
               ancestor key i))
        = Some (t', ancestor key i)
        ∧ extends t t' ∧ Base.HasNode t' (ancestor key i) = true
        ∧ (∀ x, Base.HasNode t x = false → x ≠ ancestor key i →
                Base.HasNode t' x = false)
        ∧ (well_linked t → Base.HasNode t (ancestor key i) = false →
           GetParentKey D (ancestor key i) = parentKey → well_linked t').
Proof.
  intros Hi Hp. apply HasNode_true in Hp as [pn Hp].
  change (Some ?x ≫= ?f) with (f x). cbn beta iota.
  rewrite (update_node_Some _ _ _ _ Hp).
  change (Some ?x ≫= ?f) with (f x). cbn beta.
  unfold Base.GetNode at 1. cbn [m_nodes set_nodes]. rewrite lookup_insert_eq.
  change (Some ?x ≫= ?f) with (f x). cbn beta.
  match goal with |- context [Base.CreateChild D ?tt ?pp ?kk] =>
    destruct (CreateChild_Some tt pp kk (m - i) (GetDepthID_ancestor i Hi))
      as [center Hcc]; rewrite Hcc
  end.
  change (Some ?x ≫= ?f) with (f x). cbn beta.
  eexists. split; [reflexivity|].
  assert (Hkeep : ∀ x, Base.HasNode t x = false → x ≠ ancestor key i → parentKey ≠ x).
  { intros x Hx _ <-. apply HasNode_false in Hx. congruence. }
  unfold emplace.
  destruct (<[parentKey:=NodeOps.AddChildInOrder pn (ancestor key i)]> (m_nodes t)
            !! ancestor key i) as [existing|] eqn:El.
  - split; [apply (extends_insert t parentKey)|].
    split; [apply HasNode_true; by exists existing|]. split.
    + intros x Hx Hne. apply HasNode_false. cbn [m_nodes set_nodes].
      rewrite lookup_insert_ne by by apply Hkeep. by apply HasNode_false.
    + intros _ Hno Hpar. exfalso. apply HasNode_false in Hno.
      rewrite lookup_insert in El. destruct (decide (parentKey = ancestor key i)); congruence.
  - split.
    { rewrite set_nodes_set_nodes. apply extends_set_nodes. intros k node Hk.
      apply (lookup_insert_keeps _ parentKey _ (NodeOps.AddChildInOrder pn (ancestor key i)))
        in Hk as [node1 Hk].
      by eapply lookup_insert_keeps. }
    split; [rewrite HasNode_insert; by destruct (decide (ancestor key i = ancestor key i))|].
    split.
    + intros x Hx Hne. apply HasNode_false. cbn [m_nodes set_nodes].
      rewrite lookup_insert_ne by done.
      rewrite lookup_insert_ne by by apply Hkeep. by apply HasNode_false.
    + intros Hwf Hno Hpar. rewrite set_nodes_set_nodes.
      apply well_linked_add_child; [done|done|by apply HasNode_false|done].
Qed.

Lemma create_missing_nodes_spec (n : nat) :
  ∀ (t : OrthoTree) (parentKey : Z),
    Z.of_nat n ≤ m → Base.HasNode t parentKey = true →
    ∃ t', Base.create_missing_nodes D t parentKey (ancestor key <$> seqZ 0 (Z.of_nat n))
          = Some (t', if Nat.eqb n 0 then parentKey else ancestor key 0)
          ∧ extends t t'
          ∧ Base.HasNode t' (if Nat.eqb n 0 then parentKey else ancestor key 0) = true
          ∧ (well_linked t → parentKey = ancestor key (Z.of_nat n) →
             (∀ i, 0 ≤ i < Z.of_nat n → Base.HasNode t (ancestor key i) = false) →
             well_linked t').
Proof.
  induction n as [|n IH]; intros t parentKey Hn Hp.
  - exists t. split; [done|]. split; [apply extends_refl|]. split; done.
  - unfold Base.create_missing_nodes.
    rewrite Nat2Z.inj_succ, <- Z.add_1_r.
    rewrite seqZ_app by lia. rewrite fmap_app, rev_app_distr.
    change (seqZ (0 + Z.of_nat n) 1) with [0 + Z.of_nat n]. rewrite Z.add_0_l.
    cbn [fmap list_fmap rev app foldl].
    destruct (create_missing_nodes_step t parentKey (Z.of_nat n) ltac:(lia) Hp)
      as (t1 & Hstep & Hext & Hhas & Hkeep & Hwf1).
    rewrite Hstep.
    destruct (IH t1 (ancestor key (Z.of_nat n)) ltac:(lia) Hhas)
      as (t' & Hc & Hext' & Hhas' & Hwf').
    unfold Base.create_missing_nodes in Hc. rewrite Hc.
    exists t'. cbn [Nat.eqb].
    assert (E : (if Nat.eqb n 0 then ancestor key (Z.of_nat n) else ancestor key 0)
                = ancestor key 0).
    { destruct n; [done|done]. }
    rewrite E in *. split; [done|]. split; [by eapply extends_trans|].
    split; [done|].
    intros Hwf -> Hout. apply Hwf'; [|done|].
    + apply Hwf1; [done|apply Hout; lia|]. apply GetParentKey_ancestor. lia.
    + intros i Hi. apply Hkeep; [apply Hout; lia|].
      intros Eq. apply ancestor_inj in Eq; lia.
Qed.

Lemma child_of_ancestor (j : Z) :
  1 ≤ j ≤ m →
  GetChildNodeKey (ChildKeyGenerator D (ancestor key j))
                  (GetChildIDByDepth D (m - j) m key)
  = ancestor key (j - 1).
Proof.
  intros Hj. pose proof (max_depth_le_grid D HD) as H31.
  assert (HpD : 0 < 2 ^ D) by (apply Z.pow_pos_nonneg; lia).
  assert (Hc : GetChildIDByDepth D (m - j) m key = ancestor key (j - 1) mod 2 ^ D).
  { unfold GetChildIDByDepth, GetChildIDAtLevel, GetChildID, CastMortonIDToChildID.
    rewrite CHILD_MASK_ones, Z.land_ones by lia.
    replace (m - (m - j)) with j by lia.
    assert (H32 : 2 ^ 11 < 2 ^ GRID_BITS) by (unfold GRID_BITS; by apply Z.pow_lt_mono_r).
    change (2 ^ 11) with 2048 in H32.
    rewrite (wrap_small GRID_BITS j) by lia.
    rewrite (wrap_small GRID_BITS (j - 1)) by lia.
    rewrite (wrap_small GRID_BITS (D * (j - 1))) by nia.
    unfold ancestor. by rewrite (Z.mul_comm D). }
  rewrite Hc.
  rewrite (GetChildNodeKey_add D HD (m - j)); [|lia|by apply ancestor_depth; lia|].
  - replace (ancestor key j) with (ancestor key (j - 1) / 2 ^ D).
    + pose proof (Z.div_mod (ancestor key (j - 1)) (2 ^ D) ltac:(lia)). lia.
    + rewrite <- Z.shiftr_div_pow2 by lia.
      change (Z.shiftr (ancestor key (j - 1)) D) with (GetParentKey D (ancestor key (j - 1))).
      rewrite GetParentKey_ancestor by lia. f_equal. lia.
  - unfold CHILD_NO. apply Z.mod_pos_bound. lia.
Qed.

(** The outcome of [InsertWithoutRebalancingBase] started from the deepest
    stored ancestor [ancestor key j] of the key of the entity: it succeeds,
    keeps what was stored, and the id ends in the node [ancestor key k], the
    deepest stored ancestor afterwards. *)
Lemma InsertWithoutRebalancingBase_ok (t : OrthoTree) (j entityID : Z)
    (doInsertToLeaf : bool) :
  0 ≤ j ≤ m →
  Base.HasNode t (ancestor key j) = true →
  (∀ i, 0 ≤ i < j → Base.HasNode t (ancestor key i) = false) →
  ∃ t' k node,
    Base.InsertWithoutRebalancingBase D t (ancestor key j) key entityID doInsertToLeaf
    = Some (true, t')
    ∧ extends t t'
    ∧ 0 ≤ k ≤ j
    ∧ m_nodes t' !! ancestor key k = Some node
    ∧ entityID ∈ m_entities node
    ∧ (∀ i, 0 ≤ i < k → Base.HasNode t' (ancestor key i) = false)
    ∧ (well_linked t → well_linked t').
Proof.
  intros Hj Hin Hout. unfold Base.InsertWithoutRebalancingBase.
  pose proof Hin as Hin'. apply HasNode_true in Hin' as [pn Hpn].
  destruct (Z.eqb_spec key (ancestor key j)) as [E|N].
  - (* the node of the entity is stored *)
    assert (j = 0) as ->.
    { apply (ancestor_inj j 0); [lia|lia|]. by rewrite ancestor_0. }
    rewrite ancestor_0 in *.
    rewrite (update_node_Some _ _ _ _ Hpn).
    change (Some ?x ≫= ?f) with (f x). cbn beta.
    eexists _, 0, _. split; [reflexivity|]. rewrite ancestor_0.
    split; [apply extends_insert|]. split; [lia|].
    split; [cbn [m_nodes set_nodes]; apply lookup_insert_eq|].
    split; [|split; [intros; lia|]].
    { cbn [NodeOps.AddEntity m_entities]. apply elem_of_app. right.
      by apply list_elem_of_singleton. }
    intros Hwf. by apply (well_linked_update t key pn).
  - assert (Hj1 : 1 ≤ j).
    { destruct (Z.eq_dec j 0) as [->|]; [|lia]. rewrite ancestor_0 in N. done. }
    destruct doInsertToLeaf.
    + (* the chain of missing nodes is created *)
      assert (Hfuel : (Z.to_nat j ≤ Base.key_fuel key)%nat).
      { rewrite (key_fuel_depth m key ltac:(lia) Hkey). nia. }
      pose proof (collect_missing_nodes_spec t j (Z.to_nat j) 0 [] (Base.key_fuel key)
                    ltac:(lia) ltac:(lia) Hfuel) as Hcol.
      rewrite ancestor_0 in Hcol. rewrite Hcol.
      2:{ intros k Hk. split; [|by apply Hout].
          intros E. apply (ancestor_inj k j) in E; lia. }
      change (Some ?x ≫= ?f) with (f x). cbn beta. cbn [fst snd app].
      unfold Base.GetNode at 1. rewrite Hpn.
      change (Some ?x ≫= ?f) with (f x). cbn beta.
      destruct (create_missing_nodes_spec (Z.to_nat j) t (ancestor key j) ltac:(lia) Hin)
        as (t1 & Hc & Hext & Hhas & Hwf1).
      rewrite Hc. change (Some ?x ≫= ?f) with (f x). cbn beta. cbn [fst snd].
      replace (Nat.eqb (Z.to_nat j) 0) with false in *
        by (symmetry; apply Nat.eqb_neq; lia).
      rewrite ancestor_0 in *.
      apply HasNode_true in Hhas as [kn Hkn].
      rewrite (update_node_Some _ _ _ _ Hkn).
      change (Some ?x ≫= ?f) with (f x). cbn beta.
      eexists _, 0, _. split; [reflexivity|]. rewrite ancestor_0.
      split; [eapply extends_trans; [exact Hext|apply extends_insert]|].
      split; [lia|]. split; [cbn [m_nodes set_nodes]; apply lookup_insert_eq|].
      split; [|split; [intros; lia|]].
      { cbn [NodeOps.AddEntity m_entities]. apply elem_of_app. right.
        by apply list_elem_of_singleton. }
      intros Hwf. apply (well_linked_update t1 key kn); [|done|done].
      apply Hwf1; [done|f_equal; lia|]. intros i Hi. apply Hout. lia.
    + unfold Base.GetNode at 1. rewrite Hpn.
      change (Some ?x ≫= ?f) with (f x). cbn beta.
      destruct (NodeOps.IsAnyChildExist pn).
      * (* one child is created below the stored ancestor *)
        rewrite (GetDepthID_ancestor j) by lia.
        change (Some ?x ≫= ?f) with (f x). cbn beta.
        rewrite (GetDepthID_key_of_depth m key Hm Hkey).
        change (Some ?x ≫= ?f) with (f x). cbn beta.
        rewrite (child_of_ancestor j) by lia.
        specialize (Hout (j - 1) ltac:(lia)) as Hno. apply HasNode_false in Hno.
        destruct (add_child_with_entity_Some t (ancestor key j) (ancestor key (j - 1))
                    entityID (m - (j - 1)) pn Hpn Hno
                    (GetDepthID_ancestor (j - 1) ltac:(lia))) as [center Hadd].
        rewrite Hadd. change (Some ?x ≫= ?f) with (f x). cbn beta.
        eexists _, (j - 1), _. split; [reflexivity|].
        split.
        { apply extends_set_nodes. intros k node Hk.
          apply (lookup_insert_keeps _ (ancestor key j) _
                   (NodeOps.AddChildInOrder pn (ancestor key (j - 1)))) in Hk as [n1 Hk].
          by eapply lookup_insert_keeps. }
        split; [lia|]. split; [cbn [m_nodes set_nodes]; apply lookup_insert_eq|].
        split; [cbn [m_entities]; by apply list_elem_of_singleton|].
        split.
        { intros i Hi. apply HasNode_false. cbn [m_nodes set_nodes].
          rewrite !lookup_insert_ne.
          - apply HasNode_false, Hout. lia.
          - intros E. apply (ancestor_inj j i) in E; lia.
          - intros E. apply (ancestor_inj (j - 1) i) in E; lia. }
        intros Hwf. apply well_linked_add_child; [done|done|done|].
        rewrite GetParentKey_ancestor by lia. f_equal. lia.
      * (* the stored ancestor is a leaf: it takes the entity *)
        rewrite (update_node_Some _ _ _ _ Hpn).
        change (Some ?x ≫= ?f) with (f x). cbn beta.
        eexists _, j, _. split; [reflexivity|].
        split; [apply extends_insert|]. split; [lia|].
        split; [cbn [m_nodes set_nodes]; apply lookup_insert_eq|].
        split.
        { cbn [NodeOps.AddEntity m_entities]. apply elem_of_app. right.
          by apply list_elem_of_singleton. }
        split.
        { intros i Hi. apply HasNode_false. cbn [m_nodes set_nodes].
          rewrite lookup_insert_ne.
          - apply HasNode_false, Hout. lia.
          - intros E. apply (ancestor_inj j i) in E; lia. }
        intros Hwf. by apply (well_linked_update t (ancestor key j) pn).
Qed.

End InsertPath.

(** ** Inserting a point *)

Lemma least_true (P : Z → bool) (n : nat) :
  P (Z.of_nat n) = true →
  ∃ j, 0 ≤ j ≤ Z.of_nat n ∧ P j = true ∧ ∀ i, 0 ≤ i < j → P i = false.
Proof.
  revert P. induction n as [|n IH]; intros P Hn.
  - exists 0. split; [lia|]. split; [done|]. intros; lia.
  - destruct (P 0) eqn:E0.
    + exists 0. split; [lia|]. split; [done|]. intros; lia.
    + destruct (IH (fun i => P (i + 1))) as (j & Hj & Hp & Hl).
      { by rewrite Nat2Z.inj_succ, <- Z.add_1_r in Hn. }
      exists (j + 1). split; [lia|]. split; [done|].
      intros i Hi. destruct (Z.eq_dec i 0) as [->|]; [done|].
      replace i with (i - 1 + 1) by lia. apply Hl. lia.
Qed.

Lemma at_dim_fmap_seqZ (f : Z → Z) (n d : Z) :
  0 ≤ d < n → at_dim (f <$> seqZ 0 n) d = f d.
Proof.
  intros Hd. unfold at_dim. rewrite nth_lookup, list_lookup_fmap.
  rewrite lookup_seqZ_lt by lia. simpl. f_equal. lia.
Qed.

Lemma GetPointGridID_valid (h : bool) (grid : Grid) (point : list float) (depth : Z) :
  0 ≤ depth → m_maxRasterID grid = 2 ^ depth - 1 →
  valid_grid D depth (GridSI.GetPointGridID D h grid point).
Proof.
  intros Hd Hmax. unfold GridSI.GetPointGridID. split.
  - by rewrite length_fmap, length_seqZ.
  - intros d Hdim. rewrite at_dim_fmap_seqZ by done. rewrite Hmax.
    match goal with |- context [cast_GridID ?x] =>
      pose proof (wrap_range 32 (trunc_Z x) ltac:(lia)) as Hc;
      fold (cast_GridID x) in Hc
    end.
    assert (0 < 2 ^ depth) by (by apply Z.pow_pos_nonneg). lia.
Qed.

(** The key of the finest cell of a point, and the stored ancestor the
    lookup returns for it. *)
Lemma point_node_key (t : OrthoTree) (point : list float) :
  tree_ready t →
  ∃ key j,
    Base.GetNodeID_point D false t point = Some key
    ∧ key_of_depth D (m_maxDepthID t) key
    ∧ 0 ≤ j ≤ m_maxDepthID t
    ∧ Base.FindSmallestNodeKey D t key = ancestor key j
    ∧ Base.HasNode t (ancestor key j) = true
    ∧ (∀ i, 0 ≤ i < j → Base.HasNode t (ancestor key i) = false).
Proof.
  intros (Hm & Hg & Hs & Hr).
  pose proof (GetPointGridID_valid false (m_grid t) point (m_maxDepthID t)
                ltac:(lia) Hg) as Hvalid.
  destruct (Encode_spec D HD (m_maxDepthID t) _ ltac:(lia) Hvalid) as (loc & Henc & Hint).
  pose proof (interleaved_bound D HD (m_maxDepthID t) _ loc ltac:(lia) Hvalid Hint) as Hb.
  pose proof (GetHash_key_of_depth D HD (m_maxDepthID t) loc ltac:(lia) Hb) as Hk.
  set (key := GetHash D (m_maxDepthID t) loc) in *.
  destruct (least_true (fun i => Base.HasNode t (ancestor key i))
                       (Z.to_nat (m_maxDepthID t))) as (j & Hj & Hin & Hout).
  { rewrite Z2Nat.id by lia.
    pose proof (key_of_depth_ancestor (m_maxDepthID t) key (m_maxDepthID t) ltac:(lia) Hk)
      as H1.
    rewrite Z.sub_diag in H1. apply key_of_depth_0 in H1. by rewrite H1. }
  rewrite Z2Nat.id in Hj by lia.
  exists key, j. split.
  { unfold Base.GetNodeID_point, Base.GetLocationID. by rewrite Henc. }
  split; [done|]. split; [done|]. split; [|done].
  by apply (FindSmallestNodeKey_spec t (m_maxDepthID t) key ltac:(lia) Hk).
Qed.

Lemma Insert_outcome (t : OrthoTree) (entityID : Z)
    (point : list float) (doInsertToLeaf : bool) :
  tree_ready t →
  ∃ t', PointTree.Insert D t entityID point doInsertToLeaf
        = Some (IGM.DoesBoxContainPointAD D (m_boxSpace (m_grid t)) point 0, t')
        ∧ tree_ready t' ∧ extends t t' ∧ (well_linked t → well_linked t').
Proof.
  intros Hready. unfold PointTree.Insert.
  destruct (IGM.DoesBoxContainPointAD D (m_boxSpace (m_grid t)) point 0); cbn [negb].
  2:{ exists t. split; [done|]. split; [done|]. split; [apply extends_refl|done]. }
  destruct (point_node_key t point Hready) as (key & j & Hid & Hk & Hj & Hfind & Hin & Hout).
  rewrite Hid. change (Some ?x ≫= ?f) with (f x). cbn beta.
  rewrite Hfind.
  assert (Hvalid : IsValidKey (ancestor key j) = true).
  { unfold IsValidKey. apply Z.ltb_lt.
    apply (key_of_depth_pos (m_maxDepthID t - j)); [lia|].
    apply key_of_depth_ancestor; [lia|done]. }
  rewrite Hvalid. cbn [negb].
  destruct Hready as (Hm & Hg & Hs & Hr).
  destruct (InsertWithoutRebalancingBase_ok (m_maxDepthID t) key ltac:(lia) Hk t j
              entityID doInsertToLeaf Hj Hin Hout)
    as (t' & k & node & Hins & Hext & _ & _ & _ & _ & Hwf).
  exists t'. split; [done|]. split; [by apply (tree_ready_extends t)|]. by split.
Qed.

(** The id is listed in the node that the lookup finds for the point. *)
Definition listed_at (t : OrthoTree) (entityID : Z) (point : list float) : Prop :=
  ∃ key node, Base.FindSmallestNode_point D false t point = Some key
              ∧ IsValidKey key = true
              ∧ m_nodes t !! key = Some node
              ∧ entityID ∈ m_entities node.

Lemma Insert_listed (t t' : OrthoTree) (entityID : Z)
    (point : list float) (doInsertToLeaf : bool) :
  tree_ready t →
  PointTree.Insert D t entityID point doInsertToLeaf = Some (true, t') →
  listed_at t' entityID point.
Proof.
  unfold listed_at.
  intros Hready. unfold PointTree.Insert.
  destruct (IGM.DoesBoxContainPointAD D (m_boxSpace (m_grid t)) point 0) eqn:Einside;
    cbn [negb]; [|done].
  destruct (point_node_key t point Hready) as (key & j & Hid & Hk & Hj & Hfind & Hin & Hout).
  rewrite Hid. change (Some ?x ≫= ?f) with (f x). cbn beta.
  rewrite Hfind.
  assert (Hpos : ∀ i, 0 ≤ i ≤ m_maxDepthID t → IsValidKey (ancestor key i) = true).
  { intros i Hi. unfold IsValidKey. apply Z.ltb_lt.
    apply (key_of_depth_pos (m_maxDepthID t - i)); [lia|].
    apply key_of_depth_ancestor; [lia|done]. }
  rewrite (Hpos j Hj). cbn [negb].
  pose proof Hready as (Hm & Hg & Hs & Hr).
  destruct (InsertWithoutRebalancingBase_ok (m_maxDepthID t) key ltac:(lia) Hk t j
              entityID doInsertToLeaf Hj Hin Hout)
    as (t1 & k & node & Hins & Hext & Hkj & Hnode & Hentity & Hout' & _).
  rewrite Hins. intros [= <-].
  exists (ancestor key k), node.
  split; [|split; [apply Hpos; lia|split; done]].
  destruct Hext as (Egrid & Edepth & Esizes & Hnodes).
  unfold Base.FindSmallestNode_point. cbn [negb andb].
  rewrite Egrid, Einside. cbn [negb].
  assert (Hid' : Base.GetNodeID_point D false t1 point = Some key).
  { unfold Base.GetNodeID_point, Base.GetLocationID in *. by rewrite Egrid, Edepth. }
  rewrite Hid'. change (Some ?x ≫= ?f) with (f x). cbn beta. f_equal.
  apply (FindSmallestNodeKey_spec t1 (m_maxDepthID t) key ltac:(lia) Hk);
    [lia| |done].
  apply HasNode_true. by exists node.
Qed.

(** ** Initialisation *)

Lemma make_maxRasterID (maxDepthID : Z) (boxSpace : Box) :
  0 ≤ maxDepthID ≤ 31 →
  m_maxRasterID (GridSI.make D maxDepthID boxSpace) = 2 ^ maxDepthID - 1.
Proof.
  intros Hd. unfold GridSI.make. cbn [m_maxRasterID].
  rewrite Z.shiftl_1_l.
  assert (0 < 2 ^ maxDepthID) by (apply Z.pow_pos_nonneg; lia).
  assert (2 ^ maxDepthID < 2 ^ 32) by (apply Z.pow_lt_mono_r; lia).
  rewrite (wrap_small 32 (2 ^ maxDepthID)) by lia. apply wrap_small. lia.
Qed.

(** X17.  [Init] of an empty tree with a depth between 1 and the maximum
    of the key type and a non-zero node capacity returns a tree that holds
    exactly the root node, without entities and children and centered in
    the given box, and that is ready for insertions. *)
Theorem Init_gives_root_only (t : OrthoTree) (box : Box) (maxDepthID maxElementNo : Z) :
  m_nodes t = ∅ →
  1 ≤ maxDepthID ≤ MAX_THEORETICAL_DEPTH_ID D →
  maxElementNo ≠ 0 →
  m_maxDepthID t ≤ 32 →
  ∃ t', PointTree.Init D t box maxDepthID maxElementNo = Some t'
        ∧ m_nodes t' = {[ GetRootKey := mkNode [] [] (IGM.GetBoxCenter D box) ]}
        ∧ m_maxDepthID t' = maxDepthID
        ∧ m_maxElementNo t' = maxElementNo
        ∧ m_boxSpace (m_grid t') = box
        ∧ tree_ready t'.
Proof.
  intros Hempty Hd Hel Hold. pose proof (max_depth_le_grid D HD) as H31.
  unfold PointTree.Init, Base.InitBase.
  rewrite bool_decide_eq_true_2 by done. cbn [negb].
  replace (maxDepthID <? 1) with false by (symmetry; apply Z.ltb_ge; lia).
  replace (MAX_THEORETICAL_DEPTH_ID D <? maxDepthID) with false
    by (symmetry; apply Z.ltb_ge; lia).
  replace (255 <=? maxDepthID) with false by (symmetry; apply Z.leb_gt; lia).
  replace (maxElementNo =? 0) with false by (symmetry; by apply Z.eqb_neq).
  replace (32 <? m_maxDepthID t) with false by (symmetry; apply Z.ltb_ge; lia).
  eexists. split; [reflexivity|]. cbn [m_nodes m_maxDepthID m_maxElementNo m_grid].
  split; [done|]. split; [done|]. split; [done|]. split; [done|].
  unfold tree_ready. cbn [m_maxDepthID m_grid m_nodeSizes].
  split; [done|]. split; [apply make_maxRasterID; lia|]. split.
  - rewrite length_imap, length_app, length_take, length_replicate. lia.
  - apply HasNode_true. cbn [m_nodes]. eexists. apply lookup_singleton_eq.
Qed.


(** ** Erasing a point *)

(** [t'] has the grid, the depth and the node sizes of [t], the root if
    [t] has it, and no key that [t] does not have. *)
Definition shrinks (t t' : OrthoTree) : Prop :=
  m_grid t' = m_grid t ∧ m_maxDepthID t' = m_maxDepthID t
  ∧ m_nodeSizes t' = m_nodeSizes t
  ∧ (Base.HasNode t GetRootKey = true → Base.HasNode t' GetRootKey = true)
  ∧ ∀ key, Base.HasNode t' key = true → Base.HasNode t key = true.

Lemma shrinks_refl (t : OrthoTree) : shrinks t t.
Proof. by repeat split. Qed.

Lemma shrinks_trans (t1 t2 t3 : OrthoTree) :
  shrinks t1 t2 → shrinks t2 t3 → shrinks t1 t3.
Proof.
  intros (G1 & M1 & S1 & R1 & N1) (G2 & M2 & S2 & R2 & N2).
  repeat split; [congruence|congruence|congruence|by intros; apply R2, R1|].
  intros key H. by apply N1, N2.
Qed.

Lemma tree_ready_shrinks (t t' : OrthoTree) :
  tree_ready t → shrinks t t' → tree_ready t'.
Proof.
  intros (Hm & Hg & Hs & Hr) (G & M & S & R & N). unfold tree_ready.
  rewrite G, M, S. repeat split; try done; try lia. by apply R.
Qed.

Lemma shrinks_same_keys (t : OrthoTree) (nodes : gmap Z Node) :
  (∀ key, is_Some (nodes !! key) ↔ is_Some (m_nodes t !! key)) →
  shrinks t (set_nodes t nodes).
Proof.
  intros H. repeat split.
  - intros Hr. apply HasNode_true in Hr. apply HasNode_true. cbn [m_nodes set_nodes].
    by apply H.
  - intros key Hk. apply HasNode_true in Hk. apply HasNode_true.
    cbn [m_nodes set_nodes] in Hk. by apply H.
Qed.

Lemma RemoveNodeIfPossible_ok (t : OrthoTree) (k : Z) (node : Node) :
  well_linked t → m_nodes t !! k = Some node →
  ∃ t', Base.RemoveNodeIfPossible D t k node = Some t'
        ∧ well_linked t' ∧ shrinks t t'
        ∧ (∀ x, x ≠ k → x ≠ GetParentKey D k → m_nodes t' !! x = m_nodes t !! x)
        ∧ (∀ n, m_nodes t' !! k = Some n → n = node).
Proof.
  intros Hwf Hk. unfold Base.RemoveNodeIfPossible.
  destruct (Z.eqb_spec k GetRootKey) as [->|Hroot].
  { exists t. split; [done|]. split; [done|]. split; [apply shrinks_refl|].
    split; [done|]. intros n Hn. congruence. }
  destruct (NodeOps.IsAnyChildExist node || negb (NodeOps.IsEntitiesEmpty node)) eqn:E.
  { exists t. split; [done|]. split; [done|]. split; [apply shrinks_refl|].
    split; [done|]. intros n Hn. congruence. }
  apply orb_false_iff in E as [Hch _].
  assert (Hnil : m_children node = []).
  { unfold NodeOps.IsAnyChildExist in Hch. by destruct (m_children node). }
  destruct (Hwf k node Hk) as [_ Hpar]. destruct (Hpar Hroot) as (pn & Hpn & Hin).
  rewrite (update_node_Some _ _ _ _ Hpn).
  change (Some ?x ≫= ?f) with (f x). cbn beta.
  eexists. split; [reflexivity|]. rewrite set_nodes_set_nodes. cbn [m_nodes set_nodes].
  split; [by apply (well_linked_remove_node t k node pn)|].
  split.
  - repeat split.
    + intros Hr. apply HasNode_true in Hr as [rn Hr]. apply HasNode_true.
      cbn [m_nodes set_nodes]. rewrite lookup_delete_ne by done.
      by eapply lookup_insert_keeps.
    + intros key Hkey. apply HasNode_true in Hkey as [kn Hkey]. apply HasNode_true.
      cbn [m_nodes set_nodes] in Hkey.
      rewrite lookup_delete in Hkey. destruct (decide (k = key)); [done|].
      rewrite lookup_insert in Hkey.
      destruct (decide (GetParentKey D k = key)) as [<-|]; by eexists.
  - split.
    + intros x Hx Hxp. rewrite lookup_delete_ne, lookup_insert_ne by done. done.
    + intros n Hn. by rewrite lookup_delete_eq in Hn.
Qed.

Lemma DecreaseEntityIDs_children (n : Node) (id : Z) :
  m_children (NodeOps.DecreaseEntityIDs n id) = m_children n.
Proof. done. Qed.

(** The node found for a point, in both forms of the lookup. *)
Lemma FindSmallestNode_point_inside (t : OrthoTree) (point : list float) :
  tree_ready t →
  IGM.DoesBoxContainPointAD D (m_boxSpace (m_grid t)) point 0 = true →
  ∃ key, Base.FindSmallestNode_point D false t point = Some key
         ∧ IsValidKey key = true ∧ Base.HasNode t key = true.
Proof.
  intros Hready Hinside.
  destruct (point_node_key t point Hready) as (key & j & Hid & Hk & Hj & Hfind & Hin & Hout).
  exists (ancestor key j). unfold Base.FindSmallestNode_point.
  rewrite Hinside. cbn [negb andb]. rewrite Hid.
  change (Some ?x ≫= ?f) with (f x). cbn beta. rewrite Hfind.
  split; [done|]. split; [|done].
  unfold IsValidKey. apply Z.ltb_lt.
  apply (key_of_depth_pos (m_maxDepthID t - j)); [lia|].
  apply key_of_depth_ancestor; [lia|done].
Qed.

Lemma FindSmallestNode_point_outside (t : OrthoTree) (point : list float) :
  IGM.DoesBoxContainPointAD D (m_boxSpace (m_grid t)) point 0 = false →
  Base.FindSmallestNode_point D false t point = Some GetNoneKey.
Proof. intros H. unfold Base.FindSmallestNode_point. by rewrite H. Qed.

Lemma Erase_outcome (DO_UPDATE_ENTITY_IDS : bool) (t : OrthoTree) (entityID : Z)
    (point : list float) :
  tree_ready t → well_linked t →
  ∃ b t', PointTree.Erase D DO_UPDATE_ENTITY_IDS t entityID point = Some (b, t')
          ∧ (b = true ↔ listed_at t entityID point)
          ∧ (b = false → t' = t)
          ∧ tree_ready t' ∧ well_linked t' ∧ shrinks t t'
          ∧ (DO_UPDATE_ENTITY_IDS = false → b = true →
             ∀ key n, Base.FindSmallestNode_point D false t point = Some key →
                      m_nodes t' !! key = Some n → entityID ∉ m_entities n).
Proof.
  intros Hready Hwf. unfold PointTree.Erase.
  destruct (IGM.DoesBoxContainPointAD D (m_boxSpace (m_grid t)) point 0) eqn:Einside.
  2:{ rewrite (FindSmallestNode_point_outside t point Einside).
      change (Some ?x ≫= ?f) with (f x). cbn beta.
      change (IsValidKey GetNoneKey) with false. cbn [negb].
      assert (Hnot : ¬ listed_at t entityID point).
      { intros (key & node & Hf & Hv & _).
        rewrite (FindSmallestNode_point_outside t point Einside) in Hf.
        injection Hf as <-. done. }
      exists false, t. split; [done|]. split; [split; [done|by intros]|].
      split; [done|]. split; [done|]. split; [done|]. split; [apply shrinks_refl|done]. }
  destruct (FindSmallestNode_point_inside t point Hready Einside)
    as (nk & Hfind & Hvalid & Hhas).
  rewrite Hfind. change (Some ?x ≫= ?f) with (f x). cbn beta.
  rewrite Hvalid. cbn [negb].
  apply HasNode_true in Hhas as [node Hnode].
  unfold Base.GetNode. rewrite Hnode.
  change (Some ?x ≫= ?f) with (f x). cbn beta.
  destruct (RemoveEntity_spec node entityID) as (Hfst & Hents & Hchildren).
  destruct (fst (NodeOps.RemoveEntity node entityID)) eqn:Efst; cbn [negb].
  2:{ assert (Hnot : ¬ listed_at t entityID point).
      { intros (key & node' & Hf & Hv & Hn & He).
        assert (key = nk) as -> by congruence. assert (node' = node) as -> by congruence.
        apply Hfst in He. done. }
      exists false, t. split; [done|]. split; [split; [done|by intros]|].
      split; [done|]. split; [done|]. split; [done|]. split; [apply shrinks_refl|done]. }
  set (removed := snd (NodeOps.RemoveEntity node entityID)) in *.
  set (t1 := set_nodes t (<[nk := removed]> (m_nodes t))).
  assert (Hwf1 : well_linked t1) by (by apply (well_linked_update t nk node)).
  assert (Hsh1 : shrinks t t1).
  { apply shrinks_same_keys. intros key. rewrite lookup_insert.
    destruct (decide (nk = key)) as [<-|]; [|done]. split; by eexists. }
  set (t2 := if DO_UPDATE_ENTITY_IDS then Base.DecreaseEntityIDs_all t1 entityID else t1).
  assert (Hwf2 : well_linked t2).
  { unfold t2. destruct DO_UPDATE_ENTITY_IDS; [|done].
    unfold Base.DecreaseEntityIDs_all. by apply well_linked_fmap. }
  assert (Hsh2 : shrinks t1 t2).
  { unfold t2. destruct DO_UPDATE_ENTITY_IDS; [|apply shrinks_refl].
    unfold Base.DecreaseEntityIDs_all. apply shrinks_same_keys. intros key.
    rewrite lookup_fmap. by rewrite fmap_is_Some. }
  assert (Hn2 : ∃ node2, m_nodes t2 !! nk = Some node2
                         ∧ (DO_UPDATE_ENTITY_IDS = false → node2 = removed)).
  { unfold t2. destruct DO_UPDATE_ENTITY_IDS.
    - unfold Base.DecreaseEntityIDs_all, t1. cbn [m_nodes set_nodes].
      rewrite lookup_fmap, lookup_insert_eq. eexists. split; [done|done].
    - exists removed. split; [|done]. unfold t1. cbn [m_nodes set_nodes].
      apply lookup_insert_eq. }
  destruct Hn2 as (node2 & Hnode2 & Hsame).
  fold t1. fold t2. rewrite Hnode2.
  change (Some ?x ≫= ?f) with (f x). cbn beta.
  destruct (RemoveNodeIfPossible_ok t2 nk node2 Hwf2 Hnode2)
    as (t3 & Hrem & Hwf3 & Hsh3 & Hother & Hself).
  rewrite Hrem. change (Some ?x ≫= ?f) with (f x). cbn beta.
  assert (Hsh : shrinks t t3).
  { eapply shrinks_trans; [exact Hsh1|]. eapply shrinks_trans; [exact Hsh2|exact Hsh3]. }
  pose proof (tree_ready_shrinks t t3 Hready Hsh) as Hready3.
  exists true, t3. split; [done|]. split.
  { split; [intros _|done]. exists nk, node. repeat split; try done. by apply Hfst. }
  split; [done|]. split; [done|]. split; [done|]. split; [done|].
  intros Hupd _ key n Hf Hn. assert (key = nk) as -> by congruence.
  rewrite (Hself n Hn), (Hsame Hupd), Hents.
  intros Hin. apply list_elem_of_filter in Hin as [Hne _]. done.
Qed.

(** ** The lookup that also returns the depth *)

Lemma FindSmallestNodeKeyWithDepth_loop_found (t : OrthoTree) (j : nat) :
  ∀ (fuel : nat) (key depthID : Z),
    (j ≤ fuel)%nat → Z.of_nat j ≤ depthID < 2 ^ 32 →
    (∀ i, 0 ≤ i ≤ Z.of_nat j → 0 < ancestor key i) →
    Base.HasNode t (ancestor key (Z.of_nat j)) = true →
    (∀ i, 0 ≤ i < Z.of_nat j → Base.HasNode t (ancestor key i) = false) →
    Base.FindSmallestNodeKeyWithDepth_loop D fuel t key depthID
    = (ancestor key (Z.of_nat j), depthID - Z.of_nat j).
Proof.
  induction j as [|j IH]; intros fuel key depthID Hf Hdep Hpos Hin Hout.
  - change (Z.of_nat 0) with 0 in *. rewrite ancestor_0 in *. rewrite Z.sub_0_r.
    specialize (Hpos 0 ltac:(lia)). rewrite ancestor_0 in Hpos.
    destruct fuel; simpl; unfold IsValidKey;
      (replace (0 <? key) with true by (symmetry; apply Z.ltb_lt; lia));
      by rewrite Hin.
  - destruct fuel as [|fuel]; [lia|].
    pose proof (Hpos 0 ltac:(lia)) as Hk. rewrite ancestor_0 in Hk.
    pose proof (Hout 0 ltac:(lia)) as Hk0. rewrite ancestor_0 in Hk0.
    simpl. unfold IsValidKey.
    replace (0 <? key) with true by (symmetry; apply Z.ltb_lt; lia).
    rewrite Hk0. rewrite Nat2Z.inj_succ, <- Z.add_1_r in *.
    rewrite (wrap_small 32 (depthID - 1)) by lia.
    rewrite <- ancestor_parent by lia.
    rewrite (IH fuel (GetParentKey D key) (depthID - 1)); [f_equal; lia|lia|lia| | |].
    + intros i Hi. rewrite ancestor_parent by lia. apply Hpos. lia.
    + by rewrite ancestor_parent by lia.
    + intros i Hi. rewrite ancestor_parent by lia. apply Hout. lia.
Qed.

(** X25.  [FindSmallestNodeKeyWithDepth] returns the key that
    [FindSmallestNodeKey] returns, together with the depth of that key. *)
Theorem FindSmallestNodeKeyWithDepth_agrees (t : OrthoTree) (d key j : Z) :
  0 ≤ d ≤ MAX_THEORETICAL_DEPTH_ID D → key_of_depth D d key →
  0 ≤ j ≤ d →
  Base.HasNode t (ancestor key j) = true →
  (∀ i, 0 ≤ i < j → Base.HasNode t (ancestor key i) = false) →
  Base.FindSmallestNodeKeyWithDepth D t key
  = Some (Base.FindSmallestNodeKey D t key, d - j)
  ∧ GetDepthID D (Base.FindSmallestNodeKey D t key) = Some (d - j).
Proof.
  intros Hd Hk Hj Hin Hout. pose proof (max_depth_le_grid D HD) as H31.
  destruct (FindSmallestNodeKey_spec t d key ltac:(lia) Hk) as [Hfound _].
  rewrite (Hfound j Hj Hin Hout).
  split.
  - unfold Base.FindSmallestNodeKeyWithDepth.
    rewrite (GetDepthID_key_of_depth d key Hd Hk).
    change (Some ?x ≫= ?f) with (f x). cbn beta. f_equal.
    rewrite (key_fuel_depth d key ltac:(lia) Hk).
    pose proof (FindSmallestNodeKeyWithDepth_loop_found t (Z.to_nat j)
                  (Z.to_nat (d * D + 1)) key d) as Hloop.
    rewrite Z2Nat.id in Hloop by lia. apply Hloop.
    + nia.
    + split; [lia|].
      assert (2 ^ 5 ≤ 2 ^ 32) by (by apply Z.pow_le_mono_r). change (2 ^ 5) with 32 in *. lia.
    + intros i Hi. apply (key_of_depth_pos (d - i)); [lia|].
      apply key_of_depth_ancestor; [lia|done].
    + done.
    + intros i Hi. apply Hout. lia.
  - apply GetDepthID_key_of_depth; [lia|]. by apply key_of_depth_ancestor.
Qed.

(** X14.  [FindSmallestNodeKey] of a key of depth [d] returns the deepest
    key of the node store among the key and its ancestors; when none of them is
    stored it returns the invalid key 0. *)
Theorem FindSmallestNodeKey_deepest_stored (t : OrthoTree) (d key : Z) :
  0 ≤ d → key_of_depth D d key →
  (∀ j, 0 ≤ j ≤ d →
        Base.HasNode t (ancestor key j) = true →
        (∀ i, 0 ≤ i < j → Base.HasNode t (ancestor key i) = false) →
        Base.FindSmallestNodeKey D t key = ancestor key j)
  ∧ ((∀ i, 0 ≤ i ≤ d → Base.HasNode t (ancestor key i) = false) →
     Base.FindSmallestNodeKey D t key = GetNoneKey).
Proof. exact (FindSmallestNodeKey_spec t d key). Qed.

(** ** Erasing an id without its geometry *)

(** The body of the loop of [EraseEntityBase] over the nodes, for an id
    that is stored in one node only. *)
Definition erase_step (entityID : Z)
    (acc : option (OrthoTree * list Z * bool * bool)) (nodeKey : Z)
  : option (OrthoTree * list Z * bool * bool) :=
  st ← acc;
  let '(t, erasableNodes, isErased, stopped) :=
    (st : OrthoTree * list Z * bool * bool) in
  if stopped then Some st
  else
    node ← Base.GetNode t nodeKey;
    let removed := NodeOps.RemoveEntity node entityID in
    if negb (fst removed) then Some st
    else
      let t1 := set_nodes t (<[nodeKey := snd removed]> (m_nodes t)) in
      if false
      then Some (t1, erasableNodes ++ [nodeKey], true, false)
      else
        t2 ← Base.RemoveNodeIfPossible D t1 nodeKey (snd removed);
        Some (t2, erasableNodes, true, true).

Lemma erase_loop_stopped (entityID : Z) (l : list Z) (t : OrthoTree) (e : list Z)
    (b : bool) :
  foldl (erase_step entityID) (Some (t, e, b, true)) l = Some (t, e, b, true).
Proof. induction l as [|k l IH]; [done|]. cbn [foldl]. exact IH. Qed.

(** Some node of the list lists the id. *)
Definition listed_in (t : OrthoTree) (entityID : Z) (keys : list Z) : Prop :=
  ∃ key node, key ∈ keys ∧ m_nodes t !! key = Some node ∧ entityID ∈ m_entities node.

Lemma erase_loop_outcome (entityID : Z) (l : list Z) :
  ∀ t, well_linked t → (∀ k, k ∈ l → Base.HasNode t k = true) →
  ∃ t2 b,
    foldl (erase_step entityID) (Some (t, [], false, false)) l = Some (t2, [], b, b)
    ∧ (b = true ↔ listed_in t entityID l)
    ∧ (b = false → t2 = t)
    ∧ well_linked t2 ∧ shrinks t t2.
Proof.
  induction l as [|k l IH]; intros t Hwf Hstored.
  - exists t, false. split; [done|]. split.
    { split; [done|]. intros (key & node & Hin & _). by apply elem_of_nil in Hin. }
    split; [done|]. split; [done|apply shrinks_refl].
  - cbn [foldl]. unfold erase_step at 2.
    change (Some ?x ≫= ?f) with (f x). cbn beta iota.
    destruct (proj1 (HasNode_true t k) (Hstored k ltac:(by apply elem_of_cons; left)))
      as [node Hnode].
    unfold Base.GetNode. rewrite Hnode.
    change (Some ?x ≫= ?f) with (f x). cbn beta.
    destruct (RemoveEntity_spec node entityID) as (Hfst & Hents & Hchildren).
    destruct (fst (NodeOps.RemoveEntity node entityID)) eqn:Efst; cbn [negb].
    + (* the id is found in this node: the loop ends *)
      set (removed := snd (NodeOps.RemoveEntity node entityID)) in *.
      set (t1 := set_nodes t (<[k := removed]> (m_nodes t))).
      assert (Hwf1 : well_linked t1) by (by apply (well_linked_update t k node)).
      assert (Hsh1 : shrinks t t1).
      { apply shrinks_same_keys. intros key. rewrite lookup_insert.
        destruct (decide (k = key)) as [<-|]; [|done]. split; by eexists. }
      assert (Hn1 : m_nodes t1 !! k = Some removed)
        by (unfold t1; cbn [m_nodes set_nodes]; apply lookup_insert_eq).
      destruct (RemoveNodeIfPossible_ok t1 k removed Hwf1 Hn1)
        as (t2 & Hrem & Hwf2 & Hsh2 & _).
      rewrite Hrem. change (Some ?x ≫= ?f) with (f x). cbn beta.
      rewrite erase_loop_stopped.
      exists t2, true. split; [done|]. split.
      { split; [intros _|done]. exists k, node.
        split; [by apply elem_of_cons; left|]. split; [done|by apply Hfst]. }
      split; [done|]. split; [done|]. by eapply shrinks_trans.
    + (* not in this node: go on *)
      destruct (IH t Hwf) as (t2 & b & Hloop & Hb & Hsame & Hwf2 & Hsh2).
      { intros k' Hk'. apply Hstored. by apply elem_of_cons; right. }
      exists t2, b. split; [done|]. split; [|done].
      rewrite Hb. split.
      * intros (key & n & Hin & Hn & He). exists key, n.
        split; [by apply elem_of_cons; right|done].
      * intros (key & n & Hin & Hn & He).
        apply elem_of_cons in Hin as [->|Hin].
        -- assert (n = node) as -> by congruence. apply Hfst in He. done.
        -- by exists key, n.
Qed.

Lemma EraseEntity_outcome (DO_UPDATE_ENTITY_IDS : bool) (iteration : list Z)
    (t : OrthoTree) (entityID : Z) :
  well_linked t → (∀ k, k ∈ iteration → Base.HasNode t k = true) →
  ∃ b t', PointTree.EraseEntity D DO_UPDATE_ENTITY_IDS iteration t entityID = Some (b, t')
          ∧ (b = true ↔ listed_in t entityID iteration)
          ∧ (b = false → t' = t)
          ∧ well_linked t' ∧ shrinks t t'.
Proof.
  intros Hwf Hstored. unfold PointTree.EraseEntity, Base.EraseEntityBase.
  change (foldl _ (Some (t, [], false, false)) iteration)
    with (foldl (erase_step entityID) (Some (t, [], false, false)) iteration).
  destruct (erase_loop_outcome entityID iteration t Hwf Hstored)
    as (t2 & b & Hloop & Hb & Hsame & Hwf2 & Hsh2).
  rewrite Hloop. change (Some ?x ≫= ?f) with (f x). cbn beta iota.
  destruct b; cbn [negb].
  - change (Some ?x ≫= ?f) with (f x). cbn beta.
    eexists true, _. split; [reflexivity|]. split; [done|]. split; [done|].
    destruct DO_UPDATE_ENTITY_IDS; [|done].
    unfold Base.DecreaseEntityIDs_all. split; [by apply well_linked_fmap|].
    eapply shrinks_trans; [exact Hsh2|]. apply shrinks_same_keys. intros key.
    rewrite lookup_fmap. by rewrite fmap_is_Some.
  - exists false, t2. split; [done|]. split; [done|]. split; [done|]. done.
Qed.

(** ** The point tree: insertion, lookup, erasure *)

(** X15.  On an initialised tree, [Insert] of a point returns, and its
    result is [true] exactly when the point is inside the handled space; the
    tree stays initialised, keeps its nodes, and a well linked node store
    stays well linked. *)
Theorem point_Insert_true_iff_inside (t : OrthoTree) (entityID : Z)
    (point : list float) (doInsertToLeaf : bool) :
  tree_ready t →
  ∃ t', PointTree.Insert D t entityID point doInsertToLeaf
        = Some (IGM.DoesBoxContainPointAD D (m_boxSpace (m_grid t)) point 0, t')
        ∧ tree_ready t' ∧ extends t t' ∧ (well_linked t → well_linked t').
Proof. apply Insert_outcome. Qed.

(** X16.  After a successful [Insert] of a point, the node found for that
    point by [FindSmallestNode] lists the inserted id. *)
Theorem point_Insert_then_lookup (t t' : OrthoTree) (entityID : Z)
    (point : list float) (doInsertToLeaf : bool) :
  tree_ready t →
  PointTree.Insert D t entityID point doInsertToLeaf = Some (true, t') →
  ∃ key node,
    Base.FindSmallestNode_point D false t' point = Some key
    ∧ IsValidKey key = true
    ∧ m_nodes t' !! key = Some node
    ∧ entityID ∈ m_entities node.
Proof. apply Insert_listed. Qed.

(** X18.  On an initialised, well linked tree, [Erase] of an id with its
    point returns; the result is [true] exactly when the node found for the
    point lists the id; on [false] the tree is unchanged; the tree stays
    initialised and well linked, the root is never removed and no node is
    added; and without the update of the ids the node of the point, if it is
    still stored, no longer lists the id. *)
Theorem point_Erase_outcome (DO_UPDATE_ENTITY_IDS : bool) (t : OrthoTree)
    (entityID : Z) (point : list float) :
  tree_ready t → well_linked t →
  ∃ b t', PointTree.Erase D DO_UPDATE_ENTITY_IDS t entityID point = Some (b, t')
          ∧ (b = true ↔ listed_at t entityID point)
          ∧ (b = false → t' = t)
          ∧ tree_ready t' ∧ well_linked t' ∧ shrinks t t'
          ∧ (DO_UPDATE_ENTITY_IDS = false → b = true →
             ∀ key n, Base.FindSmallestNode_point D false t point = Some key →
                      m_nodes t' !! key = Some n → entityID ∉ m_entities n).
Proof. apply Erase_outcome. Qed.

(** X19.  An id that [Insert] has just stored for a point is found again
    by [Erase] with the same point: the erasure returns [true]. *)
Theorem point_Insert_then_Erase (DO_UPDATE_ENTITY_IDS doInsertToLeaf : bool)
    (t t' : OrthoTree) (entityID : Z) (point : list float) :
  tree_ready t → well_linked t →
  PointTree.Insert D t entityID point doInsertToLeaf = Some (true, t') →
  ∃ t'', PointTree.Erase D DO_UPDATE_ENTITY_IDS t' entityID point = Some (true, t'')
         ∧ tree_ready t'' ∧ well_linked t''.
Proof.
  intros Hready Hwf Hins.
  pose proof (Insert_listed t t' entityID point doInsertToLeaf Hready Hins) as Hlisted.
  destruct (Insert_outcome t entityID point doInsertToLeaf Hready)
    as (t1 & Hins1 & Hready1 & _ & Hwf1).
  rewrite Hins in Hins1. injection Hins1 as _ <-.
  destruct (Erase_outcome DO_UPDATE_ENTITY_IDS t' entityID point Hready1 (Hwf1 Hwf))
    as (b & t'' & Herase & Hb & _ & Hready2 & Hwf2 & _).
  apply Hb in Hlisted. subst b. by exists t''.
Qed.

(** X26.  On a well linked tree, [EraseEntity] of the point tree, visiting
    stored nodes in any order, returns; the result is [true] exactly when one
    of the visited nodes lists the id; on [false] the tree is unchanged; the
    tree stays well linked, keeps its root and gets no new key. *)
Theorem point_EraseEntity_outcome (DO_UPDATE_ENTITY_IDS : bool) (iteration : list Z)
    (t : OrthoTree) (entityID : Z) :
  well_linked t → (∀ k, k ∈ iteration → Base.HasNode t k = true) →
  ∃ b t', PointTree.EraseEntity D DO_UPDATE_ENTITY_IDS iteration t entityID = Some (b, t')
          ∧ (b = true ↔ listed_in t entityID iteration)
          ∧ (b = false → t' = t)
          ∧ well_linked t' ∧ shrinks t t'.
Proof. exact (EraseEntity_outcome DO_UPDATE_ENTITY_IDS iteration t entityID). Qed.

(** ** Clearing *)

(** X27.  [Clear] crashes on a tree without root; otherwise it leaves
    exactly the root, emptied of entities and children, with its center, and
    keeps the grid and the depth, so that an initialised tree stays
    initialised. *)
Theorem Clear_leaves_empty_root (t : OrthoTree) :
  (m_nodes t !! GetRootKey = None → Base.Clear t = None)
  ∧ (∀ root, m_nodes t !! GetRootKey = Some root →
       ∃ t', Base.Clear t = Some t'
             ∧ m_nodes t' = {[ GetRootKey := mkNode [] [] (m_center root) ]}
             ∧ m_grid t' = m_grid t ∧ m_maxDepthID t' = m_maxDepthID t
             ∧ (tree_ready t → tree_ready t' ∧ well_linked t')).
Proof.
  unfold Base.Clear, update_node. cbn [m_nodes set_nodes]. split.
  - intros Hnone.
    replace (filter (λ kv : Z * Node, kv.1 = GetRootKey) (m_nodes t) !! GetRootKey)
      with (@None Node); [done|].
    symmetry. apply map_lookup_filter_None. by left.
  - intros root Hroot.
    replace (filter (λ kv : Z * Node, kv.1 = GetRootKey) (m_nodes t) !! GetRootKey)
      with (Some root) by (symmetry; by apply map_lookup_filter_Some).
    change (Some ?x ≫= ?f) with (f x). cbn beta.
    assert (Hnodes : <[GetRootKey := NodeOps.Clear root]>
                       (filter (λ kv : Z * Node, kv.1 = GetRootKey) (m_nodes t))
                     = {[ GetRootKey := mkNode [] [] (m_center root) ]}).
    { apply map_eq. intros k. rewrite lookup_insert, lookup_singleton.
      destruct (decide (GetRootKey = k)) as [<-|Hne]; [done|].
      apply map_lookup_filter_None. right. intros x _ Hk. cbn in Hk. congruence. }
    eexists. split; [reflexivity|]. cbn [m_nodes set_nodes m_grid m_maxDepthID].
    split; [done|]. split; [done|]. split; [done|].
    intros (Hm & Hg & Hs & Hr). split.
    + unfold tree_ready. cbn [m_maxDepthID m_grid m_nodeSizes set_nodes].
      split; [done|]. split; [done|]. split; [done|].
      apply HasNode_true. cbn [m_nodes]. rewrite Hnodes. eexists. apply lookup_singleton_eq.
    + intros key node. cbn [m_nodes set_nodes]. rewrite Hnodes.
      intros Hl. apply lookup_singleton_Some in Hl as [<- <-]. split; [constructor|done].
Qed.

End Trees.
End TreeFacts.

(** A quadtree of depth 3 over the unit square, holding only the root. *)
Definition unit_square : Box := mkBox [0%float; 0%float] [1%float; 1%float].
Definition unit_square_tree : OrthoTree :=
  mkTree {[ 1 := mkNode [] [] [0.5%float; 0.5%float] ]} 10 3
         [[1%float; 1%float]; [0.5%float; 0.5%float]; [0.25%float; 0.25%float];
          [0.125%float; 0.125%float]; [0.0625%float; 0.0625%float];
          [0.03125%float; 0.03125%float]]
         (GridSI.make 2 3 unit_square).

Lemma point_outside_is_refused_witness :
  PointTree.Insert 2 unit_square_tree 0 [2%float; 0.5%float] false
  = Some (false, unit_square_tree)
  ∧ PointTree.InsertWithRebalancing 2 unit_square_tree 0 [2%float; 0.5%float] []
    = Some (false, unit_square_tree)
  ∧ PointTree.Update_id 2 [1] unit_square_tree 0 [2%float; 0.5%float] false
    = Some (false, unit_square_tree)
  ∧ PointTree.Update_old 2 unit_square_tree 0 [0.5%float; 0.5%float]
      [2%float; 0.5%float] false = Some (false, unit_square_tree)
  ∧ PointTree.Update_id_rebalancing 2 [1] unit_square_tree 0 [2%float; 0.5%float] []
    = Some (false, unit_square_tree)
  ∧ PointTree.Update_old_rebalancing 2 unit_square_tree 0 [0.5%float; 0.5%float]
      [2%float; 0.5%float] [] = Some (false, unit_square_tree).
Proof.
  apply TreeFacts.point_outside_is_refused.
  exists 0. split; [lia|]. right. vm_compute. reflexivity.
Defined.

Lemma box_outside_is_refused_witness :
  BoxTree.Insert 2 false unit_square_tree 0
    (mkBox [0.5%float; 0.5%float] [2%float; 0.75%float]) false
  = Some (false, unit_square_tree)
  ∧ BoxTree.InsertWithRebalancing 2 false unit_square_tree 0
      (mkBox [0.5%float; 0.5%float] [2%float; 0.75%float]) []
    = Some (false, unit_square_tree)
  ∧ BoxTree.Update_id 2 false [1] unit_square_tree 0
      (mkBox [0.5%float; 0.5%float] [2%float; 0.75%float]) false
    = Some (false, unit_square_tree)
  ∧ BoxTree.Update_old 2 false unit_square_tree 0 unit_square
      (mkBox [0.5%float; 0.5%float] [2%float; 0.75%float]) false
    = Some (false, unit_square_tree)
  ∧ BoxTree.Update_id_rebalancing 2 false [1] unit_square_tree 0
      (mkBox [0.5%float; 0.5%float] [2%float; 0.75%float]) []
    = Some (false, unit_square_tree)
  ∧ BoxTree.Update_old_rebalancing 2 false unit_square_tree 0 unit_square
      (mkBox [0.5%float; 0.5%float] [2%float; 0.75%float]) []
    = Some (false, unit_square_tree).
Proof.
  apply TreeFacts.box_outside_is_refused.
  exists 0. split; [lia|]. right. right. right. vm_compute. reflexivity.
Defined.

Lemma FindSmallestNodeKey_deepest_stored_witness :
  (∀ j, 0 ≤ j ≤ 2 →
        Base.HasNode unit_square_tree (TreeFacts.ancestor 2 22 j) = true →
        (∀ i, 0 ≤ i < j → Base.HasNode unit_square_tree (TreeFacts.ancestor 2 22 i) = false) →
        Base.FindSmallestNodeKey 2 unit_square_tree 22 = TreeFacts.ancestor 2 22 j)
  ∧ ((∀ i, 0 ≤ i ≤ 2 → Base.HasNode unit_square_tree (TreeFacts.ancestor 2 22 i) = false) →
     Base.FindSmallestNodeKey 2 unit_square_tree 22 = SI.GetNoneKey).
Proof.
  apply (TreeFacts.FindSmallestNodeKey_deepest_stored 2 ltac:(lia) unit_square_tree 2 22).
  - lia.
  - vm_compute. split; [discriminate|reflexivity].
Defined.

Lemma unit_square_tree_ready : TreeFacts.tree_ready 2 unit_square_tree.
Proof.
  split; [|split; [|split]].
  - vm_compute. split; discriminate.
  - vm_compute. reflexivity.
  - vm_compute. reflexivity.
  - vm_compute. reflexivity.
Defined.

Lemma point_Insert_true_iff_inside_witness :
  ∃ t', PointTree.Insert 2 unit_square_tree 7 [0.25%float; 0.25%float] false
        = Some (IGM.DoesBoxContainPointAD 2 (m_boxSpace (m_grid unit_square_tree))
                  [0.25%float; 0.25%float] 0, t')
        ∧ TreeFacts.tree_ready 2 t' ∧ TreeFacts.extends unit_square_tree t'
        ∧ (TreeFacts.well_linked 2 unit_square_tree → TreeFacts.well_linked 2 t').
Proof.
  apply (TreeFacts.point_Insert_true_iff_inside 2 ltac:(lia)).
  exact unit_square_tree_ready.
Defined.

(** The tree after inserting entity 7 at (0.25, 0.25) into a leaf. *)
Definition unit_square_tree_with_7 : OrthoTree :=
  default unit_square_tree
    (snd <$> PointTree.Insert 2 unit_square_tree 7 [0.25%float; 0.25%float] true).

Lemma point_Insert_then_lookup_witness :
  ∃ key node,
    Base.FindSmallestNode_point 2 false unit_square_tree_with_7 [0.25%float; 0.25%float]
    = Some key
    ∧ SI.IsValidKey key = true
    ∧ m_nodes unit_square_tree_with_7 !! key = Some node
    ∧ 7 ∈ m_entities node.
Proof.
  apply (TreeFacts.point_Insert_then_lookup 2 ltac:(lia) unit_square_tree
           unit_square_tree_with_7 7 [0.25%float; 0.25%float] true).
  - exact unit_square_tree_ready.
  - vm_compute. reflexivity.
Defined.

Lemma Init_gives_root_only_witness :
  ∃ t', PointTree.Init 2 (mkTree ∅ 0 0 [] (GridSI.empty 2)) unit_square 3 10 = Some t'
        ∧ m_nodes t' = {[ SI.GetRootKey := mkNode [] [] (IGM.GetBoxCenter 2 unit_square) ]}
        ∧ m_maxDepthID t' = 3
        ∧ m_maxElementNo t' = 10
        ∧ m_boxSpace (m_grid t') = unit_square
        ∧ TreeFacts.tree_ready 2 t'.
Proof.
  apply (TreeFacts.Init_gives_root_only 2 ltac:(lia)).
  - reflexivity.
  - vm_compute. split; discriminate.
  - lia.
  - cbn [m_maxDepthID]. lia.
Defined.

Lemma unit_square_tree_well_linked : TreeFacts.well_linked 2 unit_square_tree.
Proof.
  intros key node H. unfold unit_square_tree in H. cbn [m_nodes] in H.
  apply lookup_singleton_Some in H as [<- <-]. split; [constructor|done].
Defined.

Lemma point_Erase_outcome_witness :
  ∃ b t', PointTree.Erase 2 false unit_square_tree 7 [0.25%float; 0.25%float]
          = Some (b, t')
          ∧ (b = true ↔ TreeFacts.listed_at 2 unit_square_tree 7 [0.25%float; 0.25%float])
          ∧ (b = false → t' = unit_square_tree)
          ∧ TreeFacts.tree_ready 2 t' ∧ TreeFacts.well_linked 2 t'
          ∧ TreeFacts.shrinks unit_square_tree t'
          ∧ (false = false → b = true →
             ∀ key n,
               Base.FindSmallestNode_point 2 false unit_square_tree
                 [0.25%float; 0.25%float] = Some key →
               m_nodes t' !! key = Some n → 7 ∉ m_entities n).
Proof.
  apply (TreeFacts.point_Erase_outcome 2 ltac:(lia)).
  - exact unit_square_tree_ready.
  - exact unit_square_tree_well_linked.
Defined.

Lemma point_Insert_then_Erase_witness :
  ∃ t'', PointTree.Erase 2 false unit_square_tree_with_7 7 [0.25%float; 0.25%float]
         = Some (true, t'')
         ∧ TreeFacts.tree_ready 2 t'' ∧ TreeFacts.well_linked 2 t''.
Proof.
  apply (TreeFacts.point_Insert_then_Erase 2 ltac:(lia) false true unit_square_tree).
  - exact unit_square_tree_ready.
  - exact unit_square_tree_well_linked.
  - vm_compute. reflexivity.
Defined.

Lemma FindSmallestNodeKeyWithDepth_agrees_witness :
  Base.FindSmallestNodeKeyWithDepth 2 unit_square_tree 22
  = Some (Base.FindSmallestNodeKey 2 unit_square_tree 22, 2 - 2)
  ∧ SI.GetDepthID 2 (Base.FindSmallestNodeKey 2 unit_square_tree 22) = Some (2 - 2).
Proof.
  apply (TreeFacts.FindSmallestNodeKeyWithDepth_agrees 2 ltac:(lia) unit_square_tree 2 22 2).
  - vm_compute. split; discriminate.
  - vm_compute. split; [discriminate|reflexivity].
  - lia.
  - vm_compute. reflexivity.
  - intros i Hi. assert (i = 0 ∨ i = 1) as [->| ->] by lia; vm_compute; reflexivity.
Defined.

Lemma point_EraseEntity_outcome_witness :
  ∃ b t', PointTree.EraseEntity 2 false [1] unit_square_tree 7 = Some (b, t')
          ∧ (b = true ↔ TreeFacts.listed_in unit_square_tree 7 [1])
          ∧ (b = false → t' = unit_square_tree)
          ∧ TreeFacts.well_linked 2 t' ∧ TreeFacts.shrinks unit_square_tree t'.
Proof.
  apply (TreeFacts.point_EraseEntity_outcome 2 false [1] unit_square_tree 7).
  - exact unit_square_tree_well_linked.
  - intros k Hk. apply list_elem_of_singleton in Hk as ->. reflexivity.
Defined.

(** * Geometry: the order of [double], bounding boxes, box relations *)

Module GeomFacts.
Import RayFacts.

(** ** The order of the floating point numbers *)

Lemma compare_cont_Eq (p q : positive) :
  PosDef.Pos.compare_cont Eq p q = (p ?= q)%positive.
Proof. reflexivity. Qed.

Ltac fold_pos_compare :=
  repeat match goal with
         | |- context [PosDef.Pos.compare_cont Eq ?p ?q] =>
             change (PosDef.Pos.compare_cont Eq p q) with (Pos.compare p q)
         | H : context [PosDef.Pos.compare_cont Eq ?p ?q] |- _ =>
             change (PosDef.Pos.compare_cont Eq p q) with (Pos.compare p q) in H
         end.

Lemma SFleb_trans (x y z : spec_float) :
  SFleb x y = true → SFleb y z = true → SFleb x z = true.
Proof.
  unfold SFleb.
  destruct x as [sx|sx| |sx mx ex], y as [sy|sy| |sy my ey], z as [sz|sz| |sz mz ez];
    cbn [SFcompare]; try done;
    try (destruct sx; done); try (destruct sy; done); try (destruct sz; done);
    try (destruct sx, sy; done); try (destruct sy, sz; done); try (destruct sx, sz; done);
    try (destruct sx, sy, sz; done).
  fold_pos_compare.
  destruct sx, sy, sz; try done;
    destruct (Z.compare_spec ex ey), (Z.compare_spec ey ez), (Z.compare_spec ex ez);
    try lia; try done; subst;
    destruct (Pos.compare_spec mx my), (Pos.compare_spec my mz), (Pos.compare_spec mx mz);
    try lia; try done.
Qed.

Lemma leb_trans (a b c : float) :
  (a <=? b)%float = true → (b <=? c)%float = true → (a <=? c)%float = true.
Proof. rewrite !FloatAxioms.leb_spec. apply SFleb_trans. Qed.

Lemma leb_not_nan (a b : float) :
  (a <=? b)%float = true → is_nan a = false ∧ is_nan b = false.
Proof.
  rewrite FloatAxioms.leb_spec. intros H.
  assert (FloatOps.Prim2SF a ≠ S754_nan ∧ FloatOps.Prim2SF b ≠ S754_nan) as [Ha Hb].
  { unfold SFleb in H.
    destruct (FloatOps.Prim2SF a), (FloatOps.Prim2SF b); try done. }
  split.
  - destruct (is_nan a) eqn:E; [|done]. exfalso. apply Ha.
    unfold is_nan in E. apply negb_true_iff in E.
    rewrite FloatAxioms.eqb_spec in E. unfold SFeqb in E.
    destruct (FloatOps.Prim2SF a) as [s|s| |s m e] eqn:Ea; try done.
    + by destruct s.
    + cbn [SFcompare] in E. fold_pos_compare.
      rewrite Z.compare_refl, Pos.compare_refl in E. by destruct s.
  - destruct (is_nan b) eqn:E; [|done]. exfalso. apply Hb.
    unfold is_nan in E. apply negb_true_iff in E.
    rewrite FloatAxioms.eqb_spec in E. unfold SFeqb in E.
    destruct (FloatOps.Prim2SF b) as [s|s| |s m e] eqn:Eb; try done.
    + by destruct s.
    + cbn [SFcompare] in E. fold_pos_compare.
      rewrite Z.compare_refl, Pos.compare_refl in E. by destruct s.
Qed.

Lemma leb_refl (a : float) : is_nan a = false → (a <=? a)%float = true.
Proof.
  intros H. rewrite FloatAxioms.leb_spec. apply Prim2SF_not_nan in H. unfold SFleb.
  destruct (FloatOps.Prim2SF a) as [s|s| |s m e]; cbn [SFcompare]; try done.
  - by destruct s.
  - fold_pos_compare. rewrite Z.compare_refl, Pos.compare_refl. by destruct s.
Qed.

Lemma ltb_not_nan (a b : float) :
  (a <? b)%float = true → is_nan a = false ∧ is_nan b = false.
Proof.
  intros H. apply leb_not_nan. rewrite FloatAxioms.leb_spec.
  rewrite FloatAxioms.ltb_spec in H. unfold SFltb in H. unfold SFleb.
  by destruct (SFcompare _ _) as [[]|].
Qed.

Lemma ltb_leb (a b : float) : (a <? b)%float = true → (a <=? b)%float = true.
Proof.
  rewrite FloatAxioms.leb_spec, FloatAxioms.ltb_spec. unfold SFltb, SFleb.
  by destruct (SFcompare _ _) as [[]|].
Qed.

Lemma not_ltb_leb (a b : float) :
  is_nan a = false → is_nan b = false → (a <? b)%float = false → (b <=? a)%float = true.
Proof. intros Ha Hb H. rewrite (ltb_negb_leb a b) in H by done. by destruct (b <=? a)%float. Qed.

Lemma leb_not_ltb (a b : float) : (a <=? b)%float = true → (b <? a)%float = false.
Proof.
  intros H. destruct (leb_not_nan a b H) as [Ha Hb].
  rewrite (ltb_negb_leb b a) by done. by rewrite H.
Qed.

(** ** Running minimum and maximum *)

Section Running.

Context {A : Type}.
Variable g : A → float.

Definition run_min (m0 : float) (l : list A) : float :=
  foldl (fun m a => if (g a <? m)%float then g a else m) m0 l.

Definition run_max (m0 : float) (l : list A) : float :=
  foldl (fun m a => if (m <? g a)%float then g a else m) m0 l.

Lemma run_min_not_nan (l : list A) (m0 : float) :
  is_nan m0 = false → is_nan (run_min m0 l) = false.
Proof.
  revert m0. induction l as [|a l IH]; intros m0 H0; [done|].
  cbn [run_min foldl]. apply IH.
  destruct (g a <? m0)%float eqn:E; [|done]. by apply ltb_not_nan in E as [H _].
Qed.

Lemma run_max_not_nan (l : list A) (m0 : float) :
  is_nan m0 = false → is_nan (run_max m0 l) = false.
Proof.
  revert m0. induction l as [|a l IH]; intros m0 H0; [done|].
  cbn [run_max foldl]. apply IH.
  destruct (m0 <? g a)%float eqn:E; [|done]. by apply ltb_not_nan in E as [_ H].
Qed.

Lemma run_min_le_start (l : list A) (m0 : float) :
  is_nan m0 = false → (run_min m0 l <=? m0)%float = true.
Proof.
  revert m0. induction l as [|a l IH]; intros m0 H0; [by apply leb_refl|].
  cbn [run_min foldl]. destruct (g a <? m0)%float eqn:E.
  - apply (leb_trans _ (g a)); [|by apply ltb_leb].
    apply IH. by apply ltb_not_nan in E as [H _].
  - by apply IH.
Qed.

Lemma run_max_ge_start (l : list A) (m0 : float) :
  is_nan m0 = false → (m0 <=? run_max m0 l)%float = true.
Proof.
  revert m0. induction l as [|a l IH]; intros m0 H0; [by apply leb_refl|].
  cbn [run_max foldl]. destruct (m0 <? g a)%float eqn:E.
  - apply (leb_trans _ (g a)); [by apply ltb_leb|].
    apply IH. by apply ltb_not_nan in E as [_ H].
  - by apply IH.
Qed.

Lemma run_min_le_elem (l : list A) (m0 : float) (a : A) :
  is_nan m0 = false → a ∈ l → is_nan (g a) = false →
  (run_min m0 l <=? g a)%float = true.
Proof.
  revert m0. induction l as [|b l IH]; intros m0 H0 Hin Ha.
  - by apply elem_of_nil in Hin.
  - cbn [run_min foldl].
    assert (H1 : is_nan (if (g b <? m0)%float then g b else m0) = false).
    { destruct (g b <? m0)%float eqn:E; [|done]. by apply ltb_not_nan in E as [H _]. }
    apply elem_of_cons in Hin as [->|Hin]; [|by apply IH].
    eapply leb_trans; [by apply run_min_le_start|].
    destruct (g b <? m0)%float eqn:E; [by apply leb_refl|by apply not_ltb_leb].
Qed.

Lemma run_max_ge_elem (l : list A) (m0 : float) (a : A) :
  is_nan m0 = false → a ∈ l → is_nan (g a) = false →
  (g a <=? run_max m0 l)%float = true.
Proof.
  revert m0. induction l as [|b l IH]; intros m0 H0 Hin Ha.
  - by apply elem_of_nil in Hin.
  - cbn [run_max foldl].
    assert (H1 : is_nan (if (m0 <? g b)%float then g b else m0) = false).
    { destruct (m0 <? g b)%float eqn:E; [|done]. by apply ltb_not_nan in E as [_ H]. }
    apply elem_of_cons in Hin as [->|Hin]; [|by apply IH].
    eapply leb_trans; [|by apply run_max_ge_start].
    destruct (m0 <? g b)%float eqn:E; [by apply leb_refl|by apply not_ltb_leb].
Qed.

End Running.

(** ** Bounding boxes *)

Lemma at_f_fmap_seqZ (f : Z → float) (n d : Z) :
  0 ≤ d < n → at_f (f <$> seqZ 0 n) d = f d.
Proof.
  intros Hd. unfold at_f. rewrite nth_lookup, list_lookup_fmap.
  rewrite lookup_seqZ_lt by lia. simpl. f_equal. lia.
Qed.

Lemma at_f_replicate (x : float) (n d : Z) :
  0 ≤ d < n → at_f (replicate (Z.to_nat n) x) d = x.
Proof.
  intros Hd. unfold at_f. rewrite nth_lookup.
  rewrite lookup_replicate_2 by lia. done.
Qed.

Lemma float_max_not_nan : is_nan float_max = false ∧ is_nan (- float_max)%float = false.
Proof. split; reflexivity. Qed.

Section Boxes.

Variable D : Z.

Lemma GetBoxOfPointsAD_dim (points : list (list float)) (d : Z) :
  0 ≤ d < D →
  at_f (Min (IGM.GetBoxOfPointsAD D points)) d
  = run_min (fun p => at_f p d) float_max points
  ∧ at_f (Max (IGM.GetBoxOfPointsAD D points)) d
    = run_max (fun p => at_f p d) (- float_max)%float points.
Proof.
  intros Hd. unfold IGM.GetBoxOfPointsAD.
  assert (Hgen : ∀ ext,
    at_f (Min (foldl (fun ext point =>
           mkBox ((fun dimensionID =>
                     if (at_f point dimensionID <? at_f (Min ext) dimensionID)%float
                     then at_f point dimensionID else at_f (Min ext) dimensionID)
                    <$> seqZ 0 D)
                 ((fun dimensionID =>
                     if (at_f (Max ext) dimensionID <? at_f point dimensionID)%float
                     then at_f point dimensionID else at_f (Max ext) dimensionID)
                    <$> seqZ 0 D)) ext points)) d
    = run_min (fun p => at_f p d) (at_f (Min ext) d) points
    ∧ at_f (Max (foldl (fun ext point =>
           mkBox ((fun dimensionID =>
                     if (at_f point dimensionID <? at_f (Min ext) dimensionID)%float
                     then at_f point dimensionID else at_f (Min ext) dimensionID)
                    <$> seqZ 0 D)
                 ((fun dimensionID =>
                     if (at_f (Max ext) dimensionID <? at_f point dimensionID)%float
                     then at_f point dimensionID else at_f (Max ext) dimensionID)
                    <$> seqZ 0 D)) ext points)) d
      = run_max (fun p => at_f p d) (at_f (Max ext) d) points).
  { induction points as [|p points IH]; intros ext; [done|].
    cbn [foldl run_min run_max]. destruct (IH (mkBox
           ((fun dimensionID =>
               if (at_f p dimensionID <? at_f (Min ext) dimensionID)%float
               then at_f p dimensionID else at_f (Min ext) dimensionID) <$> seqZ 0 D)
           ((fun dimensionID =>
               if (at_f (Max ext) dimensionID <? at_f p dimensionID)%float
               then at_f p dimensionID else at_f (Max ext) dimensionID) <$> seqZ 0 D)))
      as [H1 H2].
    rewrite H1, H2. cbn [Min Max]. by rewrite !at_f_fmap_seqZ by done. }
  destruct (Hgen (IGM.BoxInvertedInit D)) as [H1 H2]. rewrite H1, H2.
  unfold IGM.BoxInvertedInit. cbn [Min Max]. by rewrite !at_f_replicate by done.
Qed.

(** X20.  The box computed by [GetBoxOfPointsAD] contains every point of
    the collection whose coordinates are numbers. *)
Theorem box_of_points_contains_points (points : list (list float)) (point : list float) :
  point ∈ points →
  (∀ d, 0 ≤ d < D → is_nan (at_f point d) = false) →
  IGM.DoesBoxContainPointAD D (IGM.GetBoxOfPointsAD D points) point 0 = true.
Proof.
  intros Hin Hnum. unfold IGM.DoesBoxContainPointAD.
  change (fneq 0 0) with false. cbn match.
  apply forallb_forall. intros d Hd. apply list_elem_of_In, elem_of_seqZ in Hd.
  destruct (GetBoxOfPointsAD_dim points d ltac:(lia)) as [-> ->].
  destruct float_max_not_nan as [Hmax Hmin].
  apply andb_true_iff. split.
  - apply (run_min_le_elem (fun p => at_f p d)); [done|done|apply Hnum; lia].
  - apply (run_max_ge_elem (fun p => at_f p d)); [done|done|apply Hnum; lia].
Qed.

Lemma GetBoxOfBoxesAD_dim (boxes : list Box) (d : Z) :
  0 ≤ d < D →
  at_f (Min (IGM.GetBoxOfBoxesAD D boxes)) d
  = run_min (fun b => at_f (Min b) d) float_max boxes
  ∧ at_f (Max (IGM.GetBoxOfBoxesAD D boxes)) d
    = run_max (fun b => at_f (Max b) d) (- float_max)%float boxes.
Proof.
  intros Hd. unfold IGM.GetBoxOfBoxesAD.
  assert (Hgen : ∀ ext,
    at_f (Min (foldl (fun ext box =>
           mkBox ((fun dimensionID =>
                     if (at_f (Min box) dimensionID <? at_f (Min ext) dimensionID)%float
                     then at_f (Min box) dimensionID else at_f (Min ext) dimensionID)
                    <$> seqZ 0 D)
                 ((fun dimensionID =>
                     if (at_f (Max ext) dimensionID <? at_f (Max box) dimensionID)%float
                     then at_f (Max box) dimensionID else at_f (Max ext) dimensionID)
                    <$> seqZ 0 D)) ext boxes)) d
    = run_min (fun b => at_f (Min b) d) (at_f (Min ext) d) boxes
    ∧ at_f (Max (foldl (fun ext box =>
           mkBox ((fun dimensionID =>
                     if (at_f (Min box) dimensionID <? at_f (Min ext) dimensionID)%float
                     then at_f (Min box) dimensionID else at_f (Min ext) dimensionID)
                    <$> seqZ 0 D)
                 ((fun dimensionID =>
                     if (at_f (Max ext) dimensionID <? at_f (Max box) dimensionID)%float
                     then at_f (Max box) dimensionID else at_f (Max ext) dimensionID)
                    <$> seqZ 0 D)) ext boxes)) d
      = run_max (fun b => at_f (Max b) d) (at_f (Max ext) d) boxes).
  { induction boxes as [|b boxes IH]; intros ext; [done|].
    cbn [foldl run_min run_max]. destruct (IH (mkBox
           ((fun dimensionID =>
               if (at_f (Min b) dimensionID <? at_f (Min ext) dimensionID)%float
               then at_f (Min b) dimensionID else at_f (Min ext) dimensionID) <$> seqZ 0 D)
           ((fun dimensionID =>
               if (at_f (Max ext) dimensionID <? at_f (Max b) dimensionID)%float
               then at_f (Max b) dimensionID else at_f (Max ext) dimensionID) <$> seqZ 0 D)))
      as [H1 H2].
    rewrite H1, H2. cbn [Min Max]. by rewrite !at_f_fmap_seqZ by done. }
  destruct (Hgen (IGM.BoxInvertedInit D)) as [H1 H2]. rewrite H1, H2.
  unfold IGM.BoxInvertedInit. cbn [Min Max]. by rewrite !at_f_replicate by done.
Qed.

(** X21.  The box computed by [GetBoxOfBoxesAD] contains every box of the
    collection whose sides are ordered numbers. *)
Theorem box_of_boxes_contains_boxes (boxes : list Box) (box : Box) :
  box ∈ boxes →
  (∀ d, 0 ≤ d < D → (at_f (Min box) d <=? at_f (Max box) d)%float = true) →
  IGM.DoesRangeContainBoxAD D (IGM.GetBoxOfBoxesAD D boxes) box = true.
Proof.
  intros Hin Hord. unfold IGM.DoesRangeContainBoxAD.
  apply forallb_forall. intros d Hd. apply list_elem_of_In, elem_of_seqZ in Hd.
  destruct (GetBoxOfBoxesAD_dim boxes d ltac:(lia)) as [-> ->].
  destruct float_max_not_nan as [Hmax Hmin].
  specialize (Hord d ltac:(lia)). destruct (leb_not_nan _ _ Hord) as [Hn1 Hn2].
  pose proof (run_min_le_elem (fun b => at_f (Min b) d) boxes float_max box Hmax Hin Hn1)
    as Hlo.
  pose proof (run_max_ge_elem (fun b => at_f (Max b) d) boxes (- float_max)%float box
                Hmin Hin Hn2) as Hhi.
  cbn beta in Hlo, Hhi. unfold IGM.DoesRangeContainBox.
  rewrite (leb_not_ltb _ _ Hlo).
  rewrite (leb_not_ltb _ _ (leb_trans _ _ _ Hord Hhi)).
  rewrite (leb_not_ltb _ _ (leb_trans _ _ _ Hlo Hord)).
  by rewrite (leb_not_ltb _ _ Hhi).
Qed.

(** ** The relation of two boxes *)

Lemma existsb_false {A} (f : A → bool) (l : list A) :
  existsb f l = false ↔ ∀ x, In x l → f x = false.
Proof.
  induction l as [|y l IH]; cbn [existsb In]; [by split|].
  rewrite orb_false_iff, IH. split.
  - intros [Hy Hl] x [<-|Hx]; [done|by apply Hl].
  - intros H. split; [apply H; by left|]. intros x Hx. apply H. by right.
Qed.

Lemma foldl_pointwise {A B} (f h : A → B → A) (l : list B) (a : A) :
  (∀ a x, f a x = h a x) → foldl f a l = foldl h a l.
Proof.
  intros H. revert a. induction l as [|x l IH]; intros a; [done|].
  cbn [foldl]. by rewrite H, IH.
Qed.

Lemma eqb_sym (a b : float) : (a =? b)%float = (b =? a)%float.
Proof.
  rewrite !FloatAxioms.eqb_spec. unfold SFeqb.
  rewrite (SFcompare_antisym (FloatOps.Prim2SF a) (FloatOps.Prim2SF b)).
  by destruct (SFcompare _ _) as [[]|].
Qed.

Lemma leb_ltb_eqb (a b : float) : (a <=? b)%float = (a <? b)%float || (a =? b)%float.
Proof.
  rewrite FloatAxioms.leb_spec, FloatAxioms.ltb_spec, FloatAxioms.eqb_spec.
  unfold SFleb, SFltb, SFeqb. by destruct (SFcompare _ _) as [[]|].
Qed.

Section Relation.

Variables e1 e2 : Box.

(** The three tests of one dimension, in the order of the code. *)
Definition overlap_in (d : Z) : bool :=
  (at_f (Min e1) d <? at_f (Max e2) d)%float && (at_f (Min e2) d <? at_f (Max e1) d)%float.
Definition touch_in (d : Z) : bool :=
  (at_f (Min e1) d =? at_f (Max e2) d)%float || (at_f (Max e1) d =? at_f (Min e2) d)%float.
Definition apart_in (d : Z) : bool :=
  (at_f (Max e2) d <? at_f (Min e1) d)%float || (at_f (Max e1) d <? at_f (Min e2) d)%float.

Definition relation_step (acc : option (bool * bool)) (d : Z) : option (bool * bool) :=
  rel ← acc;
  if overlap_in d then Some (true, snd rel)
  else if touch_in d then Some (fst rel, true)
  else if apart_in d then None
  else Some rel.

Lemma relation_loop_None (l : list Z) : foldl relation_step None l = None.
Proof. by induction l. Qed.

Lemma relation_loop_closed (l : list Z) (o a : bool) :
  foldl relation_step (Some (o, a)) l
  = if existsb (fun d => negb (overlap_in d) && negb (touch_in d) && apart_in d) l
    then None
    else Some (o || existsb overlap_in l,
               a || existsb (fun d => negb (overlap_in d) && touch_in d) l).
Proof.
  revert o a. induction l as [|d l IH]; intros o a.
  - cbn [foldl existsb]. by rewrite !orb_false_r.
  - cbn [foldl existsb]. unfold relation_step at 2.
    change (Some ?x ≫= ?f) with (f x). cbn beta. cbn [fst snd].
    destruct (overlap_in d); cbn [negb andb orb].
    + rewrite IH. destruct (existsb _ l); [done|]. by rewrite orb_true_r.
    + destruct (touch_in d); cbn [negb andb orb].
      * rewrite IH. destruct (existsb _ l); [done|]. by rewrite orb_true_r.
      * destruct (apart_in d); cbn [orb]; [apply relation_loop_None|apply IH].
Qed.

End Relation.

Lemma GetBoxRelation_loop_step (e1 e2 : Box) :
  AD.GetBoxRelation_loop D e1 e2
  = foldl (relation_step e1 e2) (Some (false, false)) (seqZ 0 D).
Proof. reflexivity. Qed.

(** X22.  [GetBoxRelation] does not depend on the order of its two
    arguments. *)
Theorem GetBoxRelation_symmetric (e1 e2 : Box) :
  AD.GetBoxRelation D e1 e2 = AD.GetBoxRelation D e2 e1.
Proof.
  unfold AD.GetBoxRelation. rewrite !GetBoxRelation_loop_step.
  rewrite (foldl_pointwise (relation_step e1 e2) (relation_step e2 e1)); [done|].
  intros acc d.
  unfold relation_step, overlap_in, touch_in, apart_in.
  rewrite (andb_comm (at_f (Min e1) d <? at_f (Max e2) d)%float).
  rewrite (orb_comm (at_f (Max e2) d <? at_f (Min e1) d)%float).
  rewrite (eqb_sym (at_f (Min e1) d)), (eqb_sym (at_f (Max e1) d)).
  by rewrite (orb_comm (at_f (Max e2) d =? at_f (Min e1) d)%float).
Qed.

(** X23.  For boxes whose coordinates are numbers, [AreBoxesOverlappedStrict]
    holds exactly when in every dimension each box starts strictly before the
    other one ends. *)
Theorem strict_overlap_iff (e1 e2 : Box) :
  (∀ d, 0 ≤ d < D →
        is_nan (at_f (Min e1) d) = false ∧ is_nan (at_f (Max e1) d) = false
        ∧ is_nan (at_f (Min e2) d) = false ∧ is_nan (at_f (Max e2) d) = false) →
  AD.AreBoxesOverlappedStrict D e1 e2 = true
  ↔ ∀ d, 0 ≤ d < D →
         (at_f (Min e1) d <? at_f (Max e2) d)%float = true
         ∧ (at_f (Min e2) d <? at_f (Max e1) d)%float = true.
Proof.
  intros Hnum. unfold AD.AreBoxesOverlappedStrict, AD.GetBoxRelation.
  rewrite GetBoxRelation_loop_step, relation_loop_closed. cbn [orb].
  assert (Hcover : ∀ d, 0 ≤ d < D → overlap_in e1 e2 d = false →
            touch_in e1 e2 d = false → apart_in e1 e2 d = true).
  { intros d Hd Ho Ht. destruct (Hnum d Hd) as (N1 & N2 & N3 & N4).
    unfold overlap_in, touch_in, apart_in in *.
    apply orb_false_iff in Ht as [T1 T2]. apply orb_true_iff.
    apply andb_false_iff in Ho as [Ho|Ho].
    - left. apply not_ltb_leb in Ho; [|done|done].
      rewrite leb_ltb_eqb in Ho. apply orb_true_iff in Ho as [Ho|Ho]; [done|].
      rewrite eqb_sym in Ho. congruence.
    - right. apply not_ltb_leb in Ho; [|done|done].
      rewrite leb_ltb_eqb in Ho. apply orb_true_iff in Ho as [Ho|Ho]; [done|].
      congruence. }
  split.
  - intros H d Hd.
    destruct (existsb (fun d => negb (overlap_in e1 e2 d) && negb (touch_in e1 e2 d)
                                && apart_in e1 e2 d) (seqZ 0 D)) eqn:Es; [done|].
    destruct (existsb (fun d => negb (overlap_in e1 e2 d) && touch_in e1 e2 d) (seqZ 0 D))
      eqn:Et; [done|].
    assert (Hin : d ∈ seqZ 0 D) by (apply elem_of_seqZ; lia).
    apply list_elem_of_In in Hin.
    pose proof (proj1 (existsb_false _ _) Es d Hin) as Hs. cbn beta in Hs.
    pose proof (proj1 (existsb_false _ _) Et d Hin) as Ht. cbn beta in Ht.
    destruct (overlap_in e1 e2 d) eqn:Eo.
    + by apply andb_true_iff in Eo.
    + cbn [negb andb] in Hs, Ht. rewrite Ht in Hs. cbn [negb andb] in Hs.
      by rewrite (Hcover d Hd Eo Ht) in Hs.
  - intros H.
    assert (Hall : ∀ d, In d (seqZ 0 D) → overlap_in e1 e2 d = true).
    { intros d Hd. apply list_elem_of_In, elem_of_seqZ in Hd.
      destruct (H d ltac:(lia)) as [H1 H2]. unfold overlap_in. by rewrite H1, H2. }
    replace (existsb (fun d => negb (overlap_in e1 e2 d) && negb (touch_in e1 e2 d)
                               && apart_in e1 e2 d) (seqZ 0 D)) with false.
    + replace (existsb (fun d => negb (overlap_in e1 e2 d) && touch_in e1 e2 d) (seqZ 0 D))
        with false; [done|].
      symmetry. apply existsb_false. intros d Hd. by rewrite (Hall d Hd).
    + symmetry. apply existsb_false. intros d Hd. by rewrite (Hall d Hd).
Qed.

(** X24.  [GetRayBoxDistanceAD] on a box given by center and half sizes:
    0 when the origin is in the widened box, else the slab method between the
    planes [center - halfSize - tolerance] and [center + halfSize + tolerance]. *)
Theorem ray_box_distance_AD_slab (center halfSizes origin dir : list float) (tol : float) :
  IGM.GetRayBoxDistanceAD D center halfSizes origin dir tol
  = if IGM.DoesBoxContainPointAD_center D center halfSizes origin tol then Some 0%float
    else slab_method D (center_lo center halfSizes tol) (center_hi center halfSizes tol)
                     (center_lo center halfSizes tol) (center_hi center halfSizes tol)
                     origin dir tol.
Proof. apply GetRayBoxDistanceAD_closed. Qed.

End Boxes.
End GeomFacts.

Lemma box_of_points_contains_points_witness :
  IGM.DoesBoxContainPointAD 2
    (IGM.GetBoxOfPointsAD 2 [[0.25%float; 0.5%float]; [1%float; 2%float]])
    [0.25%float; 0.5%float] 0 = true.
Proof.
  apply GeomFacts.box_of_points_contains_points.
  - apply elem_of_cons. by left.
  - intros d Hd. assert (d = 0 ∨ d = 1) as [->| ->] by lia; reflexivity.
Defined.

Lemma box_of_boxes_contains_boxes_witness :
  IGM.DoesRangeContainBoxAD 2
    (IGM.GetBoxOfBoxesAD 2 [mkBox [0%float; 0%float] [1%float; 1%float];
                            mkBox [2%float; 2%float] [3%float; 4%float]])
    (mkBox [2%float; 2%float] [3%float; 4%float]) = true.
Proof.
  apply GeomFacts.box_of_boxes_contains_boxes.
  - apply elem_of_cons. right. apply elem_of_cons. by left.
  - intros d Hd. assert (d = 0 ∨ d = 1) as [->| ->] by lia; reflexivity.
Defined.

Lemma strict_overlap_iff_witness :
  AD.AreBoxesOverlappedStrict 2 (mkBox [0%float; 0%float] [2%float; 2%float])
                                (mkBox [1%float; 1%float] [3%float; 3%float]) = true
  ↔ ∀ d, 0 ≤ d < 2 →
         (at_f (Min (mkBox [0%float; 0%float] [2%float; 2%float])) d
          <? at_f (Max (mkBox [1%float; 1%float] [3%float; 3%float])) d)%float = true
         ∧ (at_f (Min (mkBox [1%float; 1%float] [3%float; 3%float])) d
            <? at_f (Max (mkBox [0%float; 0%float] [2%float; 2%float])) d)%float = true.
Proof.
  apply GeomFacts.strict_overlap_iff.
  intros d Hd. assert (d = 0 ∨ d = 1) as [->| ->] by lia; repeat split; reflexivity.
Defined.
